(** * Pixel art editor: rasterizer and palette quantizer

    A shallow embedding of the drawing code of [Canvas.tsx] (brush stamping,
    Bresenham line interpolation, flood fill), of the brush footprints of
    [Toolbar.tsx], and of the palette reducer [paletteReducer.ts], followed
    by the properties that hold of them.

    Conventions.
    - JavaScript numbers that only ever hold integers are [Z]; the floating
      point working values of the dithering pass are binary64 doubles
      ([spec_float] with 53 bits of precision), every operation rounded.
    - An [ImageData] is a row-major list of RGBA quadruples: entry [i]
      stands for the four bytes [data[4i .. 4i+3]].  A canvas is the
      [ImageData] that [getImageData] reads off it.
    - A [while] loop is a [Fixpoint] on a fuel argument that returns [None]
      when the fuel runs out; the entry points supply the fuel and are
      proved never to run out. *)

From Stdlib Require Import ZArith QArith Qround List String Ascii Lia Lqa Permutation Sorted.
From Stdlib Require Import SpecFloat.
From stdpp Require Import base option list gmap.

Local Open Scope Z_scope.

(** ** Pixels and images *)

Definition RGBA : Type := (Z * Z * Z * Z)%type.

Definition chanR (c : RGBA) : Z := let '(r, _, _, _) := c in r.
Definition chanG (c : RGBA) : Z := let '(_, g, _, _) := c in g.
Definition chanB (c : RGBA) : Z := let '(_, _, b, _) := c in b.
Definition chanA (c : RGBA) : Z := let '(_, _, _, a) := c in a.

(** [c[channel]] for [channel] in 0..3. *)
Definition chan (channel : nat) (c : RGBA) : Z :=
  match channel with
  | O => chanR c
  | 1%nat => chanG c
  | 2%nat => chanB c
  | _ => chanA c
  end.

Definition isByte (v : Z) : Prop := 0 <= v <= 255.

Definition byteColor (c : RGBA) : Prop :=
  isByte (chanR c) /\ isByte (chanG c) /\ isByte (chanB c) /\ isByte (chanA c).

Record ImageData : Type := mkImageData {
  width : Z;
  height : Z;
  data : list RGBA
}.

(** The invariant of an [ImageData]: [data.length == width * height * 4]. *)
Definition wfImage (img : ImageData) : Prop :=
  0 < width img /\ 0 < height img /\
  length (data img) = Z.to_nat (width img * height img).

(** A store into a [Uint8ClampedArray] clamps to [0, 255]. *)
Definition clamp8 (v : Z) : Z := Z.max 0 (Z.min 255 v).

(** [Math.round] on a quotient [r / n] of integers with [n > 0]: halves go up. *)
Definition roundDiv (r n : Z) : Z := (2 * r + n) / (2 * n).

(** [Math.round] on a rational. *)
Definition mathRound (q : Q) : Z := Qfloor (q + (1 # 2))%Q.

(** [renderer.isPixelInBounds(x, y)] for an image of size [w] x [h]. *)
Definition isPixelInBounds (w h x y : Z) : bool :=
  (0 <=? x) && (x <? w) && (0 <=? y) && (y <? h).

(** Index of pixel [(x, y)]: [getPixelIndex(x, y) / 4]. *)
Definition pixelIndex (w x y : Z) : nat := Z.to_nat (y * w + x).

Definition getPixel (img : ImageData) (x y : Z) : option RGBA :=
  data img !! pixelIndex (width img) x y.

(** ** hexToRgba *)

Definition hexDigit (c : ascii) : option Z :=
  let n := Z.of_nat (nat_of_ascii c) in
  if (48 <=? n) && (n <=? 57) then Some (n - 48)
  else if (97 <=? n) && (n <=? 102) then Some (n - 87)
  else if (65 <=? n) && (n <=? 70) then Some (n - 55)
  else None.

(** [parseInt(s, 16)] on a two-character group that matched [[a-f\d]{2}]. *)
Definition hexPair (a b : ascii) : option Z :=
  match hexDigit a, hexDigit b with
  | Some h, Some l => Some (16 * h + l)
  | _, _ => None
  end.

(** The match of [/^#?([a-f\d]{2})([a-f\d]{2})([a-f\d]{2})$/i]. *)
Definition matchHex (hex : string) : option (Z * Z * Z) :=
  let body :=
    match hex with
    | String "#"%char rest => rest
    | _ => hex
    end in
  match body with
  | String r1 (String r2 (String g1 (String g2 (String b1 (String b2 EmptyString))))) =>
      match hexPair r1 r2, hexPair g1 g2, hexPair b1 b2 with
      | Some r, Some g, Some b => Some (r, g, b)
      | _, _, _ => None
      end
  | _ => None
  end.

Definition hexToRgba (hex : string) (alpha : Z) : RGBA :=
  match matchHex hex with
  | Some (r, g, b) => (r, g, b, alpha)
  | None => (0, 0, 0, alpha)
  end.

(** ** The 2D canvas context

    [fillRect] and [clearRect] are the browser's; the editor never changes
    [globalCompositeOperation], so a fill composites with the default
    source-over rule.  The canvas keeps its pixels as 8-bit channels
    premultiplied by alpha, and [getImageData] hands them back
    unpremultiplied; every conversion and the blend itself round to the
    nearest byte.  A pixel is modelled by the value [getImageData] returns
    for it; the style alpha is [a8 / 255]. *)

(** Straight 8-bit channels to premultiplied ones. *)
Definition premultiply (c : RGBA) : RGBA :=
  let '(r, g, b, a) := c in
  (roundDiv (r * a) 255, roundDiv (g * a) 255, roundDiv (b * a) 255, a).

(** Premultiplied channels back to straight ones, as [getImageData] does;
    a fully transparent pixel reads as transparent black. *)
Definition unpremultiply (p : RGBA) : RGBA :=
  let '(r, g, b, a) := p in
  if a =? 0 then (0, 0, 0, 0)
  else (roundDiv (r * 255) a, roundDiv (g * 255) a, roundDiv (b * 255) a, a).

(** Source-over on the premultiplied store: every channel, alpha included,
    becomes [src + dst * (255 - srcAlpha) / 255]. *)
Definition sourceOver (style dst : RGBA) : RGBA :=
  let '(sr, sg, sb, a8) := premultiply style in
  let '(dr, dg, db, da) := premultiply dst in
  let over (s d : Z) : Z := s + roundDiv (d * (255 - a8)) 255 in
  unpremultiply (over sr dr, over sg dg, over sb db, over a8 da).

(** Apply [f] to the pixel at [(px, py)]; drawing outside the canvas is clipped. *)
Definition paintPixel (f : RGBA -> RGBA) (px py : Z) (cv : ImageData) : ImageData :=
  if isPixelInBounds (width cv) (height cv) px py then
    mkImageData (width cv) (height cv)
      (alter f (pixelIndex (width cv) px py) (data cv))
  else cv.

(** [ctx.fillStyle = style; ctx.fillRect(px, py, 1, 1)]. *)
Definition fillRect1 (style : RGBA) (px py : Z) (cv : ImageData) : ImageData :=
  paintPixel (sourceOver style) px py cv.

(** [ctx.clearRect(px, py, 1, 1)]. *)
Definition clearRect1 (px py : Z) (cv : ImageData) : ImageData :=
  paintPixel (fun _ => (0, 0, 0, 0)) px py cv.

(** ** drawBrush *)

Record Brush : Type := mkBrush {
  brushSize : Z;
  color : string;
  opacity : Q
}.

(** The [(dx, dy)] pairs of the two nested loops of [drawBrush], in loop
    order: both run from [-half] while [< brushSize - half]. *)
Definition brushOffsets (size : Z) : list (Z * Z) :=
  let half := size / 2 in
  dy ← seqZ (- half) size;
  dx ← seqZ (- half) size;
  [(dx, dy)].

(** The pixels a stamp at [(centerX, centerY)] paints: the footprint moved to
    the center, without those that fail [isPixelInBounds]. *)
Definition brushPixels (w h size centerX centerY : Z) : list (Z * Z) :=
  filter (fun p => isPixelInBounds w h p.1 p.2 = true)
         (map (fun d => (centerX + d.1, centerY + d.2)) (brushOffsets size)).

Definition alphaValue (b : Brush) : Z := mathRound (opacity b * 255)%Q.

(** The [fillStyle] of a stamp: [rgba(r, g, b, alphaValue / 255)]. *)
Definition brushStyle (b : Brush) : RGBA :=
  let '(r, g, b', _) := hexToRgba (color b) (alphaValue b) in
  (r, g, b', alphaValue b).

Definition drawBrush (b : Brush) (centerX centerY : Z) (isEraser : bool)
    (ctx : ImageData) : ImageData :=
  foldl (fun cv p =>
           if isEraser then clearRect1 p.1 p.2 cv
           else fillRect1 (brushStyle b) p.1 p.2 cv)
        ctx
        (brushPixels (width ctx) (height ctx) (brushSize b) centerX centerY).

(** ** drawLineOnContext (Bresenham) *)

Section LineLoop.
Context {St : Type} (visit : Z -> Z -> St -> St).
Variables (x1 y1 dx dy sx sy : Z).

(** One run of the [while (true)] body per unit of fuel. *)
Fixpoint lineLoop (fuel : nat) (err cx cy : Z) (s : St) : option St :=
  match fuel with
  | O => None
  | S fuel' =>
      let s := visit cx cy s in
      if (cx =? x1) && (cy =? y1) then Some s
      else
        let e2 := 2 * err in
        let '(err, cx) :=
          if - dy <? e2 then (err - dy, cx + sx) else (err, cx) in
        let '(err, cy) :=
          if e2 <? dx then (err + dx, cy + sy) else (err, cy) in
        lineLoop fuel' err cx cy s
  end.
End LineLoop.

Definition lineFuel (x0 y0 x1 y1 : Z) : nat :=
  S (Z.to_nat (Z.abs (x1 - x0) + Z.abs (y1 - y0))).

Definition runLine {St : Type} (visit : Z -> Z -> St -> St)
    (x0 y0 x1 y1 : Z) (s : St) : option St :=
  let dx := Z.abs (x1 - x0) in
  let dy := Z.abs (y1 - y0) in
  let sx := if x0 <? x1 then 1 else -1 in
  let sy := if y0 <? y1 then 1 else -1 in
  lineLoop visit x1 y1 dx dy sx sy (lineFuel x0 y0 x1 y1) (dx - dy) x0 y0 s.

(** The centers at which the loop calls [drawBrush], in call order. *)
Definition tracePoint (x y : Z) (acc : list (Z * Z)) : list (Z * Z) :=
  acc ++ [(x, y)].

Definition linePoints (x0 y0 x1 y1 : Z) : option (list (Z * Z)) :=
  runLine tracePoint x0 y0 x1 y1 [].

Definition drawLineOnContext (b : Brush) (x0 y0 x1 y1 : Z) (isEraser : bool)
    (ctx : ImageData) : option ImageData :=
  runLine (fun x y cv => drawBrush b x y isEraser cv) x0 y0 x1 y1 ctx.

(** ** getBrushPixels (toolbar preview footprints) *)

Inductive BrushShape : Type :=
  | square | circle | diamond | horizontal | vertical | slash | backslash.

(** The circle test [sqrt((dx + 0.5)^2 + (dy + 0.5)^2) <= size / 2] compares
    exact multiples of a quarter, so it is the integer test on the doubled
    quantities. *)
Definition inCircle (size dx dy : Z) : bool :=
  (2 * dx + 1) * (2 * dx + 1) + (2 * dy + 1) * (2 * dy + 1) <=? size * size.

Definition getBrushPixels (size : Z) (shape : BrushShape) : list (Z * Z) :=
  let half := size / 2 in
  let run := seqZ (- half) size in
  match shape with
  | square => dy ← run; dx ← run; [(dx, dy)]
  | circle =>
      dy ← run; dx ← run; if inCircle size dx dy then [(dx, dy)] else []
  | diamond =>
      dy ← run; dx ← run;
      if Z.abs dx + Z.abs dy <=? half then [(dx, dy)] else []
  | horizontal => map (fun dx => (dx, 0)) run
  | vertical => map (fun dy => (0, dy)) run
  | slash => map (fun i => (i, - i)) run
  | backslash => map (fun i => (i, i)) run
  end.

(** ** floodFill

    The JavaScript [stack] array is a list whose head is the array's last
    element; the [visited] set of [`${x},${y}`] keys is a set of pairs. *)

Fixpoint floodLoop (fuel : nat) (w h : Z) (target : option RGBA) (fill : RGBA)
    (dat : list RGBA) (stack : list (Z * Z)) (visited : gset (Z * Z))
    : option (list RGBA) :=
  match fuel with
  | O => None
  | S fuel' =>
      match stack with
      | [] => Some dat
      | (x, y) :: stack' =>
          if decide ((x, y) ∈ visited) then
            floodLoop fuel' w h target fill dat stack' visited
          else if (x <? 0) || (w <=? x) || (y <? 0) || (h <=? y) then
            floodLoop fuel' w h target fill dat stack' visited
          else
            let idx := pixelIndex w x y in
            if decide (dat !! idx = target) then
              floodLoop fuel' w h target fill (<[idx := fill]> dat)
                ((x, y - 1) :: (x, y + 1) :: (x - 1, y) :: (x + 1, y) :: stack')
                ({[(x, y)]} ∪ visited)
            else
              floodLoop fuel' w h target fill dat stack' visited
      end
  end.

Definition floodFuel (cv : ImageData) : nat := (4 * length (data cv) + 2)%nat.

(** [floodFill(startX, startY)] with the current [color]; the result is the
    canvas after [putImageData], or the untouched canvas on an early return. *)
Definition floodFill (color : string) (startX startY : Z) (cv : ImageData)
    : option ImageData :=
  let w := width cv in
  let h := height cv in
  if negb (isPixelInBounds w h startX startY) then Some cv
  else
    let target := data cv !! pixelIndex w startX startY in
    let fill := hexToRgba color 255 in
    if decide (target = Some fill) then Some cv
    else
      match floodLoop (floodFuel cv) w h target fill (data cv)
              [(startX, startY)] ∅ with
      | Some dat => Some (mkImageData w h dat)
      | None => None
      end.

(** ** Palette reducer: colour extraction *)

(** The pixels the loops [for (i = 0; i < width * height * 4; i += 4)] read. *)
Definition pixelsOf (img : ImageData) : list RGBA :=
  take (Z.to_nat (width img * height img)) (data img).

Definition opaque (c : RGBA) : bool := negb (chanA c =? 0).

Definition extractAllColors (img : ImageData) : list RGBA :=
  filter (fun c => opaque c = true) (pixelsOf img).

(** A JavaScript [Map] keyed by [`${r},${g},${b},${a}`] is an association
    list in insertion order, keyed by the colour itself. *)
Fixpoint bump (c : RGBA) (m : list (RGBA * Z)) : list (RGBA * Z) :=
  match m with
  | [] => [(c, 1)]
  | (c', n) :: m' =>
      if decide (c = c') then (c', n + 1) :: m' else (c', n) :: bump c m'
  end.

Definition extractColorsWithFrequency (img : ImageData) : list (RGBA * Z) :=
  foldl (fun m c => if opaque c then bump c m else m) [] (pixelsOf img).

Definition countUniqueColors (img : ImageData) : nat :=
  length (extractColorsWithFrequency img).

(** [unique.set(key, c)] for every colour, then [Array.from(unique.values())]:
    a key keeps the position of its first insertion. *)
Definition dedupeStep (u : list RGBA) (c : RGBA) : list RGBA :=
  if decide (c ∈ u) then u else u ++ [c].

Definition dedupe (colors : list RGBA) : list RGBA := foldl dedupeStep [] colors.

(** ** Nearest colour *)

Definition colorDistance (c1 c2 : RGBA) : Z :=
  let dr := chanR c1 - chanR c2 in
  let dg := chanG c1 - chanG c2 in
  let db := chanB c1 - chanB c2 in
  dr * dr + dg * dg + db * db.

(** [a < b] on numbers that may be [Infinity], which is [None]. *)
Definition extLt (a b : option Z) : bool :=
  match a, b with
  | Some x, Some y => x <? y
  | Some _, None => true
  | None, _ => false
  end.

(** [dist < minDist]. *)
Definition belowInf (dist : Z) (minDist : option Z) : bool :=
  extLt (Some dist) minDist.

(** The loop body of [findNearestColor] on [(minDist, nearest)]. *)
Definition nearStep (color : RGBA) (st : option Z * option RGBA) (paletteColor : RGBA)
    : option Z * option RGBA :=
  let dist := colorDistance color paletteColor in
  if belowInf dist st.1 then (Some dist, Some paletteColor) else st.

(** [None] is the [undefined] that [palette[0]] is for an empty palette. *)
Definition findNearestColor (color : RGBA) (palette : list RGBA) : option RGBA :=
  (foldl (nearStep color) (None, head palette) palette).2.

(** ** Array.prototype.sort with a comparator: a stable sort *)

Section Sort.
Context {A : Type} (cmp : A -> A -> Z).

Fixpoint insertBy (x : A) (l : list A) : list A :=
  match l with
  | [] => [x]
  | y :: l' => if cmp y x <? 0 then y :: insertBy x l' else x :: y :: l'
  end.

Definition sortBy (l : list A) : list A := foldr insertBy [] l.
End Sort.

(** [arr.slice(0, n)]. *)
Definition sliceTo {A : Type} (n : Z) (l : list A) : list A :=
  if 0 <=? n then take (Z.to_nat n) l
  else take (length l - Z.to_nat (- n)) l.

(** ** Median cut *)

Definition chanRange (channel : nat) (box : list RGBA) : Z :=
  let mn := foldl (fun m c => if chan channel c <? m then chan channel c else m) 255 box in
  let mx := foldl (fun m c => if m <? chan channel c then chan channel c else m) 0 box in
  mx - mn.

(** The scan of one box: [(maxRange, maxBoxIndex, splitChannel)]. *)
Definition scanBox (best : Z * nat * nat) (ib : nat * list RGBA) : Z * nat * nat :=
  let '(i, box) := ib in
  if (length box <=? 1)%nat then best
  else
    foldl (fun best channel =>
             let range := chanRange channel box in
             if best.1.1 <? range then (range, i, channel) else best)
          best [0; 1; 2]%nat.

Definition findSplit (boxes : list (list RGBA)) : Z * nat * nat :=
  foldl scanBox (-1, 0%nat, 0%nat) (imap pair boxes).

Fixpoint splitLoop (fuel : nat) (targetCount : Z) (boxes : list (list RGBA))
    : option (list (list RGBA)) :=
  match fuel with
  | O => None
  | S fuel' =>
      if Z.of_nat (length boxes) <? targetCount then
        let '(maxRange, maxBoxIndex, splitChannel) := findSplit boxes in
        if maxRange <=? 0 then Some boxes
        else
          let boxToSplit := default [] (boxes !! maxBoxIndex) in
          let sorted :=
            sortBy (fun a b => chan splitChannel a - chan splitChannel b) boxToSplit in
          let median := (length sorted / 2)%nat in
          splitLoop fuel' targetCount
            (take maxBoxIndex boxes
               ++ [take median sorted; drop median sorted]
               ++ drop (S maxBoxIndex) boxes)
      else Some boxes
  end.

Definition sumChan (channel : nat) (l : list RGBA) : Z :=
  foldl (fun acc c => acc + chan channel c) 0 l.

(** The rounded per-channel mean of a non-empty list of colours. *)
Definition meanColor (l : list RGBA) : RGBA :=
  let n := Z.of_nat (length l) in
  (roundDiv (sumChan 0 l) n, roundDiv (sumChan 1 l) n,
   roundDiv (sumChan 2 l) n, roundDiv (sumChan 3 l) n).

Definition boxColor (box : list RGBA) : option RGBA :=
  match box with
  | [] => None
  | _ => Some (meanColor box)
  end.

Definition medianCut (colors : list RGBA) (targetCount : Z) : option (list RGBA) :=
  if (length colors =? 0)%nat then Some []
  else if Z.of_nat (length colors) <=? targetCount then Some (dedupe colors)
  else
    match splitLoop (S (Z.to_nat targetCount)) targetCount [colors] with
    | Some boxes => Some (omap boxColor boxes)
    | None => None
    end.

(** ** K-means *)

(** [minDistToCentroid] of one colour; [None] is [Infinity]. *)
Definition minDistTo (color : RGBA) (centroids : list RGBA) : option Z :=
  foldl (fun m centroid =>
           let dist := colorDistance color centroid in
           if belowInf dist m then Some dist else m)
        None centroids.

(** One pass of the seeding loop: [(maxDist, farthestColor)] over all colours,
    updated when [minDistToCentroid > maxDist]. *)
Definition farthest (colors centroids : list RGBA) (c0 : RGBA) : RGBA :=
  (foldl (fun st color =>
            let m := minDistTo color centroids in
            if extLt st.1 m then (m, color) else st)
         (Some (-1), c0) colors).2.

Fixpoint seedLoop (fuel : nat) (targetCount : Z) (colors : list RGBA) (c0 : RGBA)
    (centroids : list RGBA) : option (list RGBA) :=
  match fuel with
  | O => None
  | S fuel' =>
      if Z.of_nat (length centroids) <? targetCount then
        seedLoop fuel' targetCount colors c0
          (centroids ++ [farthest colors centroids c0])
      else Some centroids
  end.

Definition nearestIndex (color : RGBA) (centroids : list RGBA) : nat :=
  (foldl (fun st ic =>
            let dist := colorDistance color ic.2 in
            if belowInf dist st.1 then (Some dist, ic.1) else st)
         (None, 0%nat) (imap pair centroids)).2.

(** [clusters[i]]: the colours assigned to centroid [i], in input order. *)
Definition cluster (colors centroids : list RGBA) (i : nat) : list RGBA :=
  filter (fun color => nearestIndex color centroids = i) colors.

Definition rgbDiffers (c1 c2 : RGBA) : bool :=
  negb ((chanR c1 =? chanR c2) && (chanG c1 =? chanG c2) && (chanB c1 =? chanB c2)).

(** The centroid [i] after the update loop, and whether it set [changed]. *)
Definition updateCentroid (colors centroids : list RGBA) (i : nat) (c : RGBA)
    : RGBA * bool :=
  match cluster colors centroids i with
  | [] => (c, false)
  | cl => let newCentroid := meanColor cl in
          if rgbDiffers newCentroid c then (newCentroid, true) else (c, false)
  end.

(** The [for (iter ...)] loop; the second component counts the passes made. *)
Fixpoint refine (maxIterations : nat) (colors centroids : list RGBA)
    : list RGBA * nat :=
  match maxIterations with
  | O => (centroids, O)
  | S rest =>
      let upd := imap (updateCentroid colors centroids) centroids in
      let centroids' := upd.*1 in
      if existsb snd upd then
        let '(res, k) := refine rest colors centroids' in (res, S k)
      else (centroids', 1%nat)
  end.

(** [pick] is the value of [Math.floor(Math.random() * colors.length)]. *)
Definition kMeansRun (pick : nat) (colors : list RGBA) (targetCount : Z)
    (maxIterations : nat) : option (list RGBA * nat) :=
  match colors with
  | [] => Some ([], O)
  | c0 :: _ =>
      if Z.of_nat (length colors) <=? targetCount then Some (dedupe colors, O)
      else
        match colors !! pick with
        | None => None
        | Some first =>
            match seedLoop (S (Z.to_nat targetCount)) targetCount colors c0 [first] with
            | Some centroids => Some (refine maxIterations colors centroids)
            | None => None
            end
        end
  end.

Definition kMeans (pick : nat) (colors : list RGBA) (targetCount : Z)
    : option (list RGBA) :=
  fst <$> kMeansRun pick colors targetCount 20.

(** ** Frequency *)

Definition frequencyBased (colorMap : list (RGBA * Z)) (targetCount : Z) : list RGBA :=
  let sorted := sortBy (fun a b => b.2 - a.2) colorMap in
  map fst (sliceTo targetCount sorted).

(** ** Entry points *)

Inductive Algorithm : Type := MedianCut | KMeans | Frequency.

Definition extractPalette (pick : nat) (img : ImageData) (colorCount : Z)
    (algorithm : Algorithm) : option (list RGBA) :=
  match algorithm with
  | Frequency => Some (frequencyBased (extractColorsWithFrequency img) colorCount)
  | MedianCut => medianCut (extractAllColors img) colorCount
  | KMeans => kMeans pick (extractAllColors img) colorCount
  end.

(** ** Remap and dithering *)

(** [result.data[i .. i+3] = [r, g, b, a]]. *)
Definition storePixel (r g b a : Z) : RGBA := (clamp8 r, clamp8 g, clamp8 b, clamp8 a).

Definition remapPixel (palette : list RGBA) (c : RGBA) : option RGBA :=
  if chanA c =? 0 then Some (0, 0, 0, 0)
  else
    match findNearestColor c palette with
    | Some nearest => Some (storePixel (chanR nearest) (chanG nearest) (chanB nearest) (chanA c))
    | None => None
    end.

(** [None] is the [TypeError] of reading [nearest[0]] off an empty palette. *)
Definition remapColors (img : ImageData) (palette : list RGBA) : option ImageData :=
  match mapM (remapPixel palette) (pixelsOf img) with
  | Some dat => Some (mkImageData (width img) (height img) dat)
  | None => None
  end.

(** *** JavaScript numbers

    The working values of the dithering are JavaScript numbers: IEEE 754
    binary64, where every operation rounds its exact result to the nearest
    double, ties to even. *)

(** The double nearest to an integer; exact up to [2^53]. *)
Definition ofZ (n : Z) : spec_float := binary_normalize 53 1024 n 0 false.

Definition numAdd (x y : spec_float) : spec_float := SFadd 53 1024 x y.
Definition numSub (x y : spec_float) : spec_float := SFsub 53 1024 x y.
Definition numMul (x y : spec_float) : spec_float := SFmul 53 1024 x y.
Definition numDiv (x y : spec_float) : spec_float := SFdiv 53 1024 x y.

(** The value of the finite double with sign [s], mantissa [m] and exponent [e]. *)
Definition finiteValue (s : bool) (m : positive) (e : Z) : Q :=
  (inject_Z (cond_Zopp s (Z.pos m)) * 2 ^ e)%Q.

(** Structural equality of doubles. *)
Definition numSame (x y : spec_float) : bool :=
  match x, y with
  | S754_zero s, S754_zero s' => Bool.eqb s s'
  | S754_infinity s, S754_infinity s' => Bool.eqb s s'
  | S754_nan, S754_nan => true
  | S754_finite s m e, S754_finite s' m' e' =>
      Bool.eqb s s' && (m =? m')%positive && (e =? e')
  | _, _ => false
  end.

(** A working pixel: three error-adjusted channels and the untouched alpha. *)
Definition Work : Type := (spec_float * spec_float * spec_float * Z)%type.

Definition toWork (c : RGBA) : Work :=
  let '(r, g, b, a) := c in (ofZ r, ofZ g, ofZ b, a).

(** [Math.max(0, Math.min(255, Math.round(v)))]; [None] is NaN, which
    [Math.round], [Math.min] and [Math.max] all hand on. *)
Definition clampRound (v : spec_float) : option Z :=
  match v with
  | S754_nan => None
  | S754_infinity s => Some (if s then 0 else 255)
  | S754_zero _ => Some 0
  | S754_finite s m e => Some (Z.max 0 (Z.min 255 (mathRound (finiteValue s m e))))
  end.

(** The palette colour chosen for a working pixel: the nearest to its
    clamped, rounded channels.  When a channel is NaN every distance is NaN,
    no comparison [dist < minDist] succeeds and [palette[0]] stays. *)
Definition ditherNearest (oldPixel : Work) (palette : list RGBA) : option RGBA :=
  let '(r, g, b, a) := oldPixel in
  match clampRound r, clampRound g, clampRound b with
  | Some r', Some g', Some b' => findNearestColor (r', g', b', a) palette
  | _, _, _ => head palette
  end.

(** [p[c] += error_c * k / 16] for the three colour channels of one pixel:
    a product, a quotient and a sum, each rounded. *)
Definition addTo (k : Z) (e : spec_float * spec_float * spec_float) (p : Work) : Work :=
  let '(eR, eG, eB) := e in
  let '(r, g, b, a) := p in
  (numAdd r (numDiv (numMul eR (ofZ k)) (ofZ 16)),
   numAdd g (numDiv (numMul eG (ofZ k)) (ofZ 16)),
   numAdd b (numDiv (numMul eB (ofZ k)) (ofZ 16)), a).

Definition addError (k : Z) (e : spec_float * spec_float * spec_float) (idx : nat)
    (pixels : list Work) : list Work :=
  alter (addTo k e) idx pixels.

(** The error of one pixel: [oldPixel[c] - newPixel[c]]. *)
Definition ditherError (oldPixel : Work) (newPixel : RGBA)
    : spec_float * spec_float * spec_float :=
  let '(r, g, b, _) := oldPixel in
  (numSub r (ofZ (chanR newPixel)), numSub g (ofZ (chanG newPixel)),
   numSub b (ofZ (chanB newPixel))).

Definition diffuse (w h x y : Z) (e : spec_float * spec_float * spec_float)
    (pixels : list Work) : list Work :=
  let pixels :=
    if x + 1 <? w then addError 7 e (Z.to_nat (y * w + x + 1)) pixels else pixels in
  let pixels :=
    if (y + 1 <? h) && (0 <=? x - 1)
    then addError 3 e (Z.to_nat ((y + 1) * w + x - 1)) pixels else pixels in
  let pixels :=
    if y + 1 <? h then addError 5 e (Z.to_nat ((y + 1) * w + x)) pixels else pixels in
  if (y + 1 <? h) && (x + 1 <? w)
  then addError 1 e (Z.to_nat ((y + 1) * w + x + 1)) pixels else pixels.

(** The body of the two nested loops at [(x, y)], on [(pixels, result.data)]. *)
Definition ditherStep (palette : list RGBA) (w h : Z)
    (st : option (list Work * list RGBA)) (xy : Z * Z)
    : option (list Work * list RGBA) :=
  match st with
  | None => None
  | Some (pixels, result) =>
      let '(x, y) := xy in
      let idx := Z.to_nat (y * w + x) in
      match pixels !! idx with
      | None => None
      | Some oldPixel =>
          let '(r, g, b, a) := oldPixel in
          if a =? 0 then Some (pixels, <[idx := (0, 0, 0, 0)]> result)
          else
            match ditherNearest oldPixel palette with
            | None => None
            | Some newPixel =>
                Some (diffuse w h x y (ditherError oldPixel newPixel) pixels,
                      <[idx := storePixel (chanR newPixel) (chanG newPixel)
                                 (chanB newPixel) a]> result)
            end
      end
  end.

(** Row-major scan order. *)
Definition scanOrder (w h : Z) : list (Z * Z) :=
  y ← seqZ 0 h; x ← seqZ 0 w; [(x, y)].

Definition ditherRun (img : ImageData) (palette : list RGBA) (order : list (Z * Z))
    : option (list Work * list RGBA) :=
  foldl (ditherStep palette (width img) (height img))
        (Some (map toWork (pixelsOf img),
               replicate (Z.to_nat (width img * height img)) (0, 0, 0, 0)))
        order.

Definition applyFloydSteinberg (img : ImageData) (palette : list RGBA)
    : option ImageData :=
  match ditherRun img palette (scanOrder (width img) (height img)) with
  | Some (_, result) => Some (mkImageData (width img) (height img) result)
  | None => None
  end.

Definition reduceImagePalette (pick : nat) (img : ImageData) (colorCount : Z)
    (algorithm : Algorithm) (dithering : bool) : option ImageData :=
  match extractPalette pick img colorCount algorithm with
  | None => None
  | Some [] => Some img
  | Some palette =>
      if dithering then applyFloydSteinberg img palette
      else remapColors img palette
  end.

(** ** Vocabulary of the properties *)

(** Two distinct pixels that touch by an edge or a corner. *)
Definition adjacent8 (p q : Z * Z) : Prop :=
  p <> q /\ Z.abs (q.1 - p.1) <= 1 /\ Z.abs (q.2 - p.2) <= 1.

(** Every step of the path [p :: l] is between 8-adjacent pixels. *)
Fixpoint chain8 (p : Z * Z) (l : list (Z * Z)) : Prop :=
  match l with
  | [] => True
  | q :: l' => adjacent8 p q /\ chain8 q l'
  end.

(** The same paint [f] applied at each pixel of a list, in order. *)
Definition paintAll (f : RGBA -> RGBA) (cv : ImageData) (l : list (Z * Z)) : ImageData :=
  foldl (fun cv p => paintPixel f p.1 p.2 cv) cv l.

(** *** Flood fill bookkeeping *)

(** The pixels that still have the target colour. *)
Definition pending (target : RGBA) (dat : list RGBA) : nat :=
  length (filter (fun p => p = target) dat).

Definition inside (w h : Z) (p : Z * Z) : Prop := 0 <= p.1 < w /\ 0 <= p.2 < h.

Definition filled (w : Z) (fill : RGBA) (dat : list RGBA) (p : Z * Z) : Prop :=
  dat !! pixelIndex w p.1 p.2 = Some fill.

(** The four pixels pushed after [p] is recoloured. *)
Definition neighbours (p : Z * Z) : list (Z * Z) :=
  [(p.1, p.2 - 1); (p.1, p.2 + 1); (p.1 - 1, p.2); (p.1 + 1, p.2)].

(** The loop invariant on a buffer that held only the target colour: every
    pixel is still target or already filled; visited pixels are filled; a
    filled pixel's neighbours are filled or waiting on the stack; so is
    the seed. *)
Record fillInv (w h : Z) (target fill : RGBA) (startX startY : Z)
    (dat : list RGBA) (stack : list (Z * Z)) (visited : gset (Z * Z)) : Prop := {
  inv_length : length dat = Z.to_nat (w * h);
  inv_two : forall i p, dat !! i = Some p -> p = target \/ p = fill;
  inv_visited : forall p, p ∈ visited -> inside w h p /\ filled w fill dat p;
  inv_front : forall p q, inside w h p -> filled w fill dat p -> q ∈ neighbours p ->
                          inside w h q -> filled w fill dat q \/ q ∈ stack;
  inv_seed : filled w fill dat (startX, startY) \/ (startX, startY) ∈ stack
}.

(** *** Palette vocabulary *)

(** The distinct elements of a list, each at the place of its first
    occurrence. *)
Fixpoint distinctFirstSeen (l : list RGBA) : list RGBA :=
  match l with
  | [] => []
  | c :: l' => c :: filter (fun c' => c' <> c) (distinctFirstSeen l')
  end.

(** How many entries of [l] are the colour [c]. *)
Definition occurrences (c : RGBA) (l : list RGBA) : Z :=
  Z.of_nat (length (filter (fun c' => c' = c) l)).

(** The frequency map as a function of the list of opaque pixels. *)
Definition tally (l : list RGBA) : list (RGBA * Z) :=
  map (fun c => (c, occurrences c l)) (distinctFirstSeen l).

(** A positive best range points at a box that holds two colours or more. *)
Definition splittable (boxes : list (list RGBA)) (best : Z * nat * nat) : Prop :=
  0 < best.1.1 ->
  exists box, boxes !! best.1.2 = Some box /\ (2 <= length box)%nat.

(** * Further code of the editor *)

(** ** rgbaToHex and pickColor *)

(** The digit [d.toString(16)] for [0 <= d < 16]. *)
Definition hexChar (d : Z) : ascii :=
  if d <? 10 then ascii_of_nat (Z.to_nat (48 + d))
  else ascii_of_nat (Z.to_nat (87 + d)).

(** The digits of [n.toString(16)] for [n >= 0], most significant first. *)
Fixpoint hexDigitsOf (fuel : nat) (n : Z) (acc : string) : string :=
  match fuel with
  | O => acc
  | S fuel' =>
      if n <? 16 then String (hexChar n) acc
      else hexDigitsOf fuel' (n / 16) (String (hexChar (n mod 16)) acc)
  end.

(** [x.toString(16)] on an integer. *)
Definition toString16 (x : Z) : string :=
  if x <? 0
  then String "-"%char (hexDigitsOf (S (Z.to_nat (Z.log2 (- x)))) (- x) EmptyString)
  else hexDigitsOf (S (Z.to_nat (Z.log2 x))) x EmptyString.

(** [s.padStart(2, '0')]. *)
Definition padStart2 (s : string) : string :=
  match s with
  | EmptyString => "00"%string
  | String c EmptyString => String "0"%char (String c EmptyString)
  | _ => s
  end.

Definition rgbaToHex (r g b : Z) : string :=
  String "#"%char
    (padStart2 (toString16 r) ++ padStart2 (toString16 g) ++ padStart2 (toString16 b))%string.


(** ** drawPixel, drawLine and drawRectangleOutline *)

Inductive Tool : Type :=
  | pencil | eraser | fillTool | eyedropper | resizeTool
  | lineTool | rectangleTool | ellipseTool | selectionTool.

Definition isEraserTool (tool : Tool) : bool :=
  match tool with eraser => true | _ => false end.

Definition drawPixel (tool : Tool) (b : Brush) (x y : Z) (cv : ImageData) : ImageData :=
  if negb (isPixelInBounds (width cv) (height cv) x y) then cv
  else
    match tool with
    | pencil => drawBrush b x y false cv
    | eraser => drawBrush b x y true cv
    | _ => cv
    end.

Definition drawLine (tool : Tool) (b : Brush) (x0 y0 x1 y1 : Z) (cv : ImageData)
    : option ImageData :=
  drawLineOnContext b x0 y0 x1 y1 (isEraserTool tool) cv.

(** The four edges, in the order the code draws them: top, bottom, left,
    right. *)
Definition runRectangle {St : Type} (visit : Z -> Z -> St -> St)
    (x0 y0 x1 y1 : Z) (s : St) : option St :=
  let minX := Z.min x0 x1 in
  let maxX := Z.max x0 x1 in
  let minY := Z.min y0 y1 in
  let maxY := Z.max y0 y1 in
  s ← runLine visit minX minY maxX minY s;
  s ← runLine visit minX maxY maxX maxY s;
  s ← runLine visit minX minY minX maxY s;
  runLine visit maxX minY maxX maxY s.

(** The centers at which the outline stamps the brush, in call order. *)
Definition rectanglePoints (x0 y0 x1 y1 : Z) : option (list (Z * Z)) :=
  runRectangle tracePoint x0 y0 x1 y1 [].


(** The ink a stamp leaves where painting twice is painting once: transparent
    black for the eraser, the brush colour at full opacity. *)
Definition stampInk (b : Brush) (isEraser : bool) : RGBA :=
  if isEraser then (0, 0, 0, 0) else brushStyle b.

(** The pixel [(x, y)] lies under the brush footprint of some center. *)
Definition underStroke (size : Z) (centers : list (Z * Z)) (x y : Z) : Prop :=
  exists c, c ∈ centers /\ (x - c.1, y - c.2) ∈ brushOffsets size.

(** ** Flood fill region *)

(** The pixels of the seed's colour that a walk over edge neighbours of that
    colour reaches from the seed. *)
Inductive fillRegion (cv : ImageData) (target : RGBA) (startX startY : Z)
    : Z * Z -> Prop :=
  | region_seed :
      fillRegion cv target startX startY (startX, startY)
  | region_step p q :
      fillRegion cv target startX startY p ->
      q ∈ neighbours p ->
      inside (width cv) (height cv) q ->
      getPixel cv q.1 q.2 = Some target ->
      fillRegion cv target startX startY q.

(** The loop invariant of the fill on any buffer [cv]. *)
Record regionInv (cv : ImageData) (target fill : RGBA) (startX startY : Z)
    (dat : list RGBA) (stack : list (Z * Z)) (visited : gset (Z * Z)) : Prop := {
  rinv_length : length dat = length (data cv);
  rinv_visited : forall p, p ∈ visited ->
      inside (width cv) (height cv) p /\
      fillRegion cv target startX startY p /\
      filled (width cv) fill dat p;
  rinv_rest : forall p, inside (width cv) (height cv) p -> p ∉ visited ->
      dat !! pixelIndex (width cv) p.1 p.2 = getPixel cv p.1 p.2;
  rinv_front : forall p q, p ∈ visited -> q ∈ neighbours p ->
      inside (width cv) (height cv) q -> getPixel cv q.1 q.2 = Some target ->
      q ∈ visited \/ q ∈ stack;
  rinv_seed : (startX, startY) ∈ visited \/ (startX, startY) ∈ stack;
  rinv_stack : forall q, q ∈ stack ->
      q = (startX, startY) \/ exists p, p ∈ visited /\ q ∈ neighbours p
}.

(** What one stamp does to a pixel it covers: [clearRect] for the eraser,
    the composited [fillRect] otherwise. *)
Definition stampPaint (b : Brush) (isEraser : bool) : RGBA -> RGBA :=
  if isEraser then fun _ => (0, 0, 0, 0) else sourceOver (brushStyle b).

(** ** Brush shapes *)

(** The offsets of one axis: [-half .. size - 1 - half]. *)
Definition inRun (size d : Z) : Prop := - (size / 2) <= d <= size - 1 - size / 2.

(** The offsets a shape consists of. *)
Definition inShape (size : Z) (shape : BrushShape) (dx dy : Z) : Prop :=
  match shape with
  | square => inRun size dx /\ inRun size dy
  | circle => inRun size dx /\ inRun size dy /\ inCircle size dx dy = true
  | diamond => inRun size dx /\ inRun size dy /\ Z.abs dx + Z.abs dy <= size / 2
  | horizontal => inRun size dx /\ dy = 0
  | vertical => dx = 0 /\ inRun size dy
  | slash => inRun size dx /\ dy = - dx
  | backslash => inRun size dx /\ dy = dx
  end.

(** ** App: flipping, rotating and resizing the image *)

(** [new ImageData(w, h)]: transparent black.  A dimension of zero is
    refused with an [IndexSizeError], which is [None]. *)
Definition newImageData (w h : Z) : option ImageData :=
  if (0 <? w) && (0 <? h)
  then Some (mkImageData w h (replicate (Z.to_nat (w * h)) (0, 0, 0, 0)))
  else None.

(** [dst.data[dstIdx + c] = src.data[srcIdx + c]] for the four channels
    [c]; the indices are those of the code divided by 4.  A typed array
    reads [undefined] outside its range, which is stored as 0, and drops a
    write outside its range. *)
Definition copyPixel (src : ImageData) (srcIdx dstIdx : Z) (dst : ImageData) : ImageData :=
  let px :=
    default (0, 0, 0, 0)
            (if 0 <=? srcIdx then data src !! Z.to_nat srcIdx else None) in
  if 0 <=? dstIdx
  then mkImageData (width dst) (height dst) (<[Z.to_nat dstIdx := px]> (data dst))
  else dst.

Definition handleFlipHorizontal (imageData : ImageData) : option ImageData :=
  newData ← newImageData (width imageData) (height imageData);
  Some (foldl (fun newData '(x, y) =>
                 let srcIdx := y * width imageData + x in
                 let dstIdx := y * width imageData + (width imageData - 1 - x) in
                 copyPixel imageData srcIdx dstIdx newData)
              newData (scanOrder (width imageData) (height imageData))).

Definition handleFlipVertical (imageData : ImageData) : option ImageData :=
  newData ← newImageData (width imageData) (height imageData);
  Some (foldl (fun newData '(x, y) =>
                 let srcIdx := y * width imageData + x in
                 let dstIdx := (height imageData - 1 - y) * width imageData + x in
                 copyPixel imageData srcIdx dstIdx newData)
              newData (scanOrder (width imageData) (height imageData))).

Definition handleRotateCW (imageData : ImageData) : option ImageData :=
  newData ← newImageData (height imageData) (width imageData);
  Some (foldl (fun acc '(x, y) =>
                 let srcIdx := y * width imageData + x in
                 let newX := height imageData - 1 - y in
                 let newY := x in
                 let dstIdx := newY * width newData + newX in
                 copyPixel imageData srcIdx dstIdx acc)
              newData (scanOrder (width imageData) (height imageData))).

Definition handleRotateCCW (imageData : ImageData) : option ImageData :=
  newData ← newImageData (height imageData) (width imageData);
  Some (foldl (fun acc '(x, y) =>
                 let srcIdx := y * width imageData + x in
                 let newX := y in
                 let newY := width imageData - 1 - x in
                 let dstIdx := newY * width newData + newX in
                 copyPixel imageData srcIdx dstIdx acc)
              newData (scanOrder (width imageData) (height imageData))).

Inductive ResizeAnchor : Type :=
  | top_left | top_center | top_right
  | middle_left | middle_center | middle_right
  | bottom_left | bottom_center | bottom_right.

(** [anchor.endsWith('-center') || anchor === 'middle-center'] *)
Definition anchorCenter (anchor : ResizeAnchor) : bool :=
  match anchor with
  | top_center | middle_center | bottom_center => true
  | _ => false
  end.

(** [anchor.endsWith('-right')] *)
Definition anchorRight (anchor : ResizeAnchor) : bool :=
  match anchor with
  | top_right | middle_right | bottom_right => true
  | _ => false
  end.

(** [anchor.startsWith('middle-')] *)
Definition anchorMiddle (anchor : ResizeAnchor) : bool :=
  match anchor with
  | middle_left | middle_center | middle_right => true
  | _ => false
  end.

(** [anchor.startsWith('bottom-')] *)
Definition anchorBottom (anchor : ResizeAnchor) : bool :=
  match anchor with
  | bottom_left | bottom_center | bottom_right => true
  | _ => false
  end.

(** The offset of the old image in the new one along one axis;
    [Math.floor(d / 2)] is the floor division of [Z]. *)
Definition resizeOffsetX (anchor : ResizeAnchor) (newWidth oldWidth : Z) : Z :=
  if anchorCenter anchor then (newWidth - oldWidth) / 2
  else if anchorRight anchor then newWidth - oldWidth
  else 0.

Definition resizeOffsetY (anchor : ResizeAnchor) (newHeight oldHeight : Z) : Z :=
  if anchorMiddle anchor then (newHeight - oldHeight) / 2
  else if anchorBottom anchor then newHeight - oldHeight
  else 0.

Definition handleResize (imageData : ImageData) (newWidth newHeight : Z)
    (anchor : ResizeAnchor) : option ImageData :=
  newImageData0 ← newImageData newWidth newHeight;
  let offsetX := resizeOffsetX anchor newWidth (width imageData) in
  let offsetY := resizeOffsetY anchor newHeight (height imageData) in
  Some (foldl (fun acc '(x, y) =>
                 let newX := x + offsetX in
                 let newY := y + offsetY in
                 if (0 <=? newX) && (newX <? newWidth) && (0 <=? newY) && (newY <? newHeight)
                 then
                   let oldIndex := y * width imageData + x in
                   let newIndex := newY * newWidth + newX in
                   copyPixel imageData oldIndex newIndex acc
                 else acc)
              newImageData0 (scanOrder (width imageData) (height imageData))).

(** The pixel of an image at a position, transparent black outside it. *)
Definition pixelAt (img : ImageData) (x y : Z) : RGBA :=
  if isPixelInBounds (width img) (height img) x y
  then default (0, 0, 0, 0) (getPixel img x y)
  else (0, 0, 0, 0).

(** ** App: the undo history

    The state of [App] that the history handlers read and write.  Every
    handler runs on the state the previous one left (React renders between
    the mouse and keyboard events that call them).  [cloneImageData] copies
    an image, which is the identity on values. *)

Record AppState : Type := mkAppState {
  imageData : option ImageData;
  history : list ImageData;
  historyIndex : Z;
  isUndoRedoRef : bool
}.

Definition MAX_HISTORY : Z := 50.

Definition initialState : AppState := mkAppState None [] (-1) false.

Definition pushToHistory (dat : ImageData) (st : AppState) : AppState :=
  if isUndoRedoRef st
  then mkAppState (imageData st) (history st) (historyIndex st) false
  else
    let newHistory := sliceTo (historyIndex st + 1) (history st) ++ [dat] in
    let newHistory :=
      if MAX_HISTORY <? Z.of_nat (length newHistory) then tail newHistory
      else newHistory in
    mkAppState (imageData st) newHistory
               (Z.min (historyIndex st + 1) (MAX_HISTORY - 1)) false.

Definition handlePixelChange (newImageData : ImageData) (st : AppState) : AppState :=
  pushToHistory newImageData
    (mkAppState (Some newImageData) (history st) (historyIndex st) (isUndoRedoRef st)).

(** [history[i]]; [None] is the [TypeError] of cloning [undefined]. *)
Definition historyAt (st : AppState) (i : Z) : option ImageData :=
  if 0 <=? i then history st !! Z.to_nat i else None.

Definition handleUndo (st : AppState) : option AppState :=
  if 0 <? historyIndex st then
    prevData ← historyAt st (historyIndex st - 1);
    Some (mkAppState (Some prevData) (history st) (historyIndex st - 1) true)
  else Some st.

Definition handleRedo (st : AppState) : option AppState :=
  if historyIndex st <? Z.of_nat (length (history st)) - 1 then
    nextData ← historyAt st (historyIndex st + 1);
    Some (mkAppState (Some nextData) (history st) (historyIndex st + 1) true)
  else Some st.

(** The handler of the ['init'] message, once the image has loaded: it
    shows the decoded image and touches neither the history nor the index
    nor the pending flag. *)
Definition handleInit (dat : ImageData) (st : AppState) : AppState :=
  mkAppState (Some dat) (history st) (historyIndex st) (isUndoRedoRef st).

(** What happens to the editor: the extension delivers the image, the user
    finishes an edit, presses undo, presses redo. *)
Inductive Action : Type :=
  | Init (dat : ImageData)
  | Edit (newImageData : ImageData)
  | Undo
  | Redo.

Definition act (st : option AppState) (a : Action) : option AppState :=
  match st with
  | None => None
  | Some st =>
      match a with
      | Init dat => Some (handleInit dat st)
      | Edit newImageData => Some (handlePixelChange newImageData st)
      | Undo => handleUndo st
      | Redo => handleRedo st
      end
  end.

Definition runActions (actions : list Action) : option AppState :=
  foldl act (Some initialState) actions.

(** The payloads of the edits of a session. *)
Definition edits (actions : list Action) : list ImageData :=
  omap (fun a => match a with Edit d => Some d | _ => None end) actions.

(** The images the extension delivered during a session. *)
Definition loads (actions : list Action) : list ImageData :=
  omap (fun a => match a with Init d => Some d | _ => None end) actions.

(** The index is that of an entry, or -1 while the history is empty. *)
Definition historyInv (st : AppState) : Prop :=
  Z.of_nat (length (history st)) <= MAX_HISTORY /\
  -1 <= historyIndex st < Z.of_nat (length (history st)) /\
  (history st = [] \/ 0 <= historyIndex st).

(** ** ColorPicker: recent colours and the custom palette *)

(** The updater of [handleColorSelect]. *)
Definition handleColorSelect (newColor : string) (prev : list string) : list string :=
  sliceTo 8 (newColor :: filter (fun c => c <> newColor) prev).

Definition handleAddToCustomPalette (color : string) (customPalette : list string)
    : list string :=
  if decide (color ∈ customPalette) then customPalette else customPalette ++ [color].

Definition handleRemoveFromCustomPalette (colorToRemove : string) (prev : list string)
    : list string :=
  filter (fun c => c <> colorToRemove) prev.

(** ** Vocabulary of the dithering properties *)

(** The colour channels of [c] are those of a palette entry. *)
Definition inPalette (palette : list RGBA) (c : RGBA) : Prop :=
  exists p, p ∈ palette /\ chanR p = chanR c /\ chanG p = chanG c /\ chanB p = chanB c.

(** A transparent pixel as remapping and dithering write it. *)
Definition dropTransparent (c : RGBA) : RGBA :=
  if chanA c =? 0 then (0, 0, 0, 0) else c.

(** The error of a pixel that is matched to its own colour: [+0] thrice. *)
Definition noError : spec_float * spec_float * spec_float :=
  (S754_zero false, S754_zero false, S754_zero false).

(** ** drawEllipseOutline (midpoint ellipse)

    The radii and the decision variables are halves and sixteenths of
    integers; they are exact rationals here, as they are exact doubles for
    every canvas the editor can hold. *)

(** [a < b] on numbers. *)
Definition Qltb (a b : Q) : bool := negb (Qle_bool b a).

Section EllipseLoop.
Context {St : Type} (visit : Z -> Z -> St -> St).
Variables (cx cy : Z) (rx ry : Q).

Definition plotEllipsePoints (x y : Z) (s : St) : St :=
  let s := visit (cx + x) (cy + y) s in
  let s := visit (cx - x) (cy + y) s in
  let s := visit (cx + x) (cy - y) s in
  visit (cx - x) (cy - y) s.

(** Region 1: [while (px < py)], one test of the condition per unit of
    fuel; the result is the state of [x], [y], [px], [py] at the exit. *)
Fixpoint ellipseRegion1 (fuel : nat) (x : Z) (y px py p1 : Q) (s : St)
    : option (Z * Q * Q * Q * St) :=
  match fuel with
  | O => None
  | S fuel' =>
      if Qltb px py then
        let x := x + 1 in
        let px := (px + 2 * ry * ry)%Q in
        let '(y, py, p1) :=
          if Qltb p1 0 then (y, py, (p1 + ry * ry + px)%Q)
          else
            let y := (y - 1)%Q in
            let py := (py - 2 * rx * rx)%Q in
            (y, py, (p1 + ry * ry + px - py)%Q) in
        ellipseRegion1 fuel' x y px py p1 (plotEllipsePoints x (mathRound y) s)
      else Some (x, y, px, py, s)
  end.

(** Region 2: [while (y > 0)]. *)
Fixpoint ellipseRegion2 (fuel : nat) (x : Z) (y px py p2 : Q) (s : St)
    : option St :=
  match fuel with
  | O => None
  | S fuel' =>
      if Qltb 0 y then
        let y := (y - 1)%Q in
        let py := (py - 2 * rx * rx)%Q in
        let '(x, px, p2) :=
          if Qltb 0 p2 then (x, px, (p2 + rx * rx - py)%Q)
          else
            let x := x + 1 in
            let px := (px + 2 * ry * ry)%Q in
            (x, px, (p2 + rx * rx - py + px)%Q) in
        ellipseRegion2 fuel' x y px py p2 (plotEllipsePoints x (mathRound y) s)
      else Some s
  end.
End EllipseLoop.

Definition runEllipse {St : Type} (visit : Z -> Z -> St -> St)
    (x0 y0 x1 y1 : Z) (s : St) : option St :=
  let cx := (x0 + x1) / 2 in
  let cy := (y0 + y1) / 2 in
  let rx := (inject_Z (Z.abs (x1 - x0)) / 2)%Q in
  let ry := (inject_Z (Z.abs (y1 - y0)) / 2)%Q in
  if Qltb rx 1 || Qltb ry 1 then Some (visit cx cy s)
  else
    let s := plotEllipsePoints visit cx cy 0 (mathRound ry) s in
    let p1 := (ry * ry - rx * rx * ry + (1 # 4) * rx * rx)%Q in
    match ellipseRegion1 visit cx cy rx ry
            (S (Z.to_nat (Z.abs (x1 - x0) * Z.abs (x1 - x0))))
            0 ry 0 (2 * rx * rx * ry)%Q p1 s with
    | None => None
    | Some (x, y, px, py, s) =>
        let p2 := (ry * ry * (inject_Z x + (1 # 2)) * (inject_Z x + (1 # 2))
                   + rx * rx * (y - 1) * (y - 1) - rx * rx * ry * ry)%Q in
        ellipseRegion2 visit cx cy rx ry (S (Z.to_nat (Z.abs (y1 - y0))))
                       x y px py p2 s
    end.

(** The centers at which the outline stamps the brush, in call order. *)
Definition ellipsePoints (x0 y0 x1 y1 : Z) : option (list (Z * Z)) :=
  runEllipse tracePoint x0 y0 x1 y1 [].

Definition drawEllipseOutline (b : Brush) (x0 y0 x1 y1 : Z) (ctx : ImageData)
    : option ImageData :=
  runEllipse (fun x y cv => drawBrush b x y false cv) x0 y0 x1 y1 ctx.

(** The four stamps of one call of [plotEllipsePoints]. *)
Definition ellipseQuad (cx cy : Z) (xy : Z * Z) : list (Z * Z) :=
  [(cx + xy.1, cy + xy.2); (cx - xy.1, cy + xy.2);
   (cx + xy.1, cy - xy.2); (cx - xy.1, cy - xy.2)].

(** * Properties of the rasterizer *)

(** ** Brush footprint *)

Lemma elem_of_brushOffsets size dx dy :
  (dx, dy) ∈ brushOffsets size <->
  - (size / 2) <= dx <= size - 1 - size / 2 /\
  - (size / 2) <= dy <= size - 1 - size / 2.
Proof.
  unfold brushOffsets. rewrite list_elem_of_bind. split.
  - intros (y & Hin & Hy). apply list_elem_of_bind in Hin as (x & Hin & Hx).
    apply list_elem_of_singleton in Hin. injection Hin as -> ->.
    apply elem_of_seqZ in Hx. apply elem_of_seqZ in Hy. lia.
  - intros [Hdx Hdy]. exists dy. split; [|apply elem_of_seqZ; lia].
    apply list_elem_of_bind. exists dx. split; [left|apply elem_of_seqZ; lia].
Qed.

Lemma NoDup_brushOffsets size : NoDup (brushOffsets size).
Proof.
  unfold brushOffsets. apply NoDup_bind; [| |apply NoDup_seqZ].
  - intros y1 y2 p _ _ H1 H2.
    apply list_elem_of_bind in H1 as (a & H1 & _), H2 as (b & H2 & _).
    apply list_elem_of_singleton in H1, H2. congruence.
  - intros y _. apply NoDup_bind; [| |apply NoDup_seqZ].
    + intros a b p _ _ H1 H2. apply list_elem_of_singleton in H1, H2. congruence.
    + intros a _. apply NoDup_singleton.
Qed.

Lemma length_brushOffsets size :
  length (brushOffsets size) = (Z.to_nat size * Z.to_nat size)%nat.
Proof.
  assert (Hinner : forall l l2 : list Z,
    length (dy ← l; dx ← l2; [(dx, dy)]) = (length l * length l2)%nat).
  { intros l l2. induction l as [|y l IH]; [done|].
    rewrite bind_cons, length_app, IH. simpl. f_equal.
    clear. induction l2 as [|x l2 IH]; [done|].
    rewrite bind_cons. simpl. by rewrite IH. }
  unfold brushOffsets. cbv zeta. by rewrite Hinner, length_seqZ.
Qed.

(** C9, as the code has it: with [half = floor(size / 2)] the offsets of both
    axes run from [-half] to [size - 1 - half] inclusive (the loops stop at
    [size - half], exclusive); the square footprint is every offset of that
    box, it has [size * size] offsets and is never empty. *)
Theorem brush_footprint_range (size : Z) :
  1 <= size <= 32 ->
  let half := size / 2 in
  (forall dx dy,
      (dx, dy) ∈ brushOffsets size <->
      - half <= dx <= size - 1 - half /\ - half <= dy <= size - 1 - half) /\
  getBrushPixels size square = brushOffsets size /\
  Z.of_nat (length (brushOffsets size)) = size * size /\
  brushOffsets size <> [].
Proof.
  intros Hsize half. split; [intros dx dy; apply elem_of_brushOffsets|].
  split; [reflexivity|].
  assert (Hlen : Z.of_nat (length (brushOffsets size)) = size * size).
  { rewrite length_brushOffsets. nia. }
  split; [exact Hlen|].
  intros Hnil. rewrite Hnil in Hlen. simpl in Hlen. nia.
Qed.

Lemma brush_footprint_range_witness :
  (0, 0) ∈ brushOffsets 1 /\ brushOffsets 1 <> [].
Proof.
  pose proof (brush_footprint_range 1 ltac:(lia)) as H. cbv zeta in H.
  destruct H as (Hiff & _ & _ & Hne).
  split; [apply Hiff; change (1 / 2) with 0; lia|exact Hne].
Defined.

(** The half-open range [[-half, size - 1 - half)] of the specification loses
    the last offset of each axis: at size 1 it is empty, while the footprint
    is the single offset [(0, 0)].  (Of the toolbar's other shapes the circle
    is empty at size 1: its only candidate [(0, 0)] lies [sqrt 0.5] from the
    centre, beyond the radius [0.5].) *)
Lemma brush_footprint_half_open_fails :
  brushOffsets 1 = [(0, 0)] /\
  getBrushPixels 1 circle = [] /\
  ~ (forall size dx dy,
        1 <= size <= 32 ->
        ((dx, dy) ∈ brushOffsets size <->
         - (size / 2) <= dx < size - 1 - size / 2 /\
         - (size / 2) <= dy < size - 1 - size / 2)).
Proof.
  split; [reflexivity|]. split; [reflexivity|].
  intros H. destruct (H 1 0 0 ltac:(lia)) as [Hin _].
  assert (Hmem : (0, 0) ∈ brushOffsets 1) by (vm_compute; left).
  specialize (Hin Hmem). change (1 / 2) with 0 in Hin. lia.
Qed.

Example brushOffsets_3 :
  brushOffsets 3 = [(-1, -1); (0, -1); (1, -1); (-1, 0); (0, 0); (1, 0);
                    (-1, 1); (0, 1); (1, 1)].
Proof. reflexivity. Qed.

Example brushOffsets_2 : brushOffsets 2 = [(-1, -1); (0, -1); (-1, 0); (0, 0)].
Proof. reflexivity. Qed.

Example hexToRgba_upper_lower : hexToRgba "#ff00A0" 255 = (255, 0, 160, 255).
Proof. reflexivity. Qed.

Example hexToRgba_no_hash : hexToRgba "1a2B3c" 7 = (26, 43, 60, 7).
Proof. reflexivity. Qed.

Example hexToRgba_malformed : hexToRgba "#ff00A" 255 = (0, 0, 0, 255).
Proof. reflexivity. Qed.

(** ** Painting pixels *)

Lemma paintPixel_width f px py cv : width (paintPixel f px py cv) = width cv.
Proof. unfold paintPixel. by destruct isPixelInBounds. Qed.

Lemma paintPixel_height f px py cv : height (paintPixel f px py cv) = height cv.
Proof. unfold paintPixel. by destruct isPixelInBounds. Qed.

Lemma isPixelInBounds_true w h x y :
  isPixelInBounds w h x y = true <-> 0 <= x < w /\ 0 <= y < h.
Proof.
  unfold isPixelInBounds. rewrite !andb_true_iff.
  rewrite !Z.leb_le, !Z.ltb_lt. lia.
Qed.

Lemma pixelIndex_inj w x y x' y' :
  0 <= x < w -> 0 <= y -> 0 <= x' < w -> 0 <= y' ->
  pixelIndex w x y = pixelIndex w x' y' -> (x, y) = (x', y').
Proof.
  unfold pixelIndex. intros Hx Hy Hx' Hy' H.
  apply Z2Nat.inj in H; [|nia|nia].
  assert (y = y') by nia. subst. f_equal. lia.
Qed.

Lemma paintAll_width f l cv : width (paintAll f cv l) = width cv.
Proof.
  revert cv. induction l as [|p l IH]; intros cv; [done|].
  simpl. unfold paintAll in *. simpl. by rewrite IH, paintPixel_width.
Qed.

Lemma paintAll_height f l cv : height (paintAll f cv l) = height cv.
Proof.
  revert cv. induction l as [|p l IH]; intros cv; [done|].
  unfold paintAll in *. simpl. by rewrite IH, paintPixel_height.
Qed.

Lemma paintPixel_lookup f px py cv x y :
  isPixelInBounds (width cv) (height cv) px py = true ->
  isPixelInBounds (width cv) (height cv) x y = true ->
  getPixel (paintPixel f px py cv) x y =
  if decide ((x, y) = (px, py)) then f <$> getPixel cv x y else getPixel cv x y.
Proof.
  intros Hp Hxy. unfold getPixel. rewrite paintPixel_width.
  unfold paintPixel. rewrite Hp. simpl.
  apply isPixelInBounds_true in Hp, Hxy.
  destruct (decide ((x, y) = (px, py))) as [[= -> ->]|Hne].
  - apply list_lookup_alter_eq.
  - apply list_lookup_alter_ne. intros Heq. apply Hne. symmetry.
    eapply pixelIndex_inj; [..|exact Heq]; lia.
Qed.

Lemma paintAll_lookup f l cv x y :
  NoDup l ->
  Forall (fun p => isPixelInBounds (width cv) (height cv) p.1 p.2 = true) l ->
  isPixelInBounds (width cv) (height cv) x y = true ->
  getPixel (paintAll f cv l) x y =
  if decide ((x, y) ∈ l) then f <$> getPixel cv x y else getPixel cv x y.
Proof.
  revert cv. induction l as [|[px py] l IH]; intros cv Hnd Hall Hxy.
  - unfold paintAll. simpl. destruct (decide ((x, y) ∈ [])) as [H|]; [by apply elem_of_nil in H|done].
  - apply NoDup_cons in Hnd as [Hnotin Hnd].
    apply Forall_cons in Hall as [Hp Hall]. simpl in Hp.
    unfold paintAll in *. simpl.
    rewrite IH; [|done|by rewrite paintPixel_width, paintPixel_height
                  |by rewrite paintPixel_width, paintPixel_height].
    rewrite paintPixel_lookup by done.
    destruct (decide ((x, y) = (px, py))) as [Heq|Hne].
    + rewrite decide_False by (by rewrite Heq).
      rewrite decide_True by (rewrite Heq; left). done.
    + destruct (decide ((x, y) ∈ l)) as [Hin|Hnin].
      * rewrite decide_True by (by right). done.
      * rewrite decide_False; [done|]. intros Hc.
        apply elem_of_cons in Hc as [?|?]; done.
Qed.

Lemma paintPixel_comm f p q cv :
  paintPixel f p.1 p.2 (paintPixel f q.1 q.2 cv) =
  paintPixel f q.1 q.2 (paintPixel f p.1 p.2 cv).
Proof.
  unfold paintPixel at 1 3. rewrite !paintPixel_width, !paintPixel_height.
  unfold paintPixel.
  destruct (isPixelInBounds _ _ p.1 p.2), (isPixelInBounds _ _ q.1 q.2); simpl; try done.
  f_equal.
  destruct (decide (pixelIndex (width cv) p.1 p.2 = pixelIndex (width cv) q.1 q.2)) as [->|Hne].
  - done.
  - by apply list_alter_alter_ne.
Qed.

Lemma paintPixel_idemp f p cv :
  (forall c, f (f c) = f c) ->
  paintPixel f p.1 p.2 (paintPixel f p.1 p.2 cv) = paintPixel f p.1 p.2 cv.
Proof.
  intros Hf. unfold paintPixel at 1. rewrite paintPixel_width, paintPixel_height.
  unfold paintPixel. destruct (isPixelInBounds _ _ p.1 p.2); simpl; [|done].
  f_equal. rewrite list_alter_alter_eq. apply list_alter_ext; [|done].
  intros c _. apply Hf.
Qed.

Lemma paintAll_comm f l p cv :
  paintPixel f p.1 p.2 (paintAll f cv l) = paintAll f (paintPixel f p.1 p.2 cv) l.
Proof.
  revert cv. induction l as [|q l IH]; intros cv; [done|].
  unfold paintAll in *. simpl. rewrite IH. f_equal. apply paintPixel_comm.
Qed.

Lemma paintAll_idemp f l cv :
  (forall c, f (f c) = f c) ->
  paintAll f (paintAll f cv l) l = paintAll f cv l.
Proof.
  intros Hf. revert cv. induction l as [|p l IH]; intros cv; [done|].
  change (paintAll f (paintPixel f p.1 p.2 (paintAll f (paintPixel f p.1 p.2 cv) l)) l
          = paintAll f (paintPixel f p.1 p.2 cv) l).
  rewrite paintAll_comm, paintPixel_idemp by done. apply IH.
Qed.

(** ** Brush stamping *)

Lemma drawBrush_paintAll b centerX centerY cv :
  drawBrush b centerX centerY false cv =
  paintAll (sourceOver (brushStyle b)) cv
    (brushPixels (width cv) (height cv) (brushSize b) centerX centerY).
Proof. reflexivity. Qed.

Lemma elem_of_brushPixels w h size centerX centerY x y :
  (x, y) ∈ brushPixels w h size centerX centerY <->
  isPixelInBounds w h x y = true /\ (x - centerX, y - centerY) ∈ brushOffsets size.
Proof.
  unfold brushPixels. rewrite list_elem_of_filter, list_elem_of_fmap. simpl.
  split.
  - intros (Hb & [dx dy] & [= -> ->] & Hin). split; [done|]. simpl.
    by replace (centerX + dx - centerX) with dx by lia;
       replace (centerY + dy - centerY) with dy by lia.
  - intros [Hb Hin]. split; [done|]. eexists; split; [|exact Hin].
    simpl. f_equal; lia.
Qed.

Lemma NoDup_brushPixels w h size centerX centerY :
  NoDup (brushPixels w h size centerX centerY).
Proof.
  unfold brushPixels. apply NoDup_filter, NoDup_fmap_2; [|apply NoDup_brushOffsets].
  intros [a b] [c d] [= H1 H2]. f_equal; lia.
Qed.

(** Reading a stored pixel and storing it again gives the stored pixel, so
    a canvas is known by what [getImageData] reads off it. *)
Lemma premultiply_unpremultiply r g b a :
  0 <= r <= a -> 0 <= g <= a -> 0 <= b <= a -> a <= 255 ->
  premultiply (unpremultiply (r, g, b, a)) = (r, g, b, a).
Proof.
  intros Hr Hg Hb Ha. unfold unpremultiply.
  destruct (Z.eqb_spec a 0) as [->|Hnz].
  { assert (r = 0) as -> by lia. assert (g = 0) as -> by lia.
    by assert (b = 0) as -> by lia. }
  assert (Hchan : forall p, 0 <= p <= a ->
            roundDiv (roundDiv (p * 255) a * a) 255 = p).
  { intros p Hp.
    assert (Hall : forallb (fun a' =>
              forallb (fun p' => roundDiv (roundDiv (p' * 255) a' * a') 255 =? p')
                      (seqZ 0 (a' + 1))) (seqZ 1 255) = true) by by vm_compute.
    rewrite forallb_forall in Hall.
    specialize (Hall a ltac:(apply list_elem_of_In, elem_of_seqZ; lia)).
    rewrite forallb_forall in Hall.
    specialize (Hall p ltac:(apply list_elem_of_In, elem_of_seqZ; lia)).
    by apply Z.eqb_eq in Hall. }
  unfold premultiply. by rewrite !Hchan.
Qed.

Lemma roundDiv_mul_255 r : roundDiv (r * 255) 255 = r.
Proof. unfold roundDiv. symmetry. apply Z.div_unique with (r := 255); lia. Qed.

Lemma sourceOver_opaque r g b dst : sourceOver (r, g, b, 255) dst = (r, g, b, 255).
Proof.
  destruct dst as [[[dr dg] db] da]. unfold sourceOver, premultiply, unpremultiply.
  rewrite !roundDiv_mul_255. replace (255 - 255) with 0 by lia.
  rewrite !Z.mul_0_r. change (roundDiv 0 255) with 0. rewrite !Z.add_0_r.
  change (255 =? 0) with false. cbn iota. by rewrite !roundDiv_mul_255.
Qed.

(** C1, as the code has it: a stamp paints every in-bounds pixel of the
    footprint once with [fillRect] in the style [rgba(r, g, b, alphaValue / 255)],
    which composites source-over with the colour already there on the
    canvas's premultiplied 8-bit store, and leaves every other pixel and the
    canvas size alone.  When [alphaValue] is 255 the composite is the brush
    colour itself, whatever was there, so the stamp overwrites and a repeated
    stamp equals a single one.  Below that the new value depends on the old
    one and a second stamp can change the pixel again: half opaque black
    over opaque white reads (127,127,127,255) after one stamp and
    (63,63,63,255) after two, and half opaque [#101010] reads
    (11,11,11,255) over opaque (7,7,7) but (13,13,13,192) over half opaque
    (9,9,9). *)
Theorem drawBrush_composites (b : Brush) (centerX centerY : Z) (cv : ImageData) :
  let stamped := drawBrush b centerX centerY false cv in
  (width stamped = width cv /\ height stamped = height cv /\
   (forall x y,
       isPixelInBounds (width cv) (height cv) x y = true ->
       getPixel stamped x y =
       if decide ((x - centerX, y - centerY) ∈ brushOffsets (brushSize b))
       then sourceOver (brushStyle b) <$> getPixel cv x y
       else getPixel cv x y) /\
   (alphaValue b = 255 ->
    (forall dst, sourceOver (brushStyle b) dst = brushStyle b) /\
    drawBrush b centerX centerY false stamped = stamped)) /\
  (let half := mkBrush 1 "#000000" (1 # 2) in
   let white := mkImageData 1 1 [(255, 255, 255, 255)] in
   alphaValue half = 128 /\
   drawBrush half 0 0 false white = mkImageData 1 1 [(127, 127, 127, 255)] /\
   drawBrush half 0 0 false (drawBrush half 0 0 false white)
   = mkImageData 1 1 [(63, 63, 63, 255)]) /\
  sourceOver (16, 16, 16, 128) (7, 7, 7, 255) = (11, 11, 11, 255) /\
  sourceOver (16, 16, 16, 128) (9, 9, 9, 128) = (13, 13, 13, 192).
Proof.
  intros stamped. split; [|by vm_compute].
  unfold stamped. rewrite drawBrush_paintAll.
  split; [apply paintAll_width|]. split; [apply paintAll_height|]. split.
  - intros x y Hxy. rewrite paintAll_lookup; [|apply NoDup_brushPixels| |done].
    + repeat case_decide; try done; exfalso.
      * match goal with H : _ ∈ brushPixels _ _ _ _ _ |- _ =>
          apply elem_of_brushPixels in H as [_ H] end. done.
      * match goal with H : ¬ _ ∈ brushPixels _ _ _ _ _ |- _ => apply H end.
        by apply elem_of_brushPixels.
    + apply Forall_forall. intros [px py] Hin.
      by apply elem_of_brushPixels in Hin as [Hin _].
  - intros Ha.
    assert (Hover : forall dst, sourceOver (brushStyle b) dst = brushStyle b).
    { intros dst. unfold brushStyle.
      destruct (hexToRgba (color b) (alphaValue b)) as [[[r g] b'] a].
      rewrite Ha. apply sourceOver_opaque. }
    split; [exact Hover|].
    rewrite drawBrush_paintAll, paintAll_width, paintAll_height.
    apply paintAll_idemp. intros c. by rewrite !Hover.
Qed.

Lemma drawBrush_composites_witness :
  let b := mkBrush 1 "#102030" 1 in
  let cv := mkImageData 2 1 [(255, 255, 255, 255); (255, 255, 255, 128)] in
  getPixel (drawBrush b 0 0 false cv) 0 0 = Some (16, 32, 48, 255) /\
  getPixel (drawBrush b 0 0 false cv) 1 0 = Some (255, 255, 255, 128) /\
  drawBrush b 0 0 false (drawBrush b 0 0 false cv) = drawBrush b 0 0 false cv.
Proof.
  intros b cv.
  destruct (drawBrush_composites b 0 0 cv) as ((_ & _ & Hpix & Hfull) & _).
  split; [rewrite (Hpix 0 0) by reflexivity; reflexivity|].
  split; [rewrite (Hpix 1 0) by reflexivity; reflexivity|].
  apply Hfull. reflexivity.
Defined.

(** Below full opacity a stamp does not overwrite and a repeated stamp
    differs from a single one: half opaque black over opaque white gives mid
    grey, a second stamp darkens it. *)
Lemma drawBrush_stamps_accumulate :
  let b := mkBrush 1 "#000000" (1 # 2) in
  let cv := mkImageData 1 1 [(255, 255, 255, 255)] in
  let once := drawBrush b 0 0 false cv in
  let twice := drawBrush b 0 0 false once in
  alphaValue b = 128 /\
  getPixel once 0 0 = Some (127, 127, 127, 255) /\
  getPixel twice 0 0 = Some (63, 63, 63, 255) /\
  getPixel once 0 0 <> Some (0, 0, 0, 128) /\
  twice <> once.
Proof. vm_compute. repeat split; congruence. Qed.

(** ** Line rasterization *)

Example linePoints_shallow :
  linePoints 0 0 5 2 = Some [(0, 0); (1, 0); (2, 1); (3, 1); (4, 2); (5, 2)].
Proof. reflexivity. Qed.

Example linePoints_steep_backwards :
  linePoints 3 3 0 (-4)
  = Some [(3, 3); (3, 2); (2, 1); (2, 0); (1, -1); (1, -2); (0, -3); (0, -4)].
Proof. reflexivity. Qed.

Section LineFacts.
Context {St : Type} (visit : Z -> Z -> St -> St).
Variables (x1 y1 dx dy sx sy : Z).

(** The trace only ever grows at its end. *)
Lemma lineLoop_trace_app fuel err cx cy acc :
  lineLoop tracePoint x1 y1 dx dy sx sy fuel err cx cy acc =
  app acc <$> lineLoop tracePoint x1 y1 dx dy sx sy fuel err cx cy [].
Proof.
  revert err cx cy acc. induction fuel as [|fuel IH]; intros err cx cy acc; [done|].
  simpl. destruct ((cx =? x1) && (cy =? y1)); [done|].
  destruct (- dy <? 2 * err), (2 * err <? dx);
    rewrite (IH _ _ _ (tracePoint cx cy acc)), (IH _ _ _ (tracePoint cx cy []));
    rewrite <- option_fmap_compose; apply option_fmap_ext; intros l; simpl;
    unfold tracePoint; by rewrite <- app_assoc.
Qed.

(** Any visitor sees exactly the traced points, in order. *)
Lemma lineLoop_fold fuel err cx cy s :
  lineLoop visit x1 y1 dx dy sx sy fuel err cx cy s =
  (fun pts => foldl (fun s p => visit p.1 p.2 s) s pts)
    <$> lineLoop tracePoint x1 y1 dx dy sx sy fuel err cx cy [].
Proof.
  revert err cx cy s. induction fuel as [|fuel IH]; intros err cx cy s; [done|].
  simpl. destruct ((cx =? x1) && (cy =? y1)); [done|].
  destruct (- dy <? 2 * err), (2 * err <? dx);
    rewrite IH, (lineLoop_trace_app _ _ _ _ (tracePoint cx cy []));
    rewrite <- option_fmap_compose; apply option_fmap_ext; intros l; done.
Qed.
End LineFacts.

Section Bresenham.
Variables (x0 y0 x1 y1 dx dy sx sy : Z).
Hypothesis Hdx : 0 <= dx.
Hypothesis Hdy : 0 <= dy.
Hypothesis Hsx : sx = 1 \/ sx = -1.
Hypothesis Hsy : sy = 1 \/ sy = -1.
Hypothesis Hx1 : x1 = x0 + sx * dx.
Hypothesis Hy1 : y1 = y0 + sy * dy.

(** After [a] steps in x and [b] steps in y the accumulator is
    [(b + 1) * dx - (a + 1) * dy]; neither axis oversteps its end, and every
    pass steps at least one axis, so [dx - a + dy - b] passes remain at most. *)
Lemma lineLoop_reaches fuel a b :
  0 <= a <= dx -> 0 <= b <= dy ->
  (Z.to_nat ((dx - a) + (dy - b)) < fuel)%nat ->
  exists pts,
    lineLoop tracePoint x1 y1 dx dy sx sy fuel
      ((b + 1) * dx - (a + 1) * dy) (x0 + sx * a) (y0 + sy * b) []
    = Some ((x0 + sx * a, y0 + sy * b) :: pts)
    /\ last ((x0 + sx * a, y0 + sy * b) :: pts) = Some (x1, y1)
    /\ chain8 (x0 + sx * a, y0 + sy * b) pts.
Proof using Hdx Hdy Hsx Hsy Hx1 Hy1.
  revert a b. induction fuel as [|fuel IH]; intros a b Ha Hb Hfuel; [lia|].
  simpl.
  destruct ((x0 + sx * a =? x1) && (y0 + sy * b =? y1)) eqn:Hend.
  - exists []. apply andb_true_iff in Hend as [?%Z.eqb_eq ?%Z.eqb_eq].
    simpl. repeat split. congruence.
  - assert (Hne : a < dx \/ b < dy).
    { apply andb_false_iff in Hend as [H%Z.eqb_neq|H%Z.eqb_neq]; subst x1 y1.
      - left. destruct (decide (a = dx)); [subst; lia|lia].
      - right. destruct (decide (b = dy)); [subst; lia|lia]. }
    set (err := (b + 1) * dx - (a + 1) * dy).
    assert (Hxs : - dy < 2 * err -> a < dx) by (unfold err; nia).
    assert (Hys : 2 * err < dx -> b < dy) by (unfold err; nia).
    assert (Hstep : - dy < 2 * err \/ 2 * err < dx) by (unfold err; nia).
    destruct (Z.ltb_spec (- dy) (2 * err)) as [Hx|Hx];
    destruct (Z.ltb_spec (2 * err) dx) as [Hy|Hy]; try lia.
    + destruct (IH (a + 1) (b + 1)) as (pts & Hrun & Hlast & Hch); [lia|lia|lia|].
      replace (err - dy + dx) with ((b + 1 + 1) * dx - (a + 1 + 1) * dy) by (unfold err; ring).
      replace (x0 + sx * a + sx) with (x0 + sx * (a + 1)) by ring.
      replace (y0 + sy * b + sy) with (y0 + sy * (b + 1)) by ring.
      rewrite lineLoop_trace_app, Hrun. simpl.
      eexists. split; [reflexivity|]. split; [exact Hlast|].
      simpl. split; [|exact Hch].
      unfold adjacent8; simpl. split; [intros [=]; nia|]. split; nia.
    + destruct (IH (a + 1) b) as (pts & Hrun & Hlast & Hch); [lia|lia|lia|].
      replace (err - dy) with ((b + 1) * dx - (a + 1 + 1) * dy) by (unfold err; ring).
      replace (x0 + sx * a + sx) with (x0 + sx * (a + 1)) by ring.
      rewrite lineLoop_trace_app, Hrun. simpl.
      eexists. split; [reflexivity|]. split; [exact Hlast|].
      simpl. split; [|exact Hch].
      unfold adjacent8; simpl. split; [intros [=]; nia|]. split; nia.
    + destruct (IH a (b + 1)) as (pts & Hrun & Hlast & Hch); [lia|lia|lia|].
      replace (err + dx) with ((b + 1 + 1) * dx - (a + 1) * dy) by (unfold err; ring).
      replace (y0 + sy * b + sy) with (y0 + sy * (b + 1)) by ring.
      rewrite lineLoop_trace_app, Hrun. simpl.
      eexists. split; [reflexivity|]. split; [exact Hlast|].
      simpl. split; [|exact Hch].
      unfold adjacent8; simpl. split; [intros [=]; nia|]. split; nia.
Qed.
End Bresenham.

Lemma linePoints_path x0 y0 x1 y1 :
  exists pts,
    linePoints x0 y0 x1 y1 = Some ((x0, y0) :: pts)
    /\ last ((x0, y0) :: pts) = Some (x1, y1)
    /\ chain8 (x0, y0) pts.
Proof.
  unfold linePoints, runLine, lineFuel.
  set (dx := Z.abs (x1 - x0)). set (dy := Z.abs (y1 - y0)).
  set (sx := if x0 <? x1 then 1 else -1). set (sy := if y0 <? y1 then 1 else -1).
  destruct (lineLoop_reaches x0 y0 x1 y1 dx dy sx sy) with
    (fuel := S (Z.to_nat (dx + dy))) (a := 0) (b := 0)
    as (pts & Hrun & Hlast & Hch); try (unfold dx, dy; lia).
  - unfold sx. destruct (x0 <? x1); auto.
  - unfold sy. destruct (y0 <? y1); auto.
  - unfold sx, dx. destruct (Z.ltb_spec x0 x1); lia.
  - unfold sy, dy. destruct (Z.ltb_spec y0 y1); lia.
  - exists pts.
    replace ((0 + 1) * dx - (0 + 1) * dy) with (dx - dy) in Hrun by ring.
    replace (x0 + sx * 0) with x0 in * by ring.
    replace (y0 + sy * 0) with y0 in * by ring.
    done.
Qed.

(** A single-pixel paint seen from any pixel of the canvas: a center off
    the canvas paints nothing. *)
Lemma paintPixel_lookup_any f px py cv x y :
  isPixelInBounds (width cv) (height cv) x y = true ->
  getPixel (paintPixel f px py cv) x y =
  if decide ((x, y) = (px, py)) then f <$> getPixel cv x y else getPixel cv x y.
Proof.
  intros Hxy. destruct (isPixelInBounds (width cv) (height cv) px py) eqn:Hp.
  - by apply paintPixel_lookup.
  - unfold paintPixel. rewrite Hp. rewrite decide_False; [done|].
    intros [= -> ->]. congruence.
Qed.

(** A stamp of the one pixel brush is one single-pixel fill. *)
Lemma drawBrush_one color opacity x y cv :
  drawBrush (mkBrush 1 color opacity) x y false cv =
  paintPixel (sourceOver (brushStyle (mkBrush 1 color opacity))) x y cv.
Proof.
  rewrite drawBrush_paintAll. simpl brushSize.
  unfold brushPixels. change (brushOffsets 1) with [(0, 0)]. simpl map.
  rewrite !Z.add_0_r. rewrite filter_cons, filter_nil. simpl.
  unfold paintPixel.
  destruct (isPixelInBounds (width cv) (height cv) x y) eqn:Hb.
  - rewrite decide_True by done. unfold paintAll. simpl.
    unfold paintPixel. by rewrite Hb.
  - by rewrite decide_False by done.
Qed.

(** C8: between any two integer points the rasterizer stops, the centers it
    stamps start at the first point and end at the second, consecutive
    centers are 8-adjacent, and the canvas receives one stamp per center in
    that order.  From (0,0) to (3,0) the centers are (0,0), (1,0), (2,0),
    (3,0); drawn with the one pixel brush, each of these four pixels that
    lies on the canvas receives one fill with the brush style over the colour
    it had, which at [alphaValue] 255 makes it the brush colour [(r, g, b, 255)],
    and every other pixel and the canvas size stay as they were.  On a 5x2
    white canvas the line in [#102030] gives four pixels of (16,32,48,255)
    followed by six white ones. *)
Theorem bresenham_path :
  (forall x0 y0 x1 y1,
      exists pts,
        linePoints x0 y0 x1 y1 = Some ((x0, y0) :: pts)
        /\ last ((x0, y0) :: pts) = Some (x1, y1)
        /\ chain8 (x0, y0) pts
        /\ forall b isEraser cv,
             drawLineOnContext b x0 y0 x1 y1 isEraser cv =
             Some (foldl (fun cv p => drawBrush b p.1 p.2 isEraser cv) cv
                         ((x0, y0) :: pts))) /\
  linePoints 0 0 3 0 = Some [(0, 0); (1, 0); (2, 0); (3, 0)] /\
  (forall color opacity cv,
      let b := mkBrush 1 color opacity in
      exists out,
        drawLineOnContext b 0 0 3 0 false cv = Some out /\
        width out = width cv /\ height out = height cv /\
        (forall x y,
            isPixelInBounds (width cv) (height cv) x y = true ->
            getPixel out x y =
            if decide (0 <= x <= 3 /\ y = 0)
            then sourceOver (brushStyle b) <$> getPixel cv x y
            else getPixel cv x y) /\
        (alphaValue b = 255 ->
         exists r g b', hexToRgba color 255 = (r, g, b', 255) /\
           forall x old,
             0 <= x <= 3 ->
             isPixelInBounds (width cv) (height cv) x 0 = true ->
             getPixel cv x 0 = Some old ->
             getPixel out x 0 = Some (r, g, b', 255))) /\
  drawLineOnContext (mkBrush 1 "#102030" 1) 0 0 3 0 false
    (mkImageData 5 2 (replicate 10 (255, 255, 255, 255)))
  = Some (mkImageData 5 2 (replicate 4 (16, 32, 48, 255)
                           ++ replicate 6 (255, 255, 255, 255))).
Proof.
  split; [|split; [|split]].
  - intros x0 y0 x1 y1.
    destruct (linePoints_path x0 y0 x1 y1) as (pts & Hrun & Hlast & Hch).
    exists pts. repeat split; try done.
    intros b isEraser cv. unfold drawLineOnContext, runLine.
    rewrite lineLoop_fold. unfold linePoints, runLine in Hrun. by rewrite Hrun.
  - reflexivity.
  - intros hex op cv b.
    set (f := sourceOver (brushStyle b)).
    assert (Hout : drawLineOnContext b 0 0 3 0 false cv =
                   Some (paintAll f cv [(0, 0); (1, 0); (2, 0); (3, 0)])).
    { unfold drawLineOnContext, runLine. rewrite lineLoop_fold.
      change (lineLoop tracePoint 3 0 _ _ _ _ _ _ 0 0 [])
        with (Some [(0, 0); (1, 0); (2, 0); (3, 0)]).
      simpl. f_equal. unfold b. by rewrite !drawBrush_one. }
    assert (Hpix : forall x y,
      isPixelInBounds (width cv) (height cv) x y = true ->
      getPixel (paintAll f cv [(0, 0); (1, 0); (2, 0); (3, 0)]) x y =
      if decide (0 <= x <= 3 /\ y = 0) then f <$> getPixel cv x y
      else getPixel cv x y).
    { intros x y Hxy. unfold paintAll. cbn [foldl fst snd].
      rewrite !paintPixel_lookup_any
        by (by rewrite ?paintPixel_width, ?paintPixel_height).
      destruct (decide (0 <= x <= 3 /\ y = 0)) as [[Hx ->]|Hn].
      - assert (Hcase : x = 0 \/ x = 1 \/ x = 2 \/ x = 3) by lia.
        destruct Hcase as [->|[->|[->| ->]]];
          repeat (rewrite decide_True by done || rewrite decide_False by done);
          done.
      - rewrite !decide_False; [done|..]; intros [= -> ->]; apply Hn; lia. }
    eexists. split; [exact Hout|].
    split; [apply paintAll_width|]. split; [apply paintAll_height|].
    split; [exact Hpix|].
    intros Ha.
    assert (Hf : exists r g b', hexToRgba hex 255 = (r, g, b', 255) /\
                   forall d, f d = (r, g, b', 255)).
    { unfold f, brushStyle. rewrite Ha. unfold b. cbn [color]. unfold hexToRgba.
      destruct (matchHex hex) as [[[r g] b']|]; eexists _, _, _;
        (split; [reflexivity|]); intros d; apply sourceOver_opaque. }
    destruct Hf as (r & g & b' & Hhex & Hf). exists r, g, b'. split; [done|].
    intros x old Hx Hin Hold. rewrite Hpix by done. rewrite decide_True by lia.
    rewrite Hold. simpl. by rewrite Hf.
  - reflexivity.
Qed.

Lemma bresenham_path_witness :
  let cv := mkImageData 4 1 [(255, 255, 255, 255); (0, 0, 0, 0);
                             (10, 20, 30, 255); (255, 255, 255, 128)] in
  exists out,
    drawLineOnContext (mkBrush 1 "#ff0000" 1) 0 0 3 0 false cv = Some out /\
    getPixel out 0 0 = Some (255, 0, 0, 255) /\
    getPixel out 3 0 = Some (255, 0, 0, 255).
Proof.
  intros cv.
  destruct bresenham_path as (_ & _ & Hline & _).
  destruct (Hline "#ff0000"%string 1%Q cv) as (out & Hout & _ & _ & _ & Hfull).
  destruct Hfull as (r & g & b' & Hhex & Hpix); [reflexivity|].
  exists out. split; [exact Hout|].
  injection Hhex as <- <- <-.
  split; [eapply (Hpix 0)|eapply (Hpix 3)]; (lia || reflexivity).
Defined.

(** ** Flood fill *)

Lemma hexToRgba_alpha hex alpha : chanA (hexToRgba hex alpha) = alpha.
Proof. unfold hexToRgba. by destruct (matchHex hex) as [[[r g] b]|]. Qed.

Lemma pixelIndex_lt w h x y :
  0 <= x < w -> 0 <= y < h -> (pixelIndex w x y < Z.to_nat (w * h))%nat.
Proof. unfold pixelIndex. intros Hx Hy. apply Z2Nat.inj_lt; nia. Qed.

Lemma outside_false w h x y :
  (x <? 0) || (w <=? x) || (y <? 0) || (h <=? y) = false <->
  0 <= x < w /\ 0 <= y < h.
Proof. rewrite !orb_false_iff, !Z.ltb_ge, !Z.leb_gt. lia. Qed.

(** Whatever the loop returns differs from its input only by pixels that
    became the fill colour. *)
Lemma floodLoop_writes w h fill fuel tgt dat stack visited dat' :
  floodLoop fuel w h tgt fill dat stack visited = Some dat' ->
  length dat' = length dat /\
  forall i p', dat' !! i = Some p' -> dat !! i = Some p' \/ p' = fill.
Proof.
  revert dat stack visited.
  induction fuel as [|fuel IH]; intros dat stack visited Hrun; [done|].
  destruct stack as [|[x y] stack]; simpl in Hrun.
  { injection Hrun as <-. auto. }
  destruct (decide ((x, y) ∈ visited)); [by apply IH in Hrun|].
  destruct ((x <? 0) || (w <=? x) || (y <? 0) || (h <=? y)); [by apply IH in Hrun|].
  destruct (decide (dat !! pixelIndex w x y = tgt)); [|by apply IH in Hrun].
  apply IH in Hrun as [Hlen Hpix]. rewrite length_insert in Hlen.
  split; [done|]. intros i p' Hi. destruct (Hpix i p' Hi) as [Hold|]; [|by right].
  destruct (decide (pixelIndex w x y = i)) as [<-|Hne].
  - apply list_lookup_insert_Some in Hold as [(_ & -> & _)|[? _]]; [by right|done].
  - rewrite list_lookup_insert_ne in Hold by done. by left.
Qed.

Lemma elem_of_neighbours (p q : Z * Z) :
  q ∈ neighbours p <-> Z.abs (q.1 - p.1) + Z.abs (q.2 - p.2) = 1.
Proof.
  destruct p as [x y], q as [a b]. unfold neighbours. simpl.
  rewrite !elem_of_cons, elem_of_nil. split.
  - intros [[= -> ->]|[[= -> ->]|[[= -> ->]|[[= -> ->]|[]]]]]; lia.
  - intros H.
    assert (Hcases : (a = x /\ b = y - 1) \/ (a = x /\ b = y + 1) \/
                     (a = x - 1 /\ b = y) \/ (a = x + 1 /\ b = y)) by lia.
    destruct Hcases as [[-> ->]|[[-> ->]|[[-> ->]|[-> ->]]]]; auto.
Qed.

Section FloodLoop.
Variables (w h : Z) (target fill : RGBA).
Hypothesis Hfill : fill <> target.

Local Abbreviation pending := (pending target).

Lemma pending_insert (dat : list RGBA) i :
  dat !! i = Some target ->
  S (pending (<[i := fill]> dat)) = pending dat.
Proof.
  unfold pending. revert i. induction dat as [|p dat IH]; intros [|i] Hi; try done.
  - simpl in Hi. injection Hi as ->. simpl.
    rewrite filter_cons_False by done. by rewrite filter_cons_True by done.
  - simpl in Hi. simpl. rewrite !filter_cons.
    destruct (decide (p = target)); simpl; by rewrite <- (IH i Hi).
Qed.

(** Each pass either pops one entry or recolours one pending pixel and
    pushes four, so [4 * pending + length stack] passes suffice. *)
Lemma floodLoop_total fuel dat stack visited :
  (4 * pending dat + length stack < fuel)%nat ->
  exists dat', floodLoop fuel w h (Some target) fill dat stack visited = Some dat'.
Proof.
  revert dat stack visited.
  induction fuel as [|fuel IH]; intros dat stack visited Hfuel; [lia|].
  destruct stack as [|[x y] stack]; simpl; [by eexists|].
  simpl in Hfuel.
  destruct (decide ((x, y) ∈ visited)); [apply IH; lia|].
  destruct ((x <? 0) || (w <=? x) || (y <? 0) || (h <=? y)); [apply IH; lia|].
  destruct (decide (dat !! pixelIndex w x y = Some target)) as [Ht|]; [|apply IH; lia].
  apply IH. apply pending_insert in Ht. simpl. lia.
Qed.

(** *** Reaching every pixel of a region without boundary *)

Hypothesis Hw : 0 < w.
Hypothesis Hh : 0 < h.
Variables (startX startY : Z).
Hypothesis HstartX : 0 <= startX < w.
Hypothesis HstartY : 0 <= startY < h.

Local Abbreviation inside := (inside w h).
Local Abbreviation filled := (filled w fill).
Local Abbreviation fillInv := (fillInv w h target fill startX startY).

Lemma inside_lookup (dat : list RGBA) p :
  length dat = Z.to_nat (w * h) -> inside p ->
  is_Some (dat !! pixelIndex w p.1 p.2).
Proof.
  intros Hlen [Hx Hy]. apply lookup_lt_is_Some. rewrite Hlen.
  by apply pixelIndex_lt.
Qed.

Lemma fillInv_skip dat x y stack visited :
  fillInv dat ((x, y) :: stack) visited ->
  (inside (x, y) -> filled dat (x, y)) ->
  fillInv dat stack visited.
Proof.
  intros [Hlen Htwo Hvis Hfront Hseed] Hskip.
  split; try done.
  - intros p q Hp Hfp Hq Hqin.
    destruct (Hfront p q Hp Hfp Hq Hqin) as [?|Hin]; [by left|].
    apply elem_of_cons in Hin as [->|?]; [left; auto|by right].
  - destruct Hseed as [?|Hin]; [by left|].
    apply elem_of_cons in Hin as [Heq|?]; [left|by right].
    rewrite Heq. apply Hskip. rewrite <- Heq. split; simpl; lia.
Qed.

Lemma filled_insert dat i p :
  filled dat p -> filled (<[i := fill]> dat) p.
Proof.
  unfold filled. intros Hp.
  destruct (decide (i = pixelIndex w p.1 p.2)) as [->|Hne].
  - apply list_lookup_insert_eq. by eapply lookup_lt_Some.
  - by rewrite list_lookup_insert_ne.
Qed.

Lemma fillInv_paint dat x y stack visited :
  fillInv dat ((x, y) :: stack) visited ->
  inside (x, y) ->
  fillInv (<[pixelIndex w x y := fill]> dat)
    ((x, y - 1) :: (x, y + 1) :: (x - 1, y) :: (x + 1, y) :: stack)
    ({[(x, y)]} ∪ visited).
Proof.
  intros [Hlen Htwo Hvis Hfront Hseed] Hxy.
  assert (Hhere : filled (<[pixelIndex w x y := fill]> dat) (x, y)).
  { unfold filled. simpl. apply list_lookup_insert_eq.
    rewrite Hlen. destruct Hxy. by apply pixelIndex_lt. }
  split.
  - by rewrite length_insert.
  - intros i p Hi. apply list_lookup_insert_Some in Hi as [(_ & <- & _)|[_ Hi]]; eauto.
  - intros p Hp. apply elem_of_union in Hp as [Hp|Hp].
    + apply elem_of_singleton in Hp as ->. done.
    + destruct (Hvis p Hp). split; [done|]. by apply filled_insert.
  - intros p q Hp Hfp Hq Hqin.
    destruct (decide (p = (x, y))) as [->|Hne].
    + right. change (q ∈ neighbours (x, y) ++ stack). apply elem_of_app. by left.
    + assert (Hold : filled dat p).
      { unfold filled in *. rewrite list_lookup_insert_ne in Hfp; [done|].
        intros Heq. apply Hne. destruct p as [a b], Hp, Hxy. simpl in *.
        symmetry. eapply pixelIndex_inj; [..|exact Heq]; lia. }
      destruct (Hfront p q Hp Hold Hq Hqin) as [?|Hin].
      * left. by apply filled_insert.
      * apply elem_of_cons in Hin as [->|?]; [by left|right].
        change (q ∈ neighbours (x, y) ++ stack). apply elem_of_app. by right.
  - destruct Hseed as [?|Hin]; [left; by apply filled_insert|].
    apply elem_of_cons in Hin as [->|?]; [by left|right].
    change ((startX, startY) ∈ neighbours (x, y) ++ stack).
    apply elem_of_app. by right.
Qed.

Lemma floodLoop_inv fuel dat stack visited dat' :
  fillInv dat stack visited ->
  floodLoop fuel w h (Some target) fill dat stack visited = Some dat' ->
  exists visited', fillInv dat' [] visited'.
Proof.
  revert dat stack visited.
  induction fuel as [|fuel IH]; intros dat stack visited Hinv Hrun; [done|].
  destruct stack as [|[x y] stack]; simpl in Hrun.
  { injection Hrun as <-. eauto. }
  destruct (decide ((x, y) ∈ visited)) as [Hv|Hv].
  { eapply IH; [|exact Hrun]. eapply fillInv_skip; [exact Hinv|].
    intros _. by apply (inv_visited _ _ _ _ _ _ _ _ _ Hinv). }
  destruct ((x <? 0) || (w <=? x) || (y <? 0) || (h <=? y)) eqn:Hout.
  { eapply IH; [|exact Hrun]. eapply fillInv_skip; [exact Hinv|].
    intros [Hx Hy]. simpl in *.
    assert (Hin : (x <? 0) || (w <=? x) || (y <? 0) || (h <=? y) = false)
      by (apply outside_false; lia).
    congruence. }
  apply outside_false in Hout.
  destruct (decide (dat !! pixelIndex w x y = Some target)) as [Ht|Ht].
  - eapply IH; [|exact Hrun]. by apply fillInv_paint.
  - eapply IH; [|exact Hrun]. eapply fillInv_skip; [exact Hinv|].
    intros Hxy. unfold filled. simpl.
    destruct (inside_lookup dat (x, y) (inv_length _ _ _ _ _ _ _ _ _ Hinv) Hxy) as [p Hp].
    simpl in Hp. rewrite Hp.
    destruct (inv_two _ _ _ _ _ _ _ _ _ Hinv _ _ Hp) as [-> | ->]; [done|done].
Qed.

(** With an empty stack the filled set contains the seed and is closed
    under in-bounds neighbours: walk along the seed's row, then along the
    column. *)
Lemma fillInv_done_all dat visited p :
  fillInv dat [] visited -> inside p -> filled dat p.
Proof.
  intros Hinv.
  assert (Hseed : filled dat (startX, startY)).
  { destruct (inv_seed _ _ _ _ _ _ _ _ _ Hinv) as [?|Hin]; [done|by apply elem_of_nil in Hin]. }
  assert (Hstep : forall p q, inside p -> filled dat p -> q ∈ neighbours p ->
                              inside q -> filled dat q).
  { intros a b Ha Hfa Hb Hbin.
    destruct (inv_front _ _ _ _ _ _ _ _ _ Hinv a b Ha Hfa Hb Hbin) as [?|Hin];
      [done|by apply elem_of_nil in Hin]. }
  assert (Hrow : forall n x, Z.abs (x - startX) = Z.of_nat n -> 0 <= x < w ->
                             filled dat (x, startY)).
  { induction n as [|n IH]; intros x Hn Hx.
    - replace x with startX by lia. done.
    - destruct (Z.lt_trichotomy x startX) as [Hlt|[->|Hgt]]; [|done|].
      + apply (Hstep (x + 1, startY)); [split; simpl; lia|apply IH; lia| |split; simpl; lia].
        apply elem_of_neighbours. simpl. lia.
      + apply (Hstep (x - 1, startY)); [split; simpl; lia|apply IH; lia| |split; simpl; lia].
        apply elem_of_neighbours. simpl. lia. }
  assert (Hcol : forall n x y, Z.abs (y - startY) = Z.of_nat n -> 0 <= x < w ->
                               0 <= y < h -> filled dat (x, y)).
  { induction n as [|n IH]; intros x y Hn Hx Hy.
    - replace y with startY by lia. apply (Hrow (Z.to_nat (Z.abs (x - startX)))); lia.
    - destruct (Z.lt_trichotomy y startY) as [Hlt|[->|Hgt]].
      + apply (Hstep (x, y + 1)); [split; simpl; lia|apply IH; lia| |split; simpl; lia].
        apply elem_of_neighbours. simpl. lia.
      + apply (Hrow (Z.to_nat (Z.abs (x - startX)))); lia.
      + apply (Hstep (x, y - 1)); [split; simpl; lia|apply IH; lia| |split; simpl; lia].
        apply elem_of_neighbours. simpl. lia. }
  intros [Hx Hy]. destruct p as [x y]. simpl in *.
  eapply (Hcol (Z.to_nat (Z.abs (y - startY)))); [lia|done|done].
Qed.

Lemma fillInv_done_replicate dat visited :
  fillInv dat [] visited -> dat = replicate (Z.to_nat (w * h)) fill.
Proof.
  intros Hinv. apply list_eq. intros i.
  destruct (decide (i < Z.to_nat (w * h))%nat) as [Hi|Hi].
  - rewrite lookup_replicate_2 by done.
    pose proof (fillInv_done_all dat visited
                  (Z.of_nat i mod w, Z.of_nat i / w) Hinv) as Hall.
    unfold filled, pixelIndex in Hall. simpl in Hall.
    replace (Z.to_nat (Z.of_nat i / w * w + Z.of_nat i mod w)) with i in Hall.
    + apply Hall. split; simpl.
      * apply Z.mod_pos_bound. lia.
      * split; [apply Z.div_pos; lia|]. apply Z.div_lt_upper_bound; lia.
    + rewrite (Z.mul_comm _ w), <- Z.div_mod by lia. lia.
  - rewrite lookup_ge_None_2 by (rewrite (inv_length _ _ _ _ _ _ _ _ _ Hinv); lia).
    symmetry. apply lookup_ge_None_2. rewrite length_replicate. lia.
Qed.

Lemma fillInv_start :
  fillInv (replicate (Z.to_nat (w * h)) target) [(startX, startY)] ∅.
Proof.
  split.
  - apply length_replicate.
  - intros i p Hi. apply lookup_replicate in Hi as [-> _]. by left.
  - intros p Hp. by apply elem_of_empty in Hp.
  - intros p q _ Hp. unfold filled in Hp.
    apply lookup_replicate in Hp as [Hp _]. by symmetry in Hp.
  - right. left.
Qed.
End FloodLoop.

Lemma pending_le target (dat : list RGBA) : (pending target dat <= length dat)%nat.
Proof. unfold pending. apply length_filter. Qed.

(** C7: on a [W] x [H] buffer of a single colour, a fill with any other
    colour from any in-bounds seed returns, and the buffer it returns has all
    [W * H] pixels in the fill colour. *)
Theorem floodFill_uniform (W H : Z) (c : RGBA) (color : string) (startX startY : Z) :
  0 < W -> 0 < H ->
  hexToRgba color 255 <> c ->
  0 <= startX < W -> 0 <= startY < H ->
  floodFill color startX startY (mkImageData W H (replicate (Z.to_nat (W * H)) c))
  = Some (mkImageData W H (replicate (Z.to_nat (W * H)) (hexToRgba color 255))).
Proof.
  intros HW HH Hne Hx Hy. unfold floodFill. simpl.
  assert (Hin : isPixelInBounds W H startX startY = true)
    by (apply isPixelInBounds_true; lia).
  rewrite Hin. simpl.
  rewrite lookup_replicate_2 by (by apply pixelIndex_lt).
  rewrite decide_False by congruence.
  edestruct (floodLoop_total W H c (hexToRgba color 255)) with
    (fuel := floodFuel (mkImageData W H (replicate (Z.to_nat (W * H)) c)))
    (dat := replicate (Z.to_nat (W * H)) c) (stack := [(startX, startY)])
    (visited := (∅ : gset (Z * Z))) as [dat' Hrun]; [done| |].
  { unfold floodFuel. simpl.
    pose proof (pending_le c (replicate (Z.to_nat (W * H)) c)). lia. }
  rewrite Hrun. do 2 f_equal.
  assert (Hstart : fillInv W H c (hexToRgba color 255) startX startY
                     (replicate (Z.to_nat (W * H)) c) [(startX, startY)] ∅)
    by (by apply fillInv_start).
  eapply floodLoop_inv in Hrun as [visited' Hinv]; [|done..|exact Hstart].
  eapply fillInv_done_replicate; [..|exact Hinv]; done.
Qed.

Lemma floodFill_uniform_witness :
  floodFill "#000000" 0 0 (mkImageData 8 8 (replicate 64 (255, 255, 255, 255)))
  = Some (mkImageData 8 8 (replicate 64 (0, 0, 0, 255))).
Proof.
  apply (floodFill_uniform 8 8 (255, 255, 255, 255) "#000000" 0 0); try lia.
  vm_compute. congruence.
Defined.

(** C10: on every well-formed buffer the fill returns a buffer of the same
    size, and every pixel it changed holds the fill colour parsed from the
    hex string, whose alpha is exactly 255 whatever the brush opacity is. *)
Theorem floodFill_opaque (b : Brush) (startX startY : Z) (cv : ImageData) :
  wfImage cv ->
  exists cv',
    floodFill (color b) startX startY cv = Some cv' /\
    width cv' = width cv /\ height cv' = height cv /\
    length (data cv') = length (data cv) /\
    forall i p p',
      data cv !! i = Some p -> data cv' !! i = Some p' -> p' <> p ->
      p' = hexToRgba (color b) 255 /\ chanA p' = 255.
Proof.
  intros (Hw & Hh & Hlen). unfold floodFill.
  destruct (isPixelInBounds (width cv) (height cv) startX startY) eqn:Hin; simpl.
  2: { exists cv. repeat split; try done; congruence. }
  apply isPixelInBounds_true in Hin as [Hx Hy].
  destruct (lookup_lt_is_Some_2 (data cv) (pixelIndex (width cv) startX startY))
    as [t Ht].
  { rewrite Hlen. by apply pixelIndex_lt. }
  rewrite Ht. destruct (decide (Some t = Some (hexToRgba (color b) 255))) as [|Hne].
  { exists cv. repeat split; try done; congruence. }
  edestruct (floodLoop_total (width cv) (height cv) t (hexToRgba (color b) 255)) with
    (fuel := floodFuel cv) (dat := data cv) (stack := [(startX, startY)])
    (visited := (∅ : gset (Z * Z))) as [dat' Hrun]; [congruence| |].
  { unfold floodFuel. pose proof (pending_le t (data cv)). simpl. lia. }
  rewrite Hrun. eexists. split; [reflexivity|]. simpl.
  apply floodLoop_writes in Hrun as [Hlen' Hpix].
  split; [done|]. split; [done|]. split; [done|].
  intros i p p' Hp Hp' Hdiff.
  destruct (Hpix i p' Hp') as [? | ->]; [congruence|].
  split; [done|apply hexToRgba_alpha].
Qed.

Lemma floodFill_opaque_witness :
  exists cv',
    floodFill "#336699" 1 0
      (mkImageData 2 2 [(1, 2, 3, 0); (1, 2, 3, 0); (9, 9, 9, 128); (1, 2, 3, 0)])
    = Some cv' /\
    data cv' !! 1%nat = Some (51, 102, 153, 255) /\
    data cv' !! 2%nat = Some (9, 9, 9, 128).
Proof.
  destruct (floodFill_opaque (mkBrush 1 "#336699" (1 # 4)) 1 0
              (mkImageData 2 2 [(1, 2, 3, 0); (1, 2, 3, 0); (9, 9, 9, 128); (1, 2, 3, 0)]))
    as (cv' & Hrun & _ & _ & _ & Hpix).
  { repeat split; simpl; lia. }
  exists cv'. split; [exact Hrun|].
  simpl in Hrun. vm_compute in Hrun. injection Hrun as <-. split; reflexivity.
Defined.

(** * Properties of the palette reducer *)

(** ** Nearest colour and remapping *)

Lemma nearStep_fold color l p :
  exists p',
    foldl (nearStep color) (Some (colorDistance color p), Some p) l
    = (Some (colorDistance color p'), Some p')
    /\ (p' = p \/ p' ∈ l)
    /\ colorDistance color p' <= colorDistance color p
    /\ forall q, q ∈ l -> colorDistance color p' <= colorDistance color q.
Proof.
  revert p. induction l as [|c l IH]; intros p.
  - exists p. repeat split; [by left|lia|]. intros q Hq. by apply elem_of_nil in Hq.
  - simpl. unfold nearStep at 2, belowInf, extLt. simpl.
    destruct (Z.ltb_spec (colorDistance color c) (colorDistance color p)) as [Hlt|Hge].
    + destruct (IH c) as (p' & Hrun & Hin & Hle & Hmin). exists p'.
      split; [exact Hrun|]. split; [right; destruct Hin as [->|?]; [left|by right]|].
      split; [lia|]. intros q Hq. apply elem_of_cons in Hq as [->|Hq]; auto.
    + destruct (IH p) as (p' & Hrun & Hin & Hle & Hmin). exists p'.
      split; [exact Hrun|]. split; [destruct Hin as [->|?]; [by left|right; by right]|].
      split; [lia|]. intros q Hq. apply elem_of_cons in Hq as [->|Hq]; auto. lia.
Qed.

(** On a non-empty palette the search returns an entry of least distance. *)
Lemma findNearestColor_min color palette :
  palette <> [] ->
  exists p,
    findNearestColor color palette = Some p /\ p ∈ palette /\
    forall q, q ∈ palette -> colorDistance color p <= colorDistance color q.
Proof.
  destruct palette as [|p0 l]; [done|]. intros _.
  unfold findNearestColor. simpl.
  destruct (nearStep_fold color l p0) as (p' & Hrun & Hin & Hle & Hmin).
  change (nearStep color (None, Some p0) p0)
    with (Some (colorDistance color p0), Some p0).
  rewrite Hrun. exists p'. simpl.
  split; [done|]. split; [destruct Hin as [->|?]; [left|by right]|].
  intros q Hq. apply elem_of_cons in Hq as [->|Hq]; auto.
Qed.

Lemma colorDistance_zero c1 c2 :
  colorDistance c1 c2 <= 0 ->
  chanR c1 = chanR c2 /\ chanG c1 = chanG c2 /\ chanB c1 = chanB c2.
Proof.
  unfold colorDistance. intros H.
  pose proof (Z.square_nonneg (chanR c1 - chanR c2)) as Hr.
  pose proof (Z.square_nonneg (chanG c1 - chanG c2)) as Hg.
  pose proof (Z.square_nonneg (chanB c1 - chanB c2)) as Hb.
  assert (Hr0 : (chanR c1 - chanR c2) * (chanR c1 - chanR c2) = 0) by lia.
  assert (Hg0 : (chanG c1 - chanG c2) * (chanG c1 - chanG c2) = 0) by lia.
  assert (Hb0 : (chanB c1 - chanB c2) * (chanB c1 - chanB c2) = 0) by lia.
  apply Z.mul_eq_0 in Hr0, Hg0, Hb0. lia.
Qed.

Lemma clamp8_byte v : isByte v -> clamp8 v = v.
Proof. unfold isByte, clamp8. lia. Qed.

Lemma mapM_total {A B : Type} (f : A -> option B) (g : A -> B) (l : list A) :
  Forall (fun x => f x = Some (g x)) l -> mapM f l = Some (map g l).
Proof.
  intros Hall. apply mapM_Some. induction Hall; constructor; auto.
Qed.

(** The pixel a remap writes when the palette is not empty. *)
Lemma remapPixel_nearest palette c :
  palette <> [] -> Forall byteColor palette -> byteColor c ->
  exists c',
    remapPixel palette c = Some c' /\ byteColor c' /\
    remapPixel palette c' = Some c'.
Proof.
  intros Hne Hpal Hc. unfold remapPixel.
  destruct (Z.eqb_spec (chanA c) 0) as [Ha|Ha].
  { exists (0, 0, 0, 0). repeat split; try done; unfold isByte; simpl; lia. }
  destruct (findNearestColor_min c palette Hne) as (p & Hp & Hin & _).
  rewrite Hp.
  assert (Hpb : byteColor p) by (eapply Forall_forall in Hpal; eauto).
  destruct Hpb as (Hr & Hg & Hb & _), Hc as (_ & _ & _ & Hca).
  unfold storePixel. rewrite !clamp8_byte by done.
  eexists. split; [reflexivity|]. split; [done|]. simpl.
  destruct (Z.eqb_spec (chanA c) 0) as [|_]; [done|].
  destruct (findNearestColor_min (chanR p, chanG p, chanB p, chanA c) palette Hne)
    as (q & Hq & Hqin & Hmin).
  rewrite Hq. f_equal.
  assert (Hzero : colorDistance (chanR p, chanG p, chanB p, chanA c) q <= 0).
  { etrans; [apply (Hmin p Hin)|]. unfold colorDistance. simpl. lia. }
  apply colorDistance_zero in Hzero as (Hqr & Hqg & Hqb). simpl in *.
  rewrite <- Hqr, <- Hqg, <- Hqb. by rewrite !clamp8_byte.
Qed.

(** C6: with a non-empty palette of byte colours, remapping a buffer and
    remapping the result again with the same palette give the same buffer. *)
Theorem remapColors_idempotent (img : ImageData) (palette : list RGBA) :
  palette <> [] ->
  Forall byteColor palette ->
  Forall byteColor (data img) ->
  exists once,
    remapColors img palette = Some once /\
    remapColors once palette = Some once.
Proof.
  intros Hne Hpal Himg.
  assert (Hpix : Forall byteColor (pixelsOf img)).
  { unfold pixelsOf. by apply Forall_take. }
  assert (Hstep : forall l : list RGBA, Forall byteColor l ->
            exists l', Forall2 (fun c c' => remapPixel palette c = Some c') l l' /\
                       Forall2 (fun c c' => remapPixel palette c = Some c') l' l').
  { induction 1 as [|c l Hc Hl (l' & H1 & H2)].
    - exists []. split; constructor.
    - destruct (remapPixel_nearest palette c Hne Hpal Hc) as (c' & Hc1 & _ & Hc2).
      exists (c' :: l'). split; by constructor. }
  destruct (Hstep _ Hpix) as (l' & H1 & H2).
  assert (Hlen : length l' = length (pixelsOf img))
    by (symmetry; eapply Forall2_length; exact H1).
  apply mapM_Some_2 in H1, H2.
  unfold remapColors. rewrite H1. eexists. split; [reflexivity|].
  unfold pixelsOf at 1. simpl.
  rewrite take_ge.
  2: { rewrite Hlen. unfold pixelsOf. rewrite length_take. lia. }
  by rewrite H2.
Qed.

Lemma remapColors_idempotent_witness :
  let palette := [(0, 0, 0, 255); (255, 255, 255, 255); (200, 30, 30, 7)] in
  let img := mkImageData 2 2 [(10, 20, 30, 255); (250, 240, 230, 40);
                              (77, 77, 77, 0); (180, 60, 60, 255)] in
  let once := mkImageData 2 2 [(0, 0, 0, 255); (255, 255, 255, 40);
                               (0, 0, 0, 0); (200, 30, 30, 255)] in
  remapColors img palette = Some once /\ remapColors once palette = Some once.
Proof.
  intros palette img once.
  destruct (remapColors_idempotent img palette) as (once' & H1 & H2).
  - done.
  - repeat constructor; simpl; lia.
  - repeat constructor; simpl; lia.
  - assert (once' = once) as -> by (vm_compute in H1; injection H1 as <-; reflexivity).
    split; assumption.
Defined.

(** ** Floyd-Steinberg error diffusion *)

Lemma index_inj w x y x' y' :
  0 <= x < w -> 0 <= y -> 0 <= x' < w -> 0 <= y' ->
  Z.to_nat (y * w + x) = Z.to_nat (y' * w + x') -> x = x' /\ y = y'.
Proof.
  intros Hx Hy Hx' Hy' H. apply Z2Nat.inj in H; [|nia|nia].
  assert (y = y') by nia. subst. lia.
Qed.

Lemma addError_lookup k e i j (pixels : list Work) :
  addError k e i pixels !! j =
  if decide (i = j) then addTo k e <$> pixels !! j else pixels !! j.
Proof.
  unfold addError. case_decide as Hij.
  - subst. apply list_lookup_alter_eq.
  - by apply list_lookup_alter_ne.
Qed.

Section Diffuse.
Variables (w h x y : Z) (e : spec_float * spec_float * spec_float) (pixels : list Work).
Hypothesis Hx : 0 <= x < w.
Hypothesis Hy : 0 <= y < h.

(** Where the working value of the in-bounds pixel [(x', y')] ends up. *)
Lemma diffuse_lookup x' y' :
  0 <= x' < w -> 0 <= y' < h ->
  diffuse w h x y e pixels !! Z.to_nat (y' * w + x') =
  (if decide (x' = x + 1 /\ y' = y) then addTo 7 e
   else if decide (x' = x - 1 /\ y' = y + 1) then addTo 3 e
   else if decide (x' = x /\ y' = y + 1) then addTo 5 e
   else if decide (x' = x + 1 /\ y' = y + 1) then addTo 1 e
   else id) <$> pixels !! Z.to_nat (y' * w + x').
Proof using Hx Hy.
  intros Hx' Hy'. unfold diffuse.
  replace (y * w + x + 1) with (y * w + (x + 1)) by ring.
  replace ((y + 1) * w + x - 1) with ((y + 1) * w + (x - 1)) by ring.
  replace ((y + 1) * w + x + 1) with ((y + 1) * w + (x + 1)) by ring.
  assert (Hidx : forall a b, 0 <= a < w -> 0 <= b ->
            Z.to_nat (b * w + a) = Z.to_nat (y' * w + x') -> a = x' /\ b = y').
  { intros a b Ha Hb. apply index_inj; lia. }
  destruct (Z.ltb_spec (x + 1) w) as [Hr|Hr];
  destruct (Z.ltb_spec (y + 1) h) as [Hd|Hd];
  destruct (Z.leb_spec 0 (x - 1)) as [Hl|Hl]; simpl;
  rewrite ?addError_lookup;
  repeat case_decide;
  repeat match goal with
         | H : Z.to_nat _ = Z.to_nat _ |- _ => apply Hidx in H; [|lia|lia]
         end;
  try (exfalso; lia);
  try (by destruct (pixels !! Z.to_nat (y' * w + x')));
  subst;
  repeat match goal with
         | H : Z.to_nat ?a <> Z.to_nat ?a |- _ => by destruct H
         | H : Z.to_nat ?a <> Z.to_nat ?b |- _ =>
             exfalso; apply H; f_equal; lia
         end.
Qed.
End Diffuse.

(** The arithmetic is that of doubles: [0.1 + 0.2] is
    [0x1.3333333333334p-2], not the double nearest to [0.3]. *)
Example numAdd_tenths :
  numAdd (numDiv (ofZ 1) (ofZ 10)) (numDiv (ofZ 2) (ofZ 10))
  = S754_finite false 5404319552844596 (-54) /\
  numDiv (ofZ 3) (ofZ 10) = S754_finite false 5404319552844595 (-54).
Proof. by vm_compute. Qed.

(** On a palette that is not empty a colour is always chosen, and it is
    one of the palette. *)
Lemma ditherNearest_elem (oldPixel : Work) (palette : list RGBA) :
  palette <> [] ->
  exists q, ditherNearest oldPixel palette = Some q /\ q ∈ palette.
Proof.
  intros Hne. destruct oldPixel as [[[r g] b] a]. unfold ditherNearest.
  destruct (clampRound r) as [r'|], (clampRound g) as [g'|], (clampRound b) as [b'|];
    try (destruct palette as [|q l]; [done|exists q; split; [done|left]]).
  destruct (findNearestColor_min (r', g', b', a) palette Hne) as (p & Hp & Hin & _).
  by exists p.
Qed.

Lemma bind_singleton_fmap {A B : Type} (f : A -> B) (l : list A) :
  (x ← l; [f x]) = f <$> l.
Proof. induction l as [|a l IH]; [done|]. simpl. by f_equal. Qed.

(** The two nested loops visit the pixels in row-major order: the [k]-th
    pixel visited is [(k mod w, k / w)]. *)
Lemma scanOrder_row_major w h :
  0 < w -> 0 <= h ->
  scanOrder w h = (fun k => (k mod w, k / w)) <$> seqZ 0 (w * h).
Proof.
  intros Hw Hh. pattern h. apply natlike_ind; [| |exact Hh].
  - unfold scanOrder. by rewrite Z.mul_0_r.
  - intros n Hn IH. unfold scanOrder in *.
    replace (Z.succ n) with (n + 1) by lia. rewrite seqZ_app by lia.
    rewrite bind_app, IH.
    replace (w * (n + 1)) with (w * n + w) by lia. rewrite seqZ_app by nia.
    rewrite fmap_app. f_equal.
    change (seqZ (0 + n) 1) with [0 + n]. cbn [mbind list_bind app].
    rewrite app_nil_r, bind_singleton_fmap.
    replace (0 + w * n) with (w * n + 0) by lia.
    rewrite <- (fmap_add_seqZ (w * n) 0 w), <- list_fmap_compose.
    apply Forall_fmap_ext, Forall_forall. intros x Hx.
    apply elem_of_seqZ in Hx. simpl. f_equal.
    + apply Z.mod_unique with (q := n); lia.
    + apply Z.div_unique with (r := x); lia.
Qed.

(** C4, as the code has it: the pixels are visited in row-major order, and
    at a non-transparent pixel the palette colour is chosen for the clamped,
    rounded working value, but the error that is propagated is the working
    value itself (neither clamped nor rounded) minus the chosen colour, per
    channel, computed in binary64; the working values of the right, the
    bottom-left, the bottom and the bottom-right neighbour, each only when
    it lies in the buffer, become [old + error * k / 16] with [k] 7, 3, 5
    and 1, where the product, the quotient and the sum are each rounded to
    a double; no other working value changes. *)
Theorem ditherStep_diffuses (palette : list RGBA) (w h : Z)
    (pixels : list Work) (result : list RGBA) (x y : Z) (r g b : spec_float) (a : Z) :
  palette <> [] ->
  0 <= x < w -> 0 <= y < h ->
  pixels !! Z.to_nat (y * w + x) = Some (r, g, b, a) ->
  a <> 0 ->
  scanOrder w h = (fun k => (k mod w, k / w)) <$> seqZ 0 (w * h) /\
  (forall img,
      applyFloydSteinberg img palette =
      (fun st => mkImageData (width img) (height img) st.2) <$>
      foldl (ditherStep palette (width img) (height img))
            (Some (map toWork (pixelsOf img),
                   replicate (Z.to_nat (width img * height img)) (0, 0, 0, 0)))
            (scanOrder (width img) (height img))) /\
  exists newPixel pixels',
    ditherNearest (r, g, b, a) palette = Some newPixel /\
    (forall r' g' b',
        clampRound r = Some r' -> clampRound g = Some g' -> clampRound b = Some b' ->
        findNearestColor (r', g', b', a) palette = Some newPixel) /\
    ditherStep palette w h (Some (pixels, result)) (x, y) =
      Some (pixels',
            <[Z.to_nat (y * w + x) :=
                storePixel (chanR newPixel) (chanG newPixel) (chanB newPixel) a]> result) /\
    let e := (numSub r (ofZ (chanR newPixel)), numSub g (ofZ (chanG newPixel)),
              numSub b (ofZ (chanB newPixel))) in
    let spread (k : Z) (p : Work) : Work :=
      (numAdd p.1.1.1 (numDiv (numMul e.1.1 (ofZ k)) (ofZ 16)),
       numAdd p.1.1.2 (numDiv (numMul e.1.2 (ofZ k)) (ofZ 16)),
       numAdd p.1.2 (numDiv (numMul e.2 (ofZ k)) (ofZ 16)), p.2) in
    forall x' y',
      0 <= x' < w -> 0 <= y' < h ->
      pixels' !! Z.to_nat (y' * w + x') =
      (if decide (x' = x + 1 /\ y' = y) then spread 7
       else if decide (x' = x - 1 /\ y' = y + 1) then spread 3
       else if decide (x' = x /\ y' = y + 1) then spread 5
       else if decide (x' = x + 1 /\ y' = y + 1) then spread 1
       else id) <$> pixels !! Z.to_nat (y' * w + x').
Proof.
  intros Hne Hx Hy Hold Ha.
  split; [apply scanOrder_row_major; lia|]. split.
  { intros img. unfold applyFloydSteinberg, ditherRun.
    by destruct (foldl _ _ _) as [[? ?]|]. }
  destruct (ditherNearest_elem (r, g, b, a) palette Hne) as (newPixel & Hnear & _).
  exists newPixel. eexists. split; [exact Hnear|]. split.
  { intros r' g' b' Hr Hg Hb. unfold ditherNearest in Hnear.
    by rewrite Hr, Hg, Hb in Hnear. }
  split.
  { unfold ditherStep. rewrite Hold.
    destruct (Z.eqb_spec a 0) as [|_]; [done|]. by rewrite Hnear. }
  intros e spread x' y' Hx' Hy'.
  rewrite (diffuse_lookup w h x y _ pixels Hx Hy x' y' Hx' Hy').
  assert (Hspread : forall k p, addTo k (ditherError (r, g, b, a) newPixel) p = spread k p).
  { intros k [[[pr pg] pb] pa]. reflexivity. }
  repeat case_decide; try done; apply option_fmap_ext; intros p; apply Hspread.
Qed.

Lemma ditherStep_diffuses_witness :
  let palette := [(0, 0, 0, 255); (255, 255, 255, 255)] in
  let g100 := (ofZ 100, ofZ 100, ofZ 100, 255) in
  let pixels : list Work := [g100; g100; g100; g100] in
  let handed (k : Z) :=
    numAdd (ofZ 100) (numDiv (numMul (ofZ 100) (ofZ k)) (ofZ 16)) in
  exists pixels',
    ditherStep palette 2 2 (Some (pixels, replicate 4 (0, 0, 0, 0))) (0, 0)
      = Some (pixels', [(0, 0, 0, 255); (0, 0, 0, 0); (0, 0, 0, 0); (0, 0, 0, 0)]) /\
    pixels' !! 1%nat = Some (handed 7, handed 7, handed 7, 255) /\
    pixels' !! 2%nat = Some (handed 5, handed 5, handed 5, 255) /\
    pixels' !! 3%nat = Some (handed 1, handed 1, handed 1, 255) /\
    pixels' !! 0%nat = pixels !! 0%nat.
Proof.
  intros palette g100 pixels handed.
  destruct (ditherStep_diffuses palette 2 2 pixels (replicate 4 (0, 0, 0, 0))
              0 0 (ofZ 100) (ofZ 100) (ofZ 100) 255)
    as (_ & _ & newPixel & pixels' & Hnear & _ & Hstep & Hpix);
    [done|lia|lia|reflexivity|lia|].
  vm_compute in Hnear. injection Hnear as <-.
  exists pixels'. split; [exact Hstep|].
  split; [exact (Hpix 1 0 ltac:(lia) ltac:(lia))|].
  split; [exact (Hpix 0 1 ltac:(lia) ltac:(lia))|].
  split; [exact (Hpix 1 1 ltac:(lia) ltac:(lia))|].
  exact (Hpix 0 0 ltac:(lia) ltac:(lia)).
Defined.

(** The error is not taken from the clamped, rounded value: in a row of
    three (100,100,100) pixels reduced to black and white, the second pixel
    reaches the working value 143.75, is matched as 144 to white, and hands
    (143.75 - 255) * 7 / 16 to the third pixel, not (144 - 255) * 7 / 16. *)
Lemma dither_error_unrounded :
  let palette := [(0, 0, 0, 255); (255, 255, 255, 255)] in
  let g100 := (100, 100, 100, 255) in
  let img := mkImageData 3 1 [g100; g100; g100] in
  exists pixels1 result1 pixels2 result2 r1 r2,
    ditherRun img palette [(0, 0)] = Some (pixels1, result1) /\
    ditherRun img palette [(0, 0); (1, 0)] = Some (pixels2, result2) /\
    pixels1 !! 1%nat = Some (r1, r1, r1, 255) /\
    r1 = numDiv (ofZ 575) (ofZ 4) /\ clampRound r1 = Some 144 /\
    findNearestColor (144, 144, 144, 255) palette = Some (255, 255, 255, 255) /\
    pixels2 !! 2%nat = Some (r2, r2, r2, 255) /\
    r2 = numAdd (ofZ 100) (numDiv (numMul (numSub r1 (ofZ 255)) (ofZ 7)) (ofZ 16)) /\
    r2 <> numAdd (ofZ 100) (numDiv (numMul (numSub (ofZ 144) (ofZ 255)) (ofZ 7)) (ofZ 16)).
Proof.
  intros palette g100 img.
  eexists _, _, _, _, _, _.
  split; [vm_compute; reflexivity|].
  split; [vm_compute; reflexivity|].
  split; [reflexivity|].
  split; [vm_compute; reflexivity|].
  split; [vm_compute; reflexivity|].
  split; [reflexivity|].
  split; [reflexivity|].
  split; [vm_compute; reflexivity|].
  vm_compute. discriminate.
Qed.

(** ** Deduplication and counting *)

Lemma filter_all {A : Type} (P : A -> Prop) `{!forall x, Decision (P x)} (l : list A) :
  (forall x, x ∈ l -> P x) -> filter P l = l.
Proof.
  induction l as [|x l IH]; intros Hall; [done|].
  rewrite filter_cons_True by (apply Hall; left).
  f_equal. apply IH. intros y Hy. apply Hall. by right.
Qed.

Lemma filter_none {A : Type} (P : A -> Prop) `{!forall x, Decision (P x)} (l : list A) :
  (forall x, x ∈ l -> ~ P x) -> filter P l = [].
Proof.
  induction l as [|x l IH]; intros Hall; [done|].
  rewrite filter_cons_False by (apply Hall; left).
  apply IH. intros y Hy. apply Hall. by right.
Qed.

Lemma dedupe_from (u l : list RGBA) :
  foldl dedupeStep u l = u ++ filter (fun c => c ∉ u) (distinctFirstSeen l).
Proof.
  revert u. induction l as [|c l IH]; intros u.
  - simpl. by rewrite app_nil_r.
  - simpl. rewrite IH. unfold dedupeStep.
    destruct (decide (c ∈ u)) as [Hin|Hnin].
    + rewrite filter_cons_False by (intros H; by apply H).
      f_equal. rewrite list_filter_filter. apply list_filter_iff.
      intros x. split; [|tauto]. intros Hx. split; [done|]. by intros ->.
    + rewrite filter_cons_True by done. rewrite <- app_assoc. simpl.
      do 2 f_equal. rewrite list_filter_filter. apply list_filter_iff.
      intros x. rewrite elem_of_app, list_elem_of_singleton. tauto.
Qed.

(** [dedupe] is deduplication in first-seen order. *)
Lemma dedupe_spec (l : list RGBA) : dedupe l = distinctFirstSeen l.
Proof.
  unfold dedupe.
  rewrite dedupe_from. simpl. apply filter_all.
  intros x _. apply not_elem_of_nil.
Qed.

Lemma elem_of_distinctFirstSeen (l : list RGBA) c :
  c ∈ distinctFirstSeen l <-> c ∈ l.
Proof.
  induction l as [|x l IH]; [done|]. simpl.
  rewrite !elem_of_cons, list_elem_of_filter, IH.
  destruct (decide (c = x)); tauto.
Qed.

Lemma NoDup_distinctFirstSeen (l : list RGBA) : NoDup (distinctFirstSeen l).
Proof.
  induction l as [|x l IH]; [constructor|]. simpl. constructor.
  - rewrite list_elem_of_filter. tauto.
  - by apply NoDup_filter.
Qed.

Lemma length_distinctFirstSeen (l : list RGBA) :
  (length (distinctFirstSeen l) <= length l)%nat.
Proof.
  induction l as [|x l IH]; [done|]. simpl.
  pose proof (length_filter (fun c' => c' <> x) (distinctFirstSeen l)). lia.
Qed.

Lemma distinctFirstSeen_snoc (l : list RGBA) c :
  distinctFirstSeen (l ++ [c]) =
  if decide (c ∈ l) then distinctFirstSeen l else distinctFirstSeen l ++ [c].
Proof.
  rewrite <- !dedupe_spec. unfold dedupe. rewrite foldl_app. simpl.
  fold (dedupe l). rewrite dedupe_spec. unfold dedupeStep.
  destruct (decide (c ∈ distinctFirstSeen l)) as [Hin|Hnin];
    rewrite elem_of_distinctFirstSeen in *.
  - by rewrite decide_True.
  - by rewrite decide_False.
Qed.

Lemma occurrences_snoc c' (l : list RGBA) c :
  occurrences c' (l ++ [c]) = occurrences c' l + if decide (c = c') then 1 else 0.
Proof.
  unfold occurrences. rewrite filter_app, length_app, filter_cons, filter_nil.
  destruct (decide (c = c')); simpl; lia.
Qed.

Lemma occurrences_notin c (l : list RGBA) : c ∉ l -> occurrences c l = 0.
Proof.
  intros Hnin. unfold occurrences.
  rewrite (filter_none _ l); [done|].
  intros x Hx ->. done.
Qed.

Lemma bump_map c (ks : list RGBA) (f : RGBA -> Z) :
  NoDup ks ->
  bump c (map (fun k => (k, f k)) ks) =
  if decide (c ∈ ks)
  then map (fun k => (k, f k + if decide (c = k) then 1 else 0)) ks
  else map (fun k => (k, f k)) ks ++ [(c, 1)].
Proof.
  induction 1 as [|k ks Hk Hnd IH]; [done|]. simpl.
  destruct (decide (c = k)) as [->|Hne].
  - rewrite decide_True by left. f_equal.
    apply map_ext_in. intros k' Hk'. apply list_elem_of_In in Hk'.
    rewrite decide_False by (intros ->; done). by rewrite Z.add_0_r.
  - rewrite IH. rewrite Z.add_0_r.
    destruct (decide (c ∈ ks)) as [Hin|Hnin].
    + rewrite decide_True by (by right). done.
    + rewrite decide_False; [done|]. intros Hc.
      apply elem_of_cons in Hc as [?|?]; done.
Qed.

Lemma bump_tally c (l : list RGBA) : bump c (tally l) = tally (l ++ [c]).
Proof.
  unfold tally. rewrite bump_map by apply NoDup_distinctFirstSeen.
  rewrite distinctFirstSeen_snoc.
  destruct (decide (c ∈ l)) as [Hin|Hnin].
  - rewrite decide_True by (by apply elem_of_distinctFirstSeen).
    apply map_ext. intros k. by rewrite occurrences_snoc.
  - rewrite decide_False by (by rewrite elem_of_distinctFirstSeen).
    rewrite map_app. simpl. f_equal.
    + apply map_ext_in. intros k Hk. apply list_elem_of_In in Hk.
      apply (proj1 (elem_of_distinctFirstSeen _ _)) in Hk.
      rewrite occurrences_snoc, decide_False by (intros ->; done).
      by rewrite Z.add_0_r.
    + rewrite occurrences_snoc, decide_True, occurrences_notin by done. done.
Qed.

Lemma foldl_bump_tally (l : list RGBA) :
  foldl (fun m c => bump c m) [] l = tally l.
Proof.
  induction l as [|c l IH] using rev_ind; [done|].
  by rewrite foldl_app, IH; simpl; rewrite bump_tally.
Qed.

Lemma extractColorsWithFrequency_tally img :
  extractColorsWithFrequency img = tally (extractAllColors img).
Proof.
  unfold extractColorsWithFrequency, extractAllColors.
  rewrite <- foldl_bump_tally.
  generalize (@nil (RGBA * Z)). induction (pixelsOf img) as [|c l IH]; intros m; [done|].
  simpl. rewrite filter_cons. destruct (opaque c) eqn:Hc.
  - rewrite decide_True by done. simpl. apply IH.
  - rewrite decide_False by done. apply IH.
Qed.

Lemma countUniqueColors_distinct img :
  countUniqueColors img = length (distinctFirstSeen (extractAllColors img)).
Proof.
  unfold countUniqueColors. rewrite extractColorsWithFrequency_tally.
  unfold tally. by rewrite length_map.
Qed.

(** ** The stable sort *)

Section SortFacts.
Context {A : Type} (cmp : A -> A -> Z).

Lemma insertBy_perm x l : insertBy cmp x l ≡ₚ x :: l.
Proof.
  induction l as [|y l IH]; [done|]. simpl.
  destruct (cmp y x <? 0); [|done].
  rewrite IH. apply Permutation_swap.
Qed.

Lemma sortBy_perm l : sortBy cmp l ≡ₚ l.
Proof.
  induction l as [|x l IH]; [done|]. unfold sortBy in *. simpl.
  by rewrite insertBy_perm, IH.
Qed.

Lemma sortBy_length l : length (sortBy cmp l) = length l.
Proof. apply Permutation_length, sortBy_perm. Qed.

(** The comparator orders by a key. *)
Context (key : A -> Z).
Hypothesis Hcmp : forall a b, cmp a b < 0 <-> key a < key b.

Lemma insertBy_sorted x l :
  StronglySorted (fun a b => key a <= key b) l ->
  StronglySorted (fun a b => key a <= key b) (insertBy cmp x l).
Proof.
  induction 1 as [|y l Hl IH Hy]; simpl.
  - repeat constructor.
  - destruct (Z.ltb_spec (cmp y x) 0) as [Hlt|Hge].
    + constructor; [done|]. apply Hcmp in Hlt.
      rewrite (insertBy_perm x l). constructor; [lia|done].
    + assert (key x <= key y) by (destruct (Hcmp y x); lia).
      constructor; [by constructor|]. constructor; [done|].
      eapply Forall_impl; [exact Hy|]. simpl. intros; lia.
Qed.

Lemma sortBy_sorted l : StronglySorted (fun a b => key a <= key b) (sortBy cmp l).
Proof.
  induction l as [|x l IH]; [constructor|]. unfold sortBy in *. simpl.
  by apply insertBy_sorted.
Qed.

(** Stability: entries with the same key keep their relative order. *)
Lemma insertBy_stable k x l :
  filter (fun a => key a = k) (insertBy cmp x l) =
  filter (fun a => key a = k) (x :: l).
Proof.
  induction l as [|y l IH]; [done|]. simpl.
  destruct (Z.ltb_spec (cmp y x) 0) as [Hlt|Hge]; [|done].
  apply Hcmp in Hlt. rewrite filter_cons, IH, !filter_cons.
  destruct (decide (key y = k)), (decide (key x = k)); try done; lia.
Qed.

Lemma sortBy_stable k l :
  filter (fun a => key a = k) (sortBy cmp l) = filter (fun a => key a = k) l.
Proof.
  induction l as [|x l IH]; [done|]. unfold sortBy in *. simpl.
  rewrite insertBy_stable, !filter_cons, IH. done.
Qed.
End SortFacts.

Lemma sortBy_map {A B : Type} (g : A -> B) (cmp : B -> B -> Z) (l : list A) :
  sortBy cmp (map g l) = map g (sortBy (fun a b => cmp (g a) (g b)) l).
Proof.
  induction l as [|x l IH]; [done|]. unfold sortBy in *. simpl. rewrite IH.
  generalize (foldr (insertBy (fun a b => cmp (g a) (g b))) [] l). intros s.
  induction s as [|y s IHs]; [done|]. simpl.
  destruct (cmp (g y) (g x) <? 0); [|done]. simpl. by rewrite IHs.
Qed.

Lemma sliceTo_all {A : Type} (n : Z) (l : list A) :
  Z.of_nat (length l) <= n -> sliceTo n l = l.
Proof.
  intros Hn. unfold sliceTo. destruct (Z.leb_spec 0 n); [|lia].
  apply take_ge. lia.
Qed.

(** ** K-means *)

Lemma seedLoop_count fuel targetCount colors c0 (centroids : list RGBA) :
  Z.of_nat (length centroids) <= targetCount ->
  (Z.to_nat (targetCount - Z.of_nat (length centroids)) < fuel)%nat ->
  exists res,
    seedLoop fuel targetCount colors c0 centroids = Some res /\
    Z.of_nat (length res) = targetCount.
Proof.
  revert centroids. induction fuel as [|fuel IH]; intros centroids Hle Hfuel; [lia|].
  simpl. destruct (Z.ltb_spec (Z.of_nat (length centroids)) targetCount) as [Hlt|Hge].
  - apply IH; rewrite length_app; simpl; lia.
  - exists centroids. split; [done|lia].
Qed.

Lemma refine_bound maxIterations colors (centroids : list RGBA) :
  length (refine maxIterations colors centroids).1 = length centroids /\
  ((refine maxIterations colors centroids).2 <= maxIterations)%nat.
Proof.
  revert centroids. induction maxIterations as [|n IH]; intros centroids; [done|].
  simpl.
  assert (Hlen : length (imap (updateCentroid colors centroids) centroids).*1
                 = length centroids)
    by (by rewrite length_fmap, length_imap).
  destruct (existsb snd (imap (updateCentroid colors centroids) centroids)).
  - destruct (IH (imap (updateCentroid colors centroids) centroids).*1) as [H1 H2].
    destruct (refine n colors _) as [res k]. simpl in *. split; [congruence|lia].
  - simpl. split; [done|lia].
Qed.

Lemma kMeansRun_dedupe pick colors targetCount maxIterations :
  Z.of_nat (length colors) <= targetCount ->
  kMeansRun pick colors targetCount maxIterations =
  Some (distinctFirstSeen colors, O).
Proof.
  intros Hle. unfold kMeansRun. destruct colors as [|c0 l]; [done|].
  destruct (Z.leb_spec (Z.of_nat (length (c0 :: l))) targetCount); [|lia].
  by rewrite dedupe_spec.
Qed.

Lemma kMeansRun_seeded pick colors targetCount maxIterations :
  (pick < length colors)%nat ->
  targetCount < Z.of_nat (length colors) ->
  exists res iters,
    kMeansRun pick colors targetCount maxIterations = Some (res, iters) /\
    (iters <= maxIterations)%nat /\
    (1 <= targetCount -> Z.of_nat (length res) = targetCount).
Proof.
  intros Hpick Hlt. unfold kMeansRun. destruct colors as [|c0 l]; [simpl in *; lia|].
  destruct (Z.leb_spec (Z.of_nat (length (c0 :: l))) targetCount); [lia|].
  destruct (lookup_lt_is_Some_2 (c0 :: l) pick Hpick) as [first Hfirst].
  rewrite Hfirst.
  destruct (Z.le_gt_cases 1 targetCount) as [Hpos|Hneg].
  - destruct (seedLoop_count (S (Z.to_nat targetCount)) targetCount (c0 :: l) c0 [first])
      as (seeds & Hseed & Hlen); [simpl; lia|simpl; lia|].
    rewrite Hseed.
    pose proof (refine_bound maxIterations (c0 :: l) seeds) as [H1 H2].
    destruct (refine maxIterations (c0 :: l) seeds) as [res iters].
    exists res, iters. simpl in *. split; [done|]. split; [done|]. intros _. lia.
  - assert (Hseed : seedLoop (S (Z.to_nat targetCount)) targetCount (c0 :: l) c0 [first]
                    = Some [first]).
    { cbn [seedLoop length]. change (Z.of_nat 1) with 1.
      destruct (Z.ltb_spec 1 targetCount); [lia|done]. }
    rewrite Hseed.
    pose proof (refine_bound maxIterations (c0 :: l) [first]) as [H1 H2].
    destruct (refine maxIterations (c0 :: l) [first]) as [res iters].
    exists res, iters. split; [done|]. split; [done|]. lia.
Qed.

(** C3, as the code has it: k-means returns, and its refinement loop makes
    at most 20 passes.  The shortcut that returns the deduplicated colours is
    taken when the number of opaque pixels (not of distinct colours) is at
    most [colorCount]; otherwise exactly [colorCount] centroids come back.
    So the count is [min(colorCount, distinct)] when [colorCount] is at most
    the number of distinct colours or at least the number of opaque pixels. *)
Theorem kMeans_count (pick : nat) (img : ImageData) (colorCount : Z) :
  let colors := extractAllColors img in
  let distinct := Z.of_nat (length (distinctFirstSeen colors)) in
  (colors <> [] -> (pick < length colors)%nat) ->
  exists centroids iters,
    kMeansRun pick colors colorCount 20 = Some (centroids, iters) /\
    extractPalette pick img colorCount KMeans = Some centroids /\
    (iters <= 20)%nat /\
    (Z.of_nat (length colors) <= colorCount ->
       centroids = distinctFirstSeen colors) /\
    (1 <= colorCount < Z.of_nat (length colors) ->
       Z.of_nat (length centroids) = colorCount) /\
    (1 <= colorCount <= distinct \/ Z.of_nat (length colors) <= colorCount ->
       Z.of_nat (length centroids) = Z.min colorCount distinct).
Proof.
  intros colors distinct Hpick.
  pose proof (length_distinctFirstSeen colors) as Hdl.
  destruct (decide (colors = [])) as [Hnil|Hne].
  { exists [], O. unfold extractPalette, kMeans, distinct. fold colors.
    rewrite Hnil. simpl. repeat split; try done; lia. }
  destruct (Z.le_gt_cases (Z.of_nat (length colors)) colorCount) as [Hle|Hgt].
  - exists (distinctFirstSeen colors), O.
    assert (Hrun := kMeansRun_dedupe pick colors colorCount 20 Hle).
    split; [exact Hrun|]. split.
    { unfold extractPalette, kMeans. fold colors. by rewrite Hrun. }
    split; [lia|]. split; [done|]. split; [lia|].
    intros _. unfold distinct. lia.
  - destruct (kMeansRun_seeded pick colors colorCount 20 (Hpick Hne) Hgt)
      as (res & iters & Hrun & Hit & Hlen).
    exists res, iters. split; [exact Hrun|]. split.
    { unfold extractPalette, kMeans. fold colors. by rewrite Hrun. }
    split; [done|]. split; [lia|]. split; [intros [? _]; auto|].
    intros [[H1 H2]|?]; [|lia]. rewrite Hlen by done. unfold distinct in *. lia.
Qed.

Lemma kMeans_count_witness :
  let img := mkImageData 2 2 [(255, 0, 0, 255); (0, 0, 255, 255);
                              (0, 255, 0, 255); (255, 0, 0, 255)] in
  exists centroids iters,
    kMeansRun 1 (extractAllColors img) 2 20 = Some (centroids, iters) /\
    (iters <= 20)%nat /\ Z.of_nat (length centroids) = 2.
Proof.
  intros img.
  destruct (kMeans_count 1 img 2) as (centroids & iters & Hrun & _ & Hit & _ & Hlen & _).
  { intros _. vm_compute. lia. }
  exists centroids, iters. split; [exact Hrun|]. split; [exact Hit|].
  apply Hlen. vm_compute. split; [discriminate|reflexivity].
Defined.

(** With fewer distinct colours than requested but more pixels than
    requested, the centroids are not [min(colorCount, distinct)] many: three
    red pixels and [colorCount = 2] give two (equal) centroids. *)
Lemma kMeans_count_exceeds_distinct :
  let img := mkImageData 3 1 [(255, 0, 0, 255); (255, 0, 0, 255); (255, 0, 0, 255)] in
  length (distinctFirstSeen (extractAllColors img)) = 1%nat /\
  (forall pick, (pick < 3)%nat ->
     extractPalette pick img 2 KMeans = Some [(255, 0, 0, 255); (255, 0, 0, 255)]) /\
  ~ (forall pick centroids, (pick < 3)%nat ->
       extractPalette pick img 2 KMeans = Some centroids ->
       Z.of_nat (length centroids) =
       Z.min 2 (Z.of_nat (length (distinctFirstSeen (extractAllColors img))))).
Proof.
  intros img.
  assert (Hall : forall pick, (pick < 3)%nat ->
     extractPalette pick img 2 KMeans = Some [(255, 0, 0, 255); (255, 0, 0, 255)]).
  { intros pick Hp. destruct pick as [|[|[|?]]]; [reflexivity..|lia]. }
  split; [reflexivity|]. split; [exact Hall|].
  intros H. specialize (H 0%nat _ ltac:(lia) (Hall 0%nat ltac:(lia))).
  vm_compute in H. discriminate.
Qed.

(** ** Median cut *)

Lemma scanBox_splittable boxes best i box :
  boxes !! i = Some box ->
  splittable boxes best -> splittable boxes (scanBox best (i, box)).
Proof.
  intros Hbox Hbest. unfold scanBox.
  destruct (Nat.leb_spec (length box) 1) as [|Hlen]; [done|].
  assert (Hch : forall chs best0, splittable boxes best0 ->
    splittable boxes
      (foldl (fun best channel =>
                if best.1.1 <? chanRange channel box
                then (chanRange channel box, i, channel) else best) best0 chs)).
  { induction chs as [|ch chs IH]; intros best0 H0; [done|]. simpl. apply IH.
    destruct (best0.1.1 <? chanRange ch box); [|done].
    intros _. exists box. simpl. split; [done|lia]. }
  by apply Hch.
Qed.

Lemma findSplit_splittable boxes : splittable boxes (findSplit boxes).
Proof.
  unfold findSplit.
  assert (Hall : Forall (fun ib => boxes !! ib.1 = Some ib.2) (imap pair boxes)).
  { apply Forall_forall. intros [i box] Hin.
    apply elem_of_lookup_imap in Hin as (j & b & [= -> ->] & Hj). done. }
  assert (Hinit : splittable boxes (-1, 0%nat, 0%nat)) by (intros H; simpl in H; lia).
  revert Hall Hinit. generalize (imap pair boxes) (-1, 0%nat, 0%nat).
  induction l as [|[i box] l IH]; intros best Hall Hbest; [done|].
  apply Forall_cons in Hall as [Hbox Hall]. simpl. apply IH; [done|].
  by apply scanBox_splittable.
Qed.

Lemma splitLoop_boxes fuel targetCount (boxes : list (list RGBA)) :
  Forall (fun box => box <> []) boxes ->
  (Z.to_nat (targetCount - Z.of_nat (length boxes)) < fuel)%nat ->
  exists res,
    splitLoop fuel targetCount boxes = Some res /\
    Forall (fun box => box <> []) res /\
    (length boxes <= length res)%nat /\
    Z.of_nat (length res) <= Z.max targetCount (Z.of_nat (length boxes)).
Proof.
  revert boxes. induction fuel as [|fuel IH]; intros boxes Hne Hfuel; [lia|].
  cbn [splitLoop].
  destruct (Z.ltb_spec (Z.of_nat (length boxes)) targetCount) as [Hlt|Hge].
  2: { exists boxes. repeat split; try done; lia. }
  pose proof (findSplit_splittable boxes) as Hsplit.
  destruct (findSplit boxes) as [[maxRange maxBoxIndex] splitChannel].
  destruct (Z.leb_spec maxRange 0) as [Hle|Hpos].
  { exists boxes. repeat split; try done; lia. }
  destruct (Hsplit Hpos) as (box & Hbox & Hlen). simpl in Hbox.
  cbv zeta. rewrite Hbox. cbn [default from_option id].
  set (sorted := sortBy _ box).
  assert (Hslen : length sorted = length box) by apply sortBy_length.
  assert (Hi : (maxBoxIndex < length boxes)%nat) by (by eapply lookup_lt_Some).
  assert (Hdiv : (1 <= length sorted / 2 < length sorted)%nat).
  { rewrite Hslen. split.
    - apply Nat.div_le_lower_bound; lia.
    - apply Nat.div_lt; lia. }
  clearbody sorted. set (median := (length sorted / 2)%nat) in *. clearbody median.
  edestruct (IH (take maxBoxIndex boxes
                   ++ [take median sorted; drop median sorted]
                   ++ drop (S maxBoxIndex) boxes))
    as (res & Hrun & Hres & Hl1 & Hl2).
  - apply Forall_app. split; [by apply Forall_take|].
    apply Forall_cons. split.
    { intros Hnil. apply (f_equal length) in Hnil.
      rewrite length_take in Hnil. simpl in Hnil. lia. }
    apply Forall_cons. split.
    { intros Hnil. apply (f_equal length) in Hnil.
      rewrite length_drop in Hnil. simpl in Hnil. lia. }
    by apply Forall_drop.
  - rewrite !length_app, length_take, length_drop. simpl. lia.
  - exists res. split; [exact Hrun|]. split; [done|].
    rewrite !length_app, length_take, length_drop in Hl1, Hl2. simpl in Hl1, Hl2.
    split; lia.
Qed.

Lemma omap_boxColor_length (boxes : list (list RGBA)) :
  Forall (fun box => box <> []) boxes ->
  length (omap boxColor boxes) = length boxes.
Proof.
  induction 1 as [|box boxes Hbox Hall IH]; [done|].
  destruct box as [|c box]; [done|].
  change (omap boxColor ((c :: box) :: boxes))
    with (meanColor (c :: box) :: omap boxColor boxes).
  simpl. by rewrite IH.
Qed.

Lemma medianCut_dedupe colors targetCount :
  Z.of_nat (length colors) <= targetCount ->
  medianCut colors targetCount = Some (distinctFirstSeen colors).
Proof.
  intros Hle. unfold medianCut. destruct colors as [|c0 l]; [done|].
  destruct (Z.leb_spec (Z.of_nat (length (c0 :: l))) targetCount); [|lia].
  simpl. by rewrite dedupe_spec.
Qed.

Lemma medianCut_boxes colors targetCount :
  colors <> [] ->
  targetCount < Z.of_nat (length colors) ->
  exists palette,
    medianCut colors targetCount = Some palette /\
    1 <= Z.of_nat (length palette) <= Z.max targetCount 1.
Proof.
  intros Hne Hlt. unfold medianCut.
  destruct colors as [|c0 l]; [done|].
  - destruct (Z.leb_spec (Z.of_nat (length (c0 :: l))) targetCount); [lia|].
    change (length (c0 :: l) =? 0)%nat with false. cbv iota.
    destruct (splitLoop_boxes (S (Z.to_nat targetCount)) targetCount [c0 :: l])
      as (res & Hrun & Hres & Hl1 & Hl2).
    + by repeat constructor.
    + simpl. lia.
    + rewrite Hrun. eexists. split; [reflexivity|].
      rewrite omap_boxColor_length by done. simpl in *. lia.
Qed.

(** ** Palettes *)

Lemma sliceTo_map {A B : Type} (g : A -> B) (n : Z) (l : list A) :
  map g (sliceTo n l) = sliceTo n (map g l).
Proof.
  unfold sliceTo. rewrite length_map.
  destruct (0 <=? n); apply (fmap_take g).
Qed.

(** The frequency palette: the distinct colours, stably sorted by descending
    count, cut to the requested number. *)
Lemma frequencyBased_sorted img colorCount :
  frequencyBased (extractColorsWithFrequency img) colorCount =
  sliceTo colorCount
    (sortBy (fun c1 c2 => occurrences c2 (extractAllColors img)
                          - occurrences c1 (extractAllColors img))
            (distinctFirstSeen (extractAllColors img))).
Proof.
  unfold frequencyBased.
  rewrite extractColorsWithFrequency_tally. unfold tally.
  rewrite sortBy_map, sliceTo_map, map_map. simpl. by rewrite map_id.
Qed.

Lemma StronglySorted_impl {A : Type} (R R' : A -> A -> Prop) (l : list A) :
  (forall a b, R a b -> R' a b) -> StronglySorted R l -> StronglySorted R' l.
Proof.
  intros HR. induction 1 as [|x l Hl IH Hx]; constructor; [done|].
  eapply Forall_impl; [exact Hx|]. auto.
Qed.

Lemma distinctFirstSeen_nonempty (l : list RGBA) :
  l <> [] -> (1 <= length (distinctFirstSeen l))%nat.
Proof. destruct l; [done|]. simpl. lia. Qed.

(** C2, as the code has it: median cut and k-means return the distinct
    opaque colours, deduplicated in first-seen order, when [colorCount] is at
    least the number of opaque pixels (their guard counts pixels, duplicates
    included); the frequency palette, when [colorCount] is at least the
    number of distinct opaque colours, holds every distinct colour once, in
    descending order of pixel count, equally frequent colours in first-seen
    order. *)
Theorem extractPalette_all_colors (pick : nat) (img : ImageData) (colorCount : Z) :
  let colors := extractAllColors img in
  let count c := occurrences c colors in
  (Z.of_nat (length colors) <= colorCount ->
     extractPalette pick img colorCount MedianCut = Some (distinctFirstSeen colors) /\
     extractPalette pick img colorCount KMeans = Some (distinctFirstSeen colors)) /\
  (Z.of_nat (length (distinctFirstSeen colors)) <= colorCount ->
     exists palette,
       extractPalette pick img colorCount Frequency = Some palette /\
       palette ≡ₚ distinctFirstSeen colors /\
       NoDup palette /\
       StronglySorted (fun c1 c2 => count c2 <= count c1) palette /\
       forall n, filter (fun c => count c = n) palette =
                 filter (fun c => count c = n) (distinctFirstSeen colors)).
Proof.
  intros colors count. split.
  - intros Hle. unfold extractPalette, kMeans. fold colors.
    rewrite medianCut_dedupe by done.
    by rewrite (kMeansRun_dedupe pick colors colorCount 20 Hle).
  - intros Hle. eexists. split.
    { unfold extractPalette. rewrite frequencyBased_sorted. fold colors.
      rewrite sliceTo_all by (by rewrite sortBy_length). reflexivity. }
    assert (Hcmp : forall a b : RGBA, count b - count a < 0 <-> - count a < - count b)
      by (intros; lia).
    split; [apply sortBy_perm|]. split.
    { rewrite sortBy_perm. apply NoDup_distinctFirstSeen. }
    split.
    { eapply StronglySorted_impl;
        [|apply (sortBy_sorted _ (fun c => - count c) Hcmp)].
      simpl. intros a b. lia. }
    intros n.
    pose proof (sortBy_stable _ (fun c => - count c) Hcmp (- n)
                  (distinctFirstSeen colors)) as Hst.
    etrans; [apply (list_filter_iff _ (fun c => - count c = - n)); intros; lia|].
    etrans; [apply Hst|]. apply list_filter_iff. intros; lia.
Qed.

Lemma extractPalette_all_colors_witness :
  let red := (255, 0, 0, 255) in
  let blue := (0, 0, 255, 255) in
  let img := mkImageData 3 1 [red; blue; blue] in
  extractPalette 0 img 3 MedianCut = Some [red; blue] /\
  extractPalette 0 img 3 KMeans = Some [red; blue] /\
  exists palette,
    extractPalette 0 img 2 Frequency = Some palette /\ palette ≡ₚ [red; blue].
Proof.
  intros red blue img.
  destruct (extractPalette_all_colors 0 img 3) as [Hcut _].
  destruct (extractPalette_all_colors 0 img 2) as [_ Hfreq].
  destruct Hcut as [H1 H2]; [vm_compute; discriminate|].
  destruct Hfreq as (palette & Hp & Hperm & _); [vm_compute; discriminate|].
  split; [exact H1|]. split; [exact H2|].
  exists palette. split; [exact Hp|exact Hperm].
Defined.

(** A [colorCount] that covers the distinct colours is not enough: with
    three red pixels and a blue one, median cut at 2 averages red with blue;
    k-means at 3 repeats a centroid; and the frequency palette of red, blue,
    blue starts with blue. *)
Lemma extractPalette_not_first_seen :
  let red := (255, 0, 0, 255) in
  let blue := (0, 0, 255, 255) in
  let img := mkImageData 4 1 [red; red; red; blue] in
  let img' := mkImageData 3 1 [red; blue; blue] in
  distinctFirstSeen (extractAllColors img) = [red; blue] /\
  distinctFirstSeen (extractAllColors img') = [red; blue] /\
  extractPalette 0 img 2 MedianCut = Some [(128, 0, 128, 255); red] /\
  extractPalette 0 img 3 KMeans = Some [red; blue; red] /\
  extractPalette 0 img' 2 Frequency = Some [blue; red] /\
  ~ (forall pick image colorCount algorithm,
       Z.of_nat (length (distinctFirstSeen (extractAllColors image))) <= colorCount ->
       extractPalette pick image colorCount algorithm
       = Some (distinctFirstSeen (extractAllColors image))).
Proof.
  intros red blue img img'.
  split; [reflexivity|]. split; [reflexivity|]. split; [reflexivity|].
  split; [reflexivity|]. split; [reflexivity|].
  intros H. specialize (H 0%nat img' 2 Frequency ltac:(vm_compute; discriminate)).
  vm_compute in H. discriminate.
Qed.

(** C5, as the code has it: on an image with an opaque pixel and for a
    requested count of at least 1, every algorithm returns a palette of at
    least one and at most [colorCount] colours; the frequency palette has no
    repeated colour; and for frequency and k-means the palette is shorter
    than requested only when the image has fewer distinct opaque colours
    than requested. *)
Theorem palette_size (pick : nat) (img : ImageData) (colorCount : Z)
    (algorithm : Algorithm) :
  let colors := extractAllColors img in
  let distinct := Z.of_nat (length (distinctFirstSeen colors)) in
  colors <> [] -> 1 <= colorCount -> (pick < length colors)%nat ->
  exists palette,
    extractPalette pick img colorCount algorithm = Some palette /\
    1 <= Z.of_nat (length palette) <= colorCount /\
    (algorithm = Frequency -> NoDup palette) /\
    (algorithm <> MedianCut ->
     Z.of_nat (length palette) < colorCount -> distinct < colorCount).
Proof.
  intros colors distinct Hne Hcount Hpick.
  pose proof (distinctFirstSeen_nonempty colors Hne) as Hd1.
  pose proof (length_distinctFirstSeen colors) as Hd2.
  destruct algorithm.
  - (* median cut *)
    unfold extractPalette. fold colors.
    destruct (Z.le_gt_cases (Z.of_nat (length colors)) colorCount) as [Hle|Hgt].
    + rewrite medianCut_dedupe by done. eexists. split; [reflexivity|].
      split; [lia|]. split; [done|]. intros Hc. by destruct Hc.
    + destruct (medianCut_boxes colors colorCount Hne Hgt) as (palette & Hrun & Hlen).
      exists palette. split; [exact Hrun|]. split; [lia|].
      split; [done|]. intros Hc. by destruct Hc.
  - (* k-means *)
    unfold extractPalette, kMeans. fold colors.
    destruct (Z.le_gt_cases (Z.of_nat (length colors)) colorCount) as [Hle|Hgt].
    + rewrite (kMeansRun_dedupe pick colors colorCount 20 Hle).
      eexists. split; [reflexivity|]. simpl.
      split; [lia|]. split; [done|]. unfold distinct. lia.
    + destruct (kMeansRun_seeded pick colors colorCount 20 Hpick Hgt)
        as (res & iters & Hrun & _ & Hlen).
      rewrite Hrun. exists res. split; [reflexivity|].
      rewrite (Hlen Hcount). split; [lia|]. split; [done|]. lia.
  - (* frequency *)
    unfold extractPalette. rewrite frequencyBased_sorted. fold colors.
    set (sorted := sortBy _ (distinctFirstSeen colors)).
    assert (Hslen : length sorted = length (distinctFirstSeen colors))
      by apply sortBy_length.
    assert (Hsperm : sorted ≡ₚ distinctFirstSeen colors) by apply sortBy_perm.
    eexists. split; [reflexivity|].
    unfold sliceTo. destruct (Z.leb_spec 0 colorCount); [|lia].
    rewrite length_take, Hslen. split; [lia|]. split.
    + intros _. apply (sublist_NoDup _ sorted); [|apply sublist_take].
      rewrite Hsperm. apply NoDup_distinctFirstSeen.
    + intros _. unfold distinct. lia.
Qed.

Lemma palette_size_witness :
  let img := mkImageData 2 2 [(255, 0, 0, 255); (0, 0, 255, 255);
                              (0, 255, 0, 255); (255, 0, 0, 255)] in
  exists palette,
    extractPalette 3 img 2 Frequency = Some palette /\
    1 <= Z.of_nat (length palette) <= 2 /\ NoDup palette.
Proof.
  intros img.
  destruct (palette_size 3 img 2 Frequency) as (palette & Hrun & Hlen & Hnd & _).
  - vm_compute. discriminate.
  - lia.
  - vm_compute. lia.
  - exists palette. split; [exact Hrun|]. split; [exact Hlen|]. by apply Hnd.
Defined.

(** A palette can have a single colour and can repeat a colour: one opaque
    pixel gives a palette of length 1 under every algorithm, and k-means on
    three red pixels with a requested count of 2 returns red twice. *)
Lemma palette_short_or_repeating :
  let red := (255, 0, 0, 255) in
  let one := mkImageData 1 1 [red] in
  let three := mkImageData 3 1 [red; red; red] in
  extractPalette 0 one 2 MedianCut = Some [red] /\
  extractPalette 0 one 2 KMeans = Some [red] /\
  extractPalette 0 one 2 Frequency = Some [red] /\
  extractPalette 0 three 2 KMeans = Some [red; red] /\
  ~ NoDup [red; red] /\
  ~ (forall pick image colorCount algorithm palette,
       extractAllColors image <> [] ->
       extractPalette pick image colorCount algorithm = Some palette ->
       NoDup palette /\ 2 <= Z.of_nat (length palette) <= colorCount).
Proof.
  intros red one three.
  split; [reflexivity|]. split; [reflexivity|]. split; [reflexivity|].
  split; [reflexivity|]. split.
  - intros Hnd. apply NoDup_cons in Hnd as [Hnin _]. apply Hnin. left.
  - intros H.
    destruct (H 0%nat one 2 Frequency [red]) as [_ Hlen];
      [vm_compute; discriminate|reflexivity|].
    simpl in Hlen. lia.
Qed.

(** * Further properties of the rasterizer *)

(** ** Picking a colour and using it *)







Example rgbaToHex_sample : rgbaToHex 255 128 9 = "#ff8009"%string.
Proof. reflexivity. Qed.

(** ** Strokes *)

Lemma drawBrush_stampPaint b centerX centerY isEraser cv :
  drawBrush b centerX centerY isEraser cv =
  paintAll (stampPaint b isEraser) cv
    (brushPixels (width cv) (height cv) (brushSize b) centerX centerY).
Proof. by destruct isEraser. Qed.

Lemma paintAll_app f cv l1 l2 :
  paintAll f cv (l1 ++ l2) = paintAll f (paintAll f cv l1) l2.
Proof. unfold paintAll. apply foldl_app. Qed.

(** A whole stroke is one pass of single-pixel paints. *)
Lemma stroke_paintAll b isEraser centers cv :
  foldl (fun cv p => drawBrush b p.1 p.2 isEraser cv) cv centers =
  paintAll (stampPaint b isEraser) cv
    (c ← centers; brushPixels (width cv) (height cv) (brushSize b) c.1 c.2).
Proof.
  revert cv. induction centers as [|c centers IH]; intros cv; [done|].
  simpl. rewrite IH, drawBrush_stampPaint, paintAll_width, paintAll_height.
  by rewrite paintAll_app.
Qed.

(** Painting with an idempotent paint: a pixel painted several times looks
    as if painted once. *)
Lemma paintAll_lookup_idemp f l cv x y :
  (forall c, f (f c) = f c) ->
  Forall (fun p => isPixelInBounds (width cv) (height cv) p.1 p.2 = true) l ->
  isPixelInBounds (width cv) (height cv) x y = true ->
  getPixel (paintAll f cv l) x y =
  if decide ((x, y) ∈ l) then f <$> getPixel cv x y else getPixel cv x y.
Proof.
  intros Hf. revert cv. induction l as [|[px py] l IH]; intros cv Hall Hxy.
  - unfold paintAll. simpl.
    destruct (decide ((x, y) ∈ [])) as [H|]; [by apply elem_of_nil in H|done].
  - apply Forall_cons in Hall as [Hp Hall]. simpl in Hp.
    unfold paintAll in *. simpl.
    rewrite IH; [|by rewrite paintPixel_width, paintPixel_height
                  |by rewrite paintPixel_width, paintPixel_height].
    rewrite paintPixel_lookup by done.
    destruct (decide ((x, y) = (px, py))) as [Heq|Hne].
    + rewrite (decide_True (P := (x, y) ∈ (px, py) :: l)) by (rewrite Heq; left).
      destruct (decide ((x, y) ∈ l)); [|done].
      destruct (getPixel cv x y); simpl; [by rewrite Hf|done].
    + destruct (decide ((x, y) ∈ l)) as [Hin|Hnin].
      * rewrite decide_True by (by right). done.
      * rewrite decide_False; [done|]. intros Hc.
        apply elem_of_cons in Hc as [?|?]; done.
Qed.

Lemma stampPaint_ink b isEraser :
  isEraser = true \/ alphaValue b = 255 ->
  forall c, stampPaint b isEraser c = stampInk b isEraser.
Proof.
  intros Hidem c. unfold stampPaint, stampInk.
  destruct isEraser; [done|]. destruct Hidem as [|Ha]; [done|].
  unfold brushStyle. destruct (hexToRgba (color b) (alphaValue b)) as [[[r g] b'] a].
  rewrite Ha. apply sourceOver_opaque.
Qed.

Lemma stroke_lookup b isEraser centers cv x y :
  isEraser = true \/ alphaValue b = 255 ->
  isPixelInBounds (width cv) (height cv) x y = true ->
  let cv' := foldl (fun cv p => drawBrush b p.1 p.2 isEraser cv) cv centers in
  (underStroke (brushSize b) centers x y ->
   getPixel cv' x y = (fun _ => stampInk b isEraser) <$> getPixel cv x y) /\
  (~ underStroke (brushSize b) centers x y -> getPixel cv' x y = getPixel cv x y).
Proof.
  intros Hidem Hxy cv'. unfold cv'. rewrite stroke_paintAll.
  pose proof (stampPaint_ink b isEraser Hidem) as Hink.
  rewrite paintAll_lookup_idemp; [| |idtac|done].
  - assert (Hiff : (x, y) ∈ (c ← centers;
               brushPixels (width cv) (height cv) (brushSize b) c.1 c.2)
             <-> underStroke (brushSize b) centers x y).
    { rewrite list_elem_of_bind. unfold underStroke.
      split; intros (c & H1 & H2); exists c.
      - apply elem_of_brushPixels in H1 as [_ H1]. done.
      - split; [|done]. by apply elem_of_brushPixels. }
    split; intros Hu.
    + rewrite decide_True by (by apply Hiff).
      destruct (getPixel cv x y); simpl; [by rewrite Hink|done].
    + rewrite decide_False; [done|]. by rewrite Hiff.
  - intros c. by rewrite !Hink.
  - apply Forall_forall. intros [px py] Hin.
    apply list_elem_of_bind in Hin as (c & Hin & _).
    by apply elem_of_brushPixels in Hin as [Hin _].
Qed.

Lemma stroke_size b isEraser centers cv :
  width (foldl (fun cv p => drawBrush b p.1 p.2 isEraser cv) cv centers) = width cv /\
  height (foldl (fun cv p => drawBrush b p.1 p.2 isEraser cv) cv centers) = height cv.
Proof. rewrite stroke_paintAll. split; [apply paintAll_width|apply paintAll_height]. Qed.

(** A dragged stroke segment with the eraser, or with the pencil at full
    opacity, changes exactly the in-bounds pixels under the footprint of some
    center of the line: each becomes transparent black (eraser) or the brush
    colour (pencil), however many stamps overlap there; every other pixel and
    the canvas size stay as they were. *)
Theorem drawLine_paints_union (tool : Tool) (b : Brush) (x0 y0 x1 y1 : Z)
    (cv : ImageData) :
  tool = eraser \/ alphaValue b = 255 ->
  exists centers cv',
    linePoints x0 y0 x1 y1 = Some centers /\
    drawLine tool b x0 y0 x1 y1 cv = Some cv' /\
    width cv' = width cv /\ height cv' = height cv /\
    forall x y,
      isPixelInBounds (width cv) (height cv) x y = true ->
      (underStroke (brushSize b) centers x y ->
       getPixel cv' x y
       = (fun _ => stampInk b (isEraserTool tool)) <$> getPixel cv x y) /\
      (~ underStroke (brushSize b) centers x y ->
       getPixel cv' x y = getPixel cv x y).
Proof.
  intros Hidem.
  destruct (linePoints_path x0 y0 x1 y1) as (pts & Hrun & _ & _).
  exists ((x0, y0) :: pts). eexists. split; [exact Hrun|].
  unfold drawLine, drawLineOnContext, runLine. rewrite lineLoop_fold.
  unfold linePoints, runLine in Hrun. rewrite Hrun. split; [reflexivity|].
  cbv beta.
  destruct (stroke_size b (isEraserTool tool) ((x0, y0) :: pts) cv) as [Hw Hh].
  split; [exact Hw|]. split; [exact Hh|].
  intros x y Hxy. apply stroke_lookup; [|done].
  destruct Hidem as [->|?]; [by left|by right].
Qed.

Lemma drawLine_paints_union_witness :
  let b := mkBrush 3 "#102030" (1 # 2) in
  let cv := mkImageData 4 2 (replicate 8 (9, 9, 9, 200)) in
  exists cv',
    drawLine eraser b 0 0 1 0 cv = Some cv' /\
    getPixel cv' 2 1 = Some (0, 0, 0, 0) /\
    getPixel cv' 3 1 = Some (9, 9, 9, 200).
Proof.
  intros b cv.
  destruct (drawLine_paints_union eraser b 0 0 1 0 cv)
    as (centers & cv' & Hpts & Hrun & _ & _ & Hpix); [by left|].
  vm_compute in Hpts. injection Hpts as <-.
  exists cv'. split; [exact Hrun|]. split.
  - destruct (Hpix 2 1 ltac:(reflexivity)) as [Hin _]. rewrite Hin; [reflexivity|].
    exists (1, 0). split; [right; left|]. vm_compute. do 8 right. left.
  - destruct (Hpix 3 1 ltac:(reflexivity)) as [_ Hout]. rewrite Hout; [reflexivity|].
    intros (c & Hc & Hoff). apply elem_of_brushOffsets in Hoff.
    change (brushSize b) with 3 in Hoff. change (3 / 2) with 1 in Hoff.
    apply elem_of_cons in Hc as [->|Hc]; [simpl in Hoff; lia|].
    apply list_elem_of_singleton in Hc as ->. simpl in Hoff. lia.
Defined.

(** A click with the pencil or eraser: nothing happens when the clicked
    pixel is outside the image, even if the footprint would reach into it,
    and nothing for any other tool; an eraser click inside clears exactly
    the in-bounds footprint pixels to transparent black. *)
Theorem drawPixel_eraser (tool : Tool) (b : Brush) (x y : Z) (cv : ImageData) :
  (isPixelInBounds (width cv) (height cv) x y = false \/
   (tool <> pencil /\ tool <> eraser) -> drawPixel tool b x y cv = cv) /\
  (isPixelInBounds (width cv) (height cv) x y = true ->
   forall x' y',
     isPixelInBounds (width cv) (height cv) x' y' = true ->
     getPixel (drawPixel eraser b x y cv) x' y' =
     if decide ((x' - x, y' - y) ∈ brushOffsets (brushSize b))
     then (fun _ => (0, 0, 0, 0)) <$> getPixel cv x' y'
     else getPixel cv x' y').
Proof.
  split.
  - intros [Hout|[Hp He]]; unfold drawPixel.
    + by rewrite Hout.
    + destruct (isPixelInBounds _ _ x y); simpl; [|done]. by destruct tool.
  - intros Hin x' y' Hxy. unfold drawPixel. rewrite Hin. simpl.
    rewrite drawBrush_stampPaint.
    rewrite paintAll_lookup; [|apply NoDup_brushPixels| |done].
    + destruct (decide ((x' - x, y' - y) ∈ brushOffsets (brushSize b))) as [Ho|Ho].
      * rewrite decide_True; [done|]. by apply elem_of_brushPixels.
      * rewrite decide_False; [done|]. intros Hc.
        by apply elem_of_brushPixels in Hc as [_ Hc].
    + apply Forall_forall. intros [px py] Hp.
      by apply elem_of_brushPixels in Hp as [Hp _].
Qed.

Lemma drawPixel_eraser_witness :
  let b := mkBrush 2 "#ffffff" 1 in
  let cv := mkImageData 2 2 (replicate 4 (7, 7, 7, 255)) in
  drawPixel eraser b (-1) 0 cv = cv /\
  getPixel (drawPixel eraser b 1 1 cv) 0 0 = Some (0, 0, 0, 0).
Proof.
  intros b cv. destruct (drawPixel_eraser eraser b (-1) 0 cv) as [Hnoop _].
  destruct (drawPixel_eraser eraser b 1 1 cv) as [_ Hpix].
  split; [apply Hnoop; by left|].
  rewrite (Hpix ltac:(reflexivity) 0 0 ltac:(reflexivity)). reflexivity.
Defined.

(** ** Length of a rasterized line *)

Section BresenhamLength.
Variables (x0 y0 x1 y1 dx dy sx sy : Z).
Hypothesis Hdx : 0 <= dx.
Hypothesis Hdy : 0 <= dy.
Hypothesis Hsx : sx = 1 \/ sx = -1.
Hypothesis Hsy : sy = 1 \/ sy = -1.
Hypothesis Hx1 : x1 = x0 + sx * dx.
Hypothesis Hy1 : y1 = y0 + sy * dy.

(** When the line is at least as wide as tall every pass steps in x: the
    deviation [b * dx - a * dy] never drops below [- dx / 2]. *)
Lemma lineLoop_length_wide fuel a b :
  dy <= dx ->
  0 <= a <= dx -> 0 <= b <= dy ->
  - dx <= 2 * (b * dx - a * dy) ->
  (dx = dy -> b * dx - a * dy = 0) ->
  (Z.to_nat (dx - a) < fuel)%nat ->
  exists pts,
    lineLoop tracePoint x1 y1 dx dy sx sy fuel
      ((b + 1) * dx - (a + 1) * dy) (x0 + sx * a) (y0 + sy * b) [] = Some pts
    /\ Z.of_nat (length pts) = dx - a + 1.
Proof.
  intros Hwide. revert a b.
  induction fuel as [|fuel IH]; intros a b Ha Hb Hdev Hdiag Hfuel; [lia|].
  simpl.
  destruct ((x0 + sx * a =? x1) && (y0 + sy * b =? y1)) eqn:Hend.
  - apply andb_true_iff in Hend as [Hex%Z.eqb_eq Hey%Z.eqb_eq].
    assert (a = dx) by (subst x1; nia).
    exists [(x0 + sx * a, y0 + sy * b)]. split; [done|]. simpl. lia.
  - assert (Hne : a < dx \/ b < dy).
    { apply andb_false_iff in Hend as [H%Z.eqb_neq|H%Z.eqb_neq]; subst x1 y1.
      - left. destruct (decide (a = dx)); [subst; lia|lia].
      - right. destruct (decide (b = dy)); [subst; lia|lia]. }
    set (err := (b + 1) * dx - (a + 1) * dy).
    assert (Hxs : - dy < 2 * err -> a < dx) by (unfold err; nia).
    assert (Hys : 2 * err < dx -> b < dy) by (unfold err; nia).
    assert (Hstep : - dy < 2 * err).
    { unfold err. destruct (decide (dx = dy)) as [Heq|Hneq].
      - specialize (Hdiag Heq). nia.
      - nia. }
    destruct (Z.ltb_spec (- dy) (2 * err)) as [Hx|Hx]; [|lia].
    destruct (Z.ltb_spec (2 * err) dx) as [Hy|Hy].
    + destruct (IH (a + 1) (b + 1)) as (pts & Hrun & Hlen);
        [lia|lia|nia|intros Heq; specialize (Hdiag Heq); nia|lia|].
      replace (err - dy + dx) with ((b + 1 + 1) * dx - (a + 1 + 1) * dy) by (unfold err; ring).
      replace (x0 + sx * a + sx) with (x0 + sx * (a + 1)) by ring.
      replace (y0 + sy * b + sy) with (y0 + sy * (b + 1)) by ring.
      rewrite lineLoop_trace_app, Hrun. simpl.
      eexists. split; [reflexivity|]. simpl. lia.
    + destruct (IH (a + 1) b) as (pts & Hrun & Hlen);
        [lia|lia|unfold err in Hy; nia
        |intros Heq; specialize (Hdiag Heq); unfold err in Hy; nia|lia|].
      replace (err - dy) with ((b + 1) * dx - (a + 1 + 1) * dy) by (unfold err; ring).
      replace (x0 + sx * a + sx) with (x0 + sx * (a + 1)) by ring.
      rewrite lineLoop_trace_app, Hrun. simpl.
      eexists. split; [reflexivity|]. simpl. lia.
Qed.

(** When the line is at least as tall as wide every pass steps in y. *)
Lemma lineLoop_length_tall fuel a b :
  dx <= dy ->
  0 <= a <= dx -> 0 <= b <= dy ->
  2 * (b * dx - a * dy) <= dy ->
  (dx = dy -> b * dx - a * dy = 0) ->
  (Z.to_nat (dy - b) < fuel)%nat ->
  exists pts,
    lineLoop tracePoint x1 y1 dx dy sx sy fuel
      ((b + 1) * dx - (a + 1) * dy) (x0 + sx * a) (y0 + sy * b) [] = Some pts
    /\ Z.of_nat (length pts) = dy - b + 1.
Proof.
  intros Htall. revert a b.
  induction fuel as [|fuel IH]; intros a b Ha Hb Hdev Hdiag Hfuel; [lia|].
  simpl.
  destruct ((x0 + sx * a =? x1) && (y0 + sy * b =? y1)) eqn:Hend.
  - apply andb_true_iff in Hend as [Hex%Z.eqb_eq Hey%Z.eqb_eq].
    assert (b = dy) by (subst y1; nia).
    exists [(x0 + sx * a, y0 + sy * b)]. split; [done|]. simpl. lia.
  - assert (Hne : a < dx \/ b < dy).
    { apply andb_false_iff in Hend as [H%Z.eqb_neq|H%Z.eqb_neq]; subst x1 y1.
      - left. destruct (decide (a = dx)); [subst; lia|lia].
      - right. destruct (decide (b = dy)); [subst; lia|lia]. }
    set (err := (b + 1) * dx - (a + 1) * dy).
    assert (Hxs : - dy < 2 * err -> a < dx) by (unfold err; nia).
    assert (Hys : 2 * err < dx -> b < dy) by (unfold err; nia).
    assert (Hstep : 2 * err < dx).
    { unfold err. destruct (decide (dx = dy)) as [Heq|Hneq].
      - specialize (Hdiag Heq). nia.
      - nia. }
    destruct (Z.ltb_spec (2 * err) dx) as [Hy|Hy]; [|lia].
    destruct (Z.ltb_spec (- dy) (2 * err)) as [Hx|Hx].
    + destruct (IH (a + 1) (b + 1)) as (pts & Hrun & Hlen);
        [lia|lia|nia|intros Heq; specialize (Hdiag Heq); nia|lia|].
      replace (err - dy + dx) with ((b + 1 + 1) * dx - (a + 1 + 1) * dy) by (unfold err; ring).
      replace (x0 + sx * a + sx) with (x0 + sx * (a + 1)) by ring.
      replace (y0 + sy * b + sy) with (y0 + sy * (b + 1)) by ring.
      rewrite lineLoop_trace_app, Hrun. simpl.
      eexists. split; [reflexivity|]. simpl. lia.
    + destruct (IH a (b + 1)) as (pts & Hrun & Hlen);
        [lia|lia|unfold err in Hx; nia
        |intros Heq; specialize (Hdiag Heq); unfold err in Hx; nia|lia|].
      replace (err + dx) with ((b + 1 + 1) * dx - (a + 1) * dy) by (unfold err; ring).
      replace (y0 + sy * b + sy) with (y0 + sy * (b + 1)) by ring.
      rewrite lineLoop_trace_app, Hrun. simpl.
      eexists. split; [reflexivity|]. simpl. lia.
Qed.
End BresenhamLength.

(** Between any two points the line stamps the brush exactly
    [max(|x1 - x0|, |y1 - y0|) + 1] times: one stamp per step along the longer
    axis, the end points included. *)
Theorem linePoints_length (x0 y0 x1 y1 : Z) :
  exists pts,
    linePoints x0 y0 x1 y1 = Some pts /\
    Z.of_nat (length pts) = Z.max (Z.abs (x1 - x0)) (Z.abs (y1 - y0)) + 1.
Proof.
  unfold linePoints, runLine, lineFuel.
  set (dx := Z.abs (x1 - x0)). set (dy := Z.abs (y1 - y0)).
  set (sx := if x0 <? x1 then 1 else -1). set (sy := if y0 <? y1 then 1 else -1).
  assert (Hsx : sx = 1 \/ sx = -1) by (unfold sx; destruct (x0 <? x1); auto).
  assert (Hsy : sy = 1 \/ sy = -1) by (unfold sy; destruct (y0 <? y1); auto).
  assert (Hx1 : x1 = x0 + sx * dx) by (unfold sx, dx; destruct (Z.ltb_spec x0 x1); lia).
  assert (Hy1 : y1 = y0 + sy * dy) by (unfold sy, dy; destruct (Z.ltb_spec y0 y1); lia).
  assert (Hdx : 0 <= dx) by (unfold dx; lia).
  assert (Hdy : 0 <= dy) by (unfold dy; lia).
  destruct (Z.le_ge_cases dy dx) as [Hwide|Htall].
  - destruct (lineLoop_length_wide x0 y0 x1 y1 dx dy sx sy Hdx Hdy Hsx Hsy Hx1 Hy1
                (S (Z.to_nat (dx + dy))) 0 0) as (pts & Hrun & Hlen); try lia.
    exists pts.
    replace ((0 + 1) * dx - (0 + 1) * dy) with (dx - dy) in Hrun by ring.
    replace (x0 + sx * 0) with x0 in Hrun by ring.
    replace (y0 + sy * 0) with y0 in Hrun by ring.
    split; [exact Hrun|lia].
  - destruct (lineLoop_length_tall x0 y0 x1 y1 dx dy sx sy Hdx Hdy Hsx Hsy Hx1 Hy1
                (S (Z.to_nat (dx + dy))) 0 0) as (pts & Hrun & Hlen); try lia.
    exists pts.
    replace ((0 + 1) * dx - (0 + 1) * dy) with (dx - dy) in Hrun by ring.
    replace (x0 + sx * 0) with x0 in Hrun by ring.
    replace (y0 + sy * 0) with y0 in Hrun by ring.
    split; [exact Hrun|lia].
Qed.

(** ** Axis-aligned lines and the rectangle outline *)


Lemma runLine_trace x0 y0 x1 y1 acc :
  runLine tracePoint x0 y0 x1 y1 acc = app acc <$> linePoints x0 y0 x1 y1.
Proof. unfold linePoints, runLine. apply lineLoop_trace_app. Qed.






Example rectanglePoints_2x2 :
  rectanglePoints 1 1 0 0
  = Some [(0, 0); (1, 0); (0, 1); (1, 1); (0, 0); (0, 1); (1, 0); (1, 1)].
Proof. reflexivity. Qed.

(** ** Flood fill on any buffer *)

Section FloodRegion.
Variables (cv : ImageData) (target fill : RGBA) (startX startY : Z).
Hypothesis Hwf : wfImage cv.
Hypothesis Hseed : inside (width cv) (height cv) (startX, startY).
Hypothesis Hseedcol : getPixel cv startX startY = Some target.

Local Abbreviation rInv := (regionInv cv target fill startX startY).
Local Abbreviation region := (fillRegion cv target startX startY).

Lemma regionInv_start : rInv (data cv) [(startX, startY)] ∅.
Proof.
  split.
  - done.
  - intros p Hp. by apply elem_of_empty in Hp.
  - done.
  - intros p q Hp. by apply elem_of_empty in Hp.
  - right. left.
  - intros q Hq. apply list_elem_of_singleton in Hq. by left.
Qed.

Lemma regionInv_skip dat x y stack visited :
  rInv dat ((x, y) :: stack) visited ->
  ((x, y) ∈ visited \/ ~ inside (width cv) (height cv) (x, y) \/
   getPixel cv x y <> Some target) ->
  rInv dat stack visited.
Proof.
  intros [Hlen Hvis Hrest Hfront Hsd Hstack] Hwhy. split; [done|done|done|..].
  - intros p q Hp Hq Hqin Hqt.
    destruct (Hfront p q Hp Hq Hqin Hqt) as [?|Hin]; [by left|].
    apply elem_of_cons in Hin as [->|?]; [|by right].
    destruct Hwhy as [?|[?|?]]; [by left|done|done].
  - destruct Hsd as [?|Hin]; [by left|].
    apply elem_of_cons in Hin as [Heq|?]; [|by right].
    injection Heq as <- <-.
    destruct Hwhy as [?|[?|?]]; [by left|done|done].
  - intros q Hq. apply Hstack. by right.
Qed.

Lemma regionInv_paint dat x y stack visited :
  rInv dat ((x, y) :: stack) visited ->
  (x, y) ∉ visited ->
  inside (width cv) (height cv) (x, y) ->
  dat !! pixelIndex (width cv) x y = Some target ->
  rInv (<[pixelIndex (width cv) x y := fill]> dat)
    ((x, y - 1) :: (x, y + 1) :: (x - 1, y) :: (x + 1, y) :: stack)
    ({[(x, y)]} ∪ visited).
Proof.
  intros [Hlen Hvis Hrest Hfront Hsd Hstack] Hnv Hxy Hdat.
  destruct Hwf as (Hw & Hh & Hsize).
  assert (Horig : getPixel cv x y = Some target).
  { pose proof (Hrest (x, y) Hxy Hnv) as Hr. simpl in Hr. by rewrite <- Hr. }
  assert (Hreg : region (x, y)).
  { destruct (Hstack (x, y) ltac:(left)) as [->|(p & Hp & Hn)]; [constructor|].
    destruct (Hvis p Hp) as (_ & Hrp & _). by eapply region_step. }
  assert (Hhere : filled (width cv) fill (<[pixelIndex (width cv) x y := fill]> dat) (x, y)).
  { unfold filled. simpl. apply list_lookup_insert_eq.
    rewrite Hlen, Hsize. destruct Hxy. by apply pixelIndex_lt. }
  split.
  - by rewrite length_insert.
  - intros p Hp. apply elem_of_union in Hp as [Hp|Hp].
    + apply elem_of_singleton in Hp as ->. done.
    + destruct (Hvis p Hp) as (? & ? & ?). split; [done|]. split; [done|].
      by apply filled_insert.
  - intros p Hp Hnp. rewrite list_lookup_insert_ne.
    + apply Hrest; [done|]. intros Hc. apply Hnp. apply elem_of_union. by right.
    + intros Heq. apply Hnp. apply elem_of_union. left. apply elem_of_singleton.
      destruct p as [a b], Hp, Hxy. simpl in *. symmetry.
      eapply pixelIndex_inj; [..|exact Heq]; lia.
  - intros p q Hp Hq Hqin Hqt. apply elem_of_union in Hp as [Hp|Hp].
    + apply elem_of_singleton in Hp as ->. right.
      change (q ∈ neighbours (x, y) ++ stack). apply elem_of_app. by left.
    + destruct (Hfront p q Hp Hq Hqin Hqt) as [?|Hin].
      * left. apply elem_of_union. by right.
      * apply elem_of_cons in Hin as [->|?].
        -- left. apply elem_of_union. left. by apply elem_of_singleton.
        -- right. change (q ∈ neighbours (x, y) ++ stack). apply elem_of_app. by right.
  - destruct Hsd as [?|Hin].
    + left. apply elem_of_union. by right.
    + apply elem_of_cons in Hin as [->|?].
      * left. apply elem_of_union. left. by apply elem_of_singleton.
      * right. change ((startX, startY) ∈ neighbours (x, y) ++ stack).
        apply elem_of_app. by right.
  - intros q Hq. change (q ∈ neighbours (x, y) ++ stack) in Hq.
    apply elem_of_app in Hq as [Hq|Hq].
    + right. exists (x, y). split; [|done].
      apply elem_of_union. left. by apply elem_of_singleton.
    + destruct (Hstack q ltac:(by right)) as [?|(p & Hp & Hn)]; [by left|].
      right. exists p. split; [|done]. apply elem_of_union. by right.
Qed.

Lemma floodLoop_regionInv fuel dat stack visited dat' :
  rInv dat stack visited ->
  floodLoop fuel (width cv) (height cv) (Some target) fill dat stack visited = Some dat' ->
  exists visited', rInv dat' [] visited'.
Proof.
  revert dat stack visited.
  induction fuel as [|fuel IH]; intros dat stack visited Hinv Hrun; [done|].
  destruct stack as [|[x y] stack]; simpl in Hrun.
  { injection Hrun as <-. eauto. }
  destruct (decide ((x, y) ∈ visited)) as [Hv|Hv].
  { eapply IH; [|exact Hrun]. eapply regionInv_skip; [exact Hinv|by left]. }
  destruct ((x <? 0) || (width cv <=? x) || (y <? 0) || (height cv <=? y)) eqn:Hout.
  { eapply IH; [|exact Hrun]. eapply regionInv_skip; [exact Hinv|].
    right. left. intros [Hx Hy]. simpl in *.
    assert ((x <? 0) || (width cv <=? x) || (y <? 0) || (height cv <=? y) = false)
      by (apply outside_false; lia).
    congruence. }
  apply outside_false in Hout.
  destruct (decide (dat !! pixelIndex (width cv) x y = Some target)) as [Ht|Ht].
  - eapply IH; [|exact Hrun]. by apply regionInv_paint.
  - eapply IH; [|exact Hrun]. eapply regionInv_skip; [exact Hinv|].
    do 2 right. pose proof (rinv_rest _ _ _ _ _ _ _ _ Hinv (x, y) Hout Hv) as Hr.
    simpl in Hr. by rewrite <- Hr.
Qed.

Lemma regionInv_done dat visited p :
  rInv dat [] visited ->
  inside (width cv) (height cv) p ->
  (region p -> dat !! pixelIndex (width cv) p.1 p.2 = Some fill) /\
  (~ region p -> dat !! pixelIndex (width cv) p.1 p.2 = getPixel cv p.1 p.2).
Proof.
  intros Hinv Hp.
  assert (Hall : forall q, region q -> q ∈ visited).
  { induction 1 as [|a q Ha IHa Hq Hqin Hqt].
    - destruct (rinv_seed _ _ _ _ _ _ _ _ Hinv) as [?|Hin]; [done|].
      by apply elem_of_nil in Hin.
    - destruct (rinv_front _ _ _ _ _ _ _ _ Hinv a q IHa Hq Hqin Hqt) as [?|Hin]; [done|].
      by apply elem_of_nil in Hin. }
  split.
  - intros Hr. by destruct (rinv_visited _ _ _ _ _ _ _ _ Hinv p (Hall p Hr)) as (_ & _ & ?).
  - intros Hnr. apply (rinv_rest _ _ _ _ _ _ _ _ Hinv p Hp).
    intros Hv. apply Hnr.
    by destruct (rinv_visited _ _ _ _ _ _ _ _ Hinv p Hv) as (_ & ? & _).
Qed.
End FloodRegion.

(** The fill tool on any well-formed buffer.  A seed outside the image, or a
    seed that already has the fill colour, leaves the canvas untouched.
    Otherwise the fill returns and recolours exactly the region of the seed:
    the pixels of the seed's colour reachable from the seed through edge
    neighbours of that colour all get the fill colour (alpha 255), and every
    other pixel keeps its value; diagonal contact does not spread the fill. *)
Theorem floodFill_region (color : string) (startX startY : Z) (cv : ImageData) :
  let fill := hexToRgba color 255 in
  (isPixelInBounds (width cv) (height cv) startX startY = false \/
   getPixel cv startX startY = Some fill ->
   floodFill color startX startY cv = Some cv) /\
  (forall target,
     wfImage cv ->
     isPixelInBounds (width cv) (height cv) startX startY = true ->
     getPixel cv startX startY = Some target ->
     target <> fill ->
     exists cv',
       floodFill color startX startY cv = Some cv' /\
       width cv' = width cv /\ height cv' = height cv /\
       forall x y,
         isPixelInBounds (width cv) (height cv) x y = true ->
         (fillRegion cv target startX startY (x, y) ->
          getPixel cv' x y = Some fill) /\
         (~ fillRegion cv target startX startY (x, y) ->
          getPixel cv' x y = getPixel cv x y)).
Proof.
  intros fill. split.
  - intros [Hout|Hsame]; unfold floodFill.
    + by rewrite Hout.
    + destruct (isPixelInBounds _ _ startX startY); simpl; [|done].
      unfold getPixel in Hsame. fold fill. rewrite Hsame.
      by rewrite decide_True.
  - intros target Hwf Hin Hcol Hne. unfold floodFill. rewrite Hin. simpl.
    pose proof Hcol as Hcol'. unfold getPixel in Hcol. fold fill. rewrite Hcol.
    rewrite decide_False by congruence.
    edestruct (floodLoop_total (width cv) (height cv) target fill) with
      (fuel := floodFuel cv) (dat := data cv) (stack := [(startX, startY)])
      (visited := (∅ : gset (Z * Z))) as [dat' Hrun]; [congruence| |].
    { unfold floodFuel. pose proof (pending_le target (data cv)). simpl. lia. }
    rewrite Hrun. eexists. split; [reflexivity|]. simpl.
    split; [done|]. split; [done|].
    assert (Hseed : inside (width cv) (height cv) (startX, startY)).
    { apply isPixelInBounds_true in Hin. done. }
    destruct (floodLoop_regionInv cv target fill startX startY Hwf Hseed Hcol'
                _ _ _ _ _ (regionInv_start cv target fill startX startY) Hrun)
      as [visited' Hinv].
    intros x y Hxy. apply isPixelInBounds_true in Hxy.
    exact (regionInv_done cv target fill startX startY _ _ (x, y) Hinv Hxy).
Qed.

Lemma floodFill_region_witness :
  let t := (255, 255, 255, 255) in
  let k := (10, 20, 30, 255) in
  let cv := mkImageData 3 2 [t; k; t;
                             k; t; t] in
  exists cv',
    floodFill "#ff0000" 2 0 cv = Some cv' /\
    getPixel cv' 1 1 = Some (255, 0, 0, 255) /\
    floodFill "#ff0000" 5 5 cv = Some cv.
Proof.
  intros t k cv.
  destruct (floodFill_region "#ff0000" 2 0 cv) as [_ Hfill].
  destruct (floodFill_region "#ff0000" 5 5 cv) as [Hnoop _].
  destruct (Hfill t) as (cv' & Hrun & _ & _ & Hpix).
  - repeat split; simpl; lia.
  - reflexivity.
  - reflexivity.
  - vm_compute. discriminate.
  - exists cv'. split; [exact Hrun|]. split.
    + apply (Hpix 1 1); [reflexivity|].
      apply (region_step _ _ _ _ (2, 1)); [|right; right; left|split; simpl; lia|reflexivity].
      apply (region_step _ _ _ _ (2, 0)); [constructor|right; left|split; simpl; lia|reflexivity].
    + apply Hnoop. by left.
Defined.

(** ** Brush shapes of the toolbar *)

Lemma elem_of_run size d : d ∈ seqZ (- (size / 2)) size <-> inRun size d.
Proof. rewrite elem_of_seqZ. unfold inRun. lia. Qed.

Lemma elem_of_grid (P : Z -> Z -> bool) (run : list Z) dx dy :
  (dx, dy) ∈ (y ← run; x ← run; if P x y then [(x, y)] else []) <->
  dx ∈ run /\ dy ∈ run /\ P dx dy = true.
Proof.
  rewrite list_elem_of_bind. split.
  - intros (y & Hin & Hy). apply list_elem_of_bind in Hin as (x & Hin & Hx).
    destruct (P x y) eqn:HP; [|by apply elem_of_nil in Hin].
    apply list_elem_of_singleton in Hin. injection Hin as -> ->. done.
  - intros (Hx & Hy & HP). exists dy. split; [|done].
    apply list_elem_of_bind. exists dx. split; [|done]. rewrite HP. left.
Qed.

Lemma NoDup_grid (P : Z -> Z -> bool) (run : list Z) :
  NoDup run -> NoDup (y ← run; x ← run; if P x y then [(x, y)] else []).
Proof.
  intros Hrun. apply NoDup_bind; [| |done].
  - intros y1 y2 p _ _ H1 H2.
    apply list_elem_of_bind in H1 as (a & H1 & _), H2 as (b & H2 & _).
    destruct (P a y1); [|by apply elem_of_nil in H1].
    destruct (P b y2); [|by apply elem_of_nil in H2].
    apply list_elem_of_singleton in H1, H2. congruence.
  - intros y _. apply NoDup_bind; [| |done].
    + intros a b p _ _ H1 H2.
      destruct (P a y); [|by apply elem_of_nil in H1].
      destruct (P b y); [|by apply elem_of_nil in H2].
      apply list_elem_of_singleton in H1, H2. congruence.
    + intros a _. destruct (P a y); [apply NoDup_singleton|constructor].
Qed.

Lemma elem_of_getBrushPixels (size : Z) (shape : BrushShape) dx dy :
  (dx, dy) ∈ getBrushPixels size shape <-> inShape size shape dx dy.
Proof.
  destruct shape; unfold getBrushPixels, inShape; cbv zeta.
  - change ((dx, dy) ∈ brushOffsets size <-> inRun size dx /\ inRun size dy).
    rewrite elem_of_brushOffsets. unfold inRun. tauto.
  - rewrite (elem_of_grid (inCircle size)), !elem_of_run. tauto.
  - rewrite (elem_of_grid (fun x y => Z.abs x + Z.abs y <=? size / 2)), !elem_of_run.
    rewrite Z.leb_le. tauto.
  - rewrite list_elem_of_fmap. setoid_rewrite elem_of_run. split.
    + by intros (a & [= -> ->] & Ha).
    + intros (Hx & ->). by exists dx.
  - rewrite list_elem_of_fmap. setoid_rewrite elem_of_run. split.
    + by intros (a & [= -> ->] & Ha).
    + intros (-> & Hy). by exists dy.
  - rewrite list_elem_of_fmap. setoid_rewrite elem_of_run. split.
    + by intros (a & [= -> ->] & Ha).
    + intros (Hx & ->). by exists dx.
  - rewrite list_elem_of_fmap. setoid_rewrite elem_of_run. split.
    + by intros (a & [= -> ->] & Ha).
    + intros (Hx & ->). by exists dx.
Qed.

(** What [getBrushPixels] resolves a shape to, without repetition: the box
    shapes (square, circle, diamond) are the offsets of the bounding box
    [-half .. size - 1 - half] in both axes that pass the shape's test; the
    line shapes are one offset per position of the run, so the slash of an
    even size reaches one row above the box. *)
Theorem getBrushPixels_spec (size : Z) (shape : BrushShape) :
  NoDup (getBrushPixels size shape) /\
  forall dx dy,
    (dx, dy) ∈ getBrushPixels size shape <-> inShape size shape dx dy.
Proof.
  split; [|apply elem_of_getBrushPixels].
  pose proof (NoDup_seqZ (- (size / 2)) size) as Hnd.
  destruct shape; unfold getBrushPixels; cbv zeta.
  - apply NoDup_brushOffsets.
  - by apply (NoDup_grid (inCircle size)).
  - by apply (NoDup_grid (fun x y => Z.abs x + Z.abs y <=? size / 2)).
  - by apply (NoDup_fmap_2 (fun dx : Z => (dx, 0))).
  - by apply (NoDup_fmap_2 (fun dy : Z => (0, dy))).
  - apply NoDup_fmap_2_strong; [|done]. by intros a b _ _ [=].
  - apply NoDup_fmap_2_strong; [|done]. by intros a b _ _ [=].
Qed.

(** The centre pixel belongs to every shape of every size from 1 on, except
    to the circle of size 1, which is empty; and a shape is empty exactly
    then. *)
Theorem getBrushPixels_centre (size : Z) (shape : BrushShape) :
  1 <= size ->
  (shape <> circle \/ 2 <= size -> (0, 0) ∈ getBrushPixels size shape) /\
  (getBrushPixels size shape = [] <-> shape = circle /\ size = 1).
Proof.
  intros Hsize.
  assert (Hrun0 : inRun size 0) by (unfold inRun; Z.div_mod_to_equations; lia).
  assert (Hcentre : shape <> circle \/ 2 <= size -> (0, 0) ∈ getBrushPixels size shape).
  { intros Hok. apply elem_of_getBrushPixels.
    destruct shape; simpl; repeat split; try done; try (Z.div_mod_to_equations; lia).
    destruct Hok as [|H2]; [done|]. unfold inCircle. apply Z.leb_le. nia. }
  split; [exact Hcentre|]. split.
  - intros Hnil.
    assert (shape = circle \/ shape <> circle) as [-> | Hne]
      by (destruct shape; (by left) || (by right)).
    + split; [done|]. destruct (decide (size = 1)); [done|].
      assert (H2 : 2 <= size) by lia.
      specialize (Hcentre (or_intror H2)). rewrite Hnil in Hcentre.
      by apply elem_of_nil in Hcentre.
    + specialize (Hcentre (or_introl Hne)). rewrite Hnil in Hcentre.
      by apply elem_of_nil in Hcentre.
  - intros [-> ->]. reflexivity.
Qed.

Lemma getBrushPixels_centre_witness :
  (0, 0) ∈ getBrushPixels 4 circle /\ (0, 0) ∈ getBrushPixels 1 diamond.
Proof.
  destruct (getBrushPixels_centre 4 circle ltac:(lia)) as [H4 _].
  destruct (getBrushPixels_centre 1 diamond ltac:(lia)) as [H1 _].
  split; [apply H4; right; lia|apply H1; by left].
Defined.

(** Symmetry of the box shapes.  For an odd size the square and the diamond
    are symmetric about the centre pixel: mirroring an offset in either axis
    stays in the shape, which the circle is not.  For an even size the square
    and the circle are symmetric about the corner shared by the pixels
    [(-1, -1)] and [(0, 0)]: the mirror image of [d] is [-1 - d]. *)
Theorem getBrushPixels_symmetry (size : Z) (shape : BrushShape) (dx dy : Z) :
  1 <= size ->
  (dx, dy) ∈ getBrushPixels size shape ->
  (size mod 2 = 1 -> shape = square \/ shape = diamond ->
     (- dx, dy) ∈ getBrushPixels size shape /\
     (dx, - dy) ∈ getBrushPixels size shape) /\
  (size mod 2 = 0 -> shape = square \/ shape = circle ->
     (- 1 - dx, dy) ∈ getBrushPixels size shape /\
     (dx, - 1 - dy) ∈ getBrushPixels size shape).
Proof.
  intros Hsize Hin. apply elem_of_getBrushPixels in Hin.
  pose proof (Z.div_mod size 2 ltac:(lia)) as Hdm.
  split.
  - intros Hodd [-> | ->]; simpl in Hin; split; apply elem_of_getBrushPixels; simpl;
      unfold inRun in *; repeat split; Z.div_mod_to_equations; lia.
  - intros Heven [-> | ->]; simpl in Hin; split; apply elem_of_getBrushPixels; simpl;
      unfold inRun, inCircle in *; repeat split; Z.div_mod_to_equations; lia.
Qed.

Lemma getBrushPixels_symmetry_witness :
  (1, -1) ∈ getBrushPixels 3 square /\ (-2, 0) ∈ getBrushPixels 4 circle.
Proof.
  assert (H3 : (-1, -1) ∈ getBrushPixels 3 square)
    by (apply list_elem_of_In; vm_compute; repeat ((left; reflexivity) || right)).
  assert (H4 : (1, 0) ∈ getBrushPixels 4 circle)
    by (apply list_elem_of_In; vm_compute; repeat ((left; reflexivity) || right)).
  destruct (getBrushPixels_symmetry 3 square (-1) (-1) ltac:(lia) H3) as [Hodd _].
  destruct (getBrushPixels_symmetry 4 circle 1 0 ltac:(lia) H4) as [_ Heven].
  split.
  - destruct Hodd as [Hm _]; [reflexivity|by left|exact Hm].
  - destruct Heven as [Hm _]; [reflexivity|by right|exact Hm].
Defined.

(** The circle of an odd size is not symmetric about the centre pixel, and
    the diamond of an even size is not either. *)
Example circle_odd_asymmetric :
  (-2, 0) ∈ getBrushPixels 5 circle /\ ((2, 0) ∉ getBrushPixels 5 circle) /\
  (-2, 0) ∈ getBrushPixels 4 diamond /\ ((2, 0) ∉ getBrushPixels 4 diamond).
Proof.
  split; [apply elem_of_getBrushPixels; vm_compute; repeat split; discriminate|].
  split; [rewrite elem_of_getBrushPixels; vm_compute;
          intros (_ & _ & ?); discriminate|].
  split; [apply elem_of_getBrushPixels; vm_compute; repeat split; discriminate|].
  rewrite elem_of_getBrushPixels. vm_compute.
  intros ([_ H] & _). by apply H.
Qed.

(** * Flipping, rotating and resizing *)

Lemma elem_of_scanOrder w h x y :
  (x, y) ∈ scanOrder w h <-> 0 <= x < w /\ 0 <= y < h.
Proof.
  unfold scanOrder. rewrite list_elem_of_bind. split.
  - intros (b & Hin & Hb). apply list_elem_of_bind in Hin as (a & Hin & Ha).
    apply list_elem_of_singleton in Hin. injection Hin as -> ->.
    apply elem_of_seqZ in Ha, Hb. lia.
  - intros [Hx Hy]. exists y. split; [|apply elem_of_seqZ; lia].
    apply list_elem_of_bind. exists x. split; [left|apply elem_of_seqZ; lia].
Qed.

Lemma NoDup_scanOrder w h : NoDup (scanOrder w h).
Proof.
  unfold scanOrder. apply NoDup_bind; [| |apply NoDup_seqZ].
  - intros y1 y2 p _ _ H1 H2.
    apply list_elem_of_bind in H1 as (a & H1 & _), H2 as (b & H2 & _).
    apply list_elem_of_singleton in H1, H2. congruence.
  - intros y _. apply NoDup_bind; [| |apply NoDup_seqZ].
    + intros a b p _ _ H1 H2. apply list_elem_of_singleton in H1, H2. congruence.
    + intros a _. apply NoDup_singleton.
Qed.

Lemma newImageData_wf w h :
  0 < w -> 0 < h ->
  newImageData w h = Some (mkImageData w h (replicate (Z.to_nat (w * h)) (0, 0, 0, 0))).
Proof.
  intros Hw Hh. unfold newImageData.
  destruct (Z.ltb_spec 0 w); [|lia]. destruct (Z.ltb_spec 0 h); [|lia]. done.
Qed.

(** The copy loops: every handler runs [copyPixel] from index [s x y] to
    index [d x y] for the positions [(x, y)] that pass a test [c]. *)
Section CopyLoop.
Context (src : ImageData) (s d : Z -> Z -> Z) (c : Z -> Z -> bool).

Local Abbreviation copyStep :=
  (fun (acc : ImageData) '(x, y) =>
     if c x y then copyPixel src (s x y) (d x y) acc else acc).

Lemma copyLoop_dims l acc :
  width (foldl copyStep acc l) = width acc /\
  height (foldl copyStep acc l) = height acc /\
  length (data (foldl copyStep acc l)) = length (data acc).
Proof.
  revert acc. induction l as [|[x y] l IH]; intros acc; [done|].
  cbn [foldl]. destruct (IH (copyStep acc (x, y))) as (-> & -> & ->).
  cbn beta iota. destruct (c x y); [|done].
  unfold copyPixel. destruct (0 <=? d x y); [|done].
  cbn [width height data]. by rewrite length_insert.
Qed.

Lemma copyLoop_untouched l acc i :
  (forall x y, (x, y) ∈ l -> c x y = true -> 0 <= d x y -> Z.to_nat (d x y) <> i) ->
  data (foldl copyStep acc l) !! i = data acc !! i.
Proof.
  revert acc. induction l as [|[x y] l IH]; intros acc Hother; [done|].
  cbn [foldl]. rewrite IH; [|intros x' y' Hin; apply Hother; by right].
  cbn beta iota. destruct (c x y) eqn:Hc; [|done].
  unfold copyPixel. destruct (Z.leb_spec 0 (d x y)) as [Hd|]; [|done].
  cbn [data]. apply list_lookup_insert_ne. apply Hother; [left|done|done].
Qed.

Lemma copyLoop_written l acc x y :
  NoDup l -> (x, y) ∈ l -> c x y = true -> 0 <= d x y -> 0 <= s x y ->
  (forall x' y', (x', y') ∈ l -> c x' y' = true -> 0 <= d x' y' ->
                 d x' y' = d x y -> (x', y') = (x, y)) ->
  (Z.to_nat (d x y) < length (data acc))%nat ->
  data (foldl copyStep acc l) !! Z.to_nat (d x y)
  = Some (default (0, 0, 0, 0) (data src !! Z.to_nat (s x y))).
Proof.
  revert acc. induction l as [|[x0 y0] l IH]; intros acc Hnd Hin Hc Hd Hs Hinj Hlen.
  { by apply elem_of_nil in Hin. }
  apply NoDup_cons in Hnd as [Hnotin Hnd]. cbn [foldl].
  apply elem_of_cons in Hin as [Heq|Hin].
  - injection Heq as <- <-. rewrite copyLoop_untouched.
    + cbn beta iota. rewrite Hc. unfold copyPixel.
      destruct (Z.leb_spec 0 (d x y)); [|lia].
      destruct (Z.leb_spec 0 (s x y)); [|lia].
      cbn [data]. by apply list_lookup_insert_eq.
    + intros x' y' Hin' Hc' Hd' Heq. apply Z2Nat.inj in Heq; [|done|done].
      apply Hnotin. rewrite <- (Hinj x' y'); [done|by right|done|done|done].
  - apply IH; try done.
    + intros x' y' Hin'. apply Hinj. by right.
    + cbn beta iota. destruct (c x0 y0); [|done]. unfold copyPixel.
      destruct (0 <=? d x0 y0); [|done]. cbn [data]. by rewrite length_insert.
Qed.

End CopyLoop.

(** Two images of the same shape with the same pixels are the same image. *)
Lemma image_ext (a b : ImageData) :
  width a = width b -> height a = height b -> 0 < width a ->
  length (data a) = Z.to_nat (width a * height a) ->
  length (data b) = Z.to_nat (width a * height a) ->
  (forall x y, 0 <= x < width a -> 0 <= y < height a ->
               getPixel a x y = getPixel b x y) ->
  a = b.
Proof.
  destruct a as [w h da], b as [w' h' db]. unfold getPixel. cbn [width height data].
  intros <- <- Hw Hla Hlb Hpx. f_equal. apply list_eq. intros i.
  destruct (decide (i < Z.to_nat (w * h))%nat) as [Hi|Hi].
  - pose proof (Z.div_mod (Z.of_nat i) w ltac:(lia)) as Hdm.
    pose proof (Z.mod_pos_bound (Z.of_nat i) w Hw) as Hmod.
    assert (0 <= Z.of_nat i / w) as Hq by (apply Z.div_pos; lia).
    assert (Z.of_nat i / w < h) as Hqh by (apply Z.div_lt_upper_bound; lia).
    specialize (Hpx (Z.of_nat i mod w) (Z.of_nat i / w) Hmod (conj Hq Hqh)).
    unfold pixelIndex in Hpx.
    replace (Z.to_nat (Z.of_nat i / w * w + Z.of_nat i mod w)) with i in Hpx by lia.
    done.
  - rewrite !lookup_ge_None_2; [done|lia|lia].
Qed.

Lemma getPixel_inside (img : ImageData) x y :
  wfImage img -> 0 <= x < width img -> 0 <= y < height img ->
  is_Some (getPixel img x y).
Proof.
  intros (Hw & Hh & Hlen) Hx Hy. unfold getPixel. apply lookup_lt_is_Some_2.
  rewrite Hlen. by apply pixelIndex_lt.
Qed.

(** *** The four handlers, pixel by pixel *)

Lemma handleFlipHorizontal_pixels (img : ImageData) :
  wfImage img ->
  exists out,
    handleFlipHorizontal img = Some out /\ wfImage out /\
    width out = width img /\ height out = height img /\
    forall x y, 0 <= x < width img -> 0 <= y < height img ->
                getPixel out x y = getPixel img (width img - 1 - x) y.
Proof.
  intros Hwf. pose proof Hwf as (Hw & Hh & Hlen).
  unfold handleFlipHorizontal. rewrite newImageData_wf by done.
  cbn [mbind option_bind]. eexists. split; [reflexivity|].
  set (blank := mkImageData _ _ _).
  set (s := fun x y : Z => y * width img + x).
  set (d := fun x y : Z => y * width img + (width img - 1 - x)).
  set (out := foldl _ _ _).
  pose proof (copyLoop_dims img s d (fun _ _ => true)
                (scanOrder (width img) (height img)) blank) as Hdims.
  change (foldl _ _ _) with out in Hdims. destruct Hdims as (Hdw & Hdh & Hdl).
  cbn [width height data blank] in Hdw, Hdh, Hdl.
  rewrite length_replicate in Hdl.
  split; [|split; [exact Hdw|split; [exact Hdh|]]].
  { unfold wfImage. rewrite Hdw, Hdh, Hdl. done. }
  intros x y Hx Hy. unfold getPixel at 1. rewrite Hdw. unfold pixelIndex at 1.
  replace (y * width img + x) with (d (width img - 1 - x) y) by (unfold d; lia).
  pose proof (copyLoop_written img s d (fun _ _ => true)
                (scanOrder (width img) (height img)) blank (width img - 1 - x) y) as Hwr.
  change (foldl _ _ _) with out in Hwr. unfold RGBA in *. rewrite Hwr; clear Hwr.
  - destruct (getPixel_inside img (width img - 1 - x) y Hwf ltac:(lia) Hy) as [px Hpx].
    unfold getPixel, pixelIndex in *. unfold s. unfold RGBA in *. by rewrite Hpx.
  - apply NoDup_scanOrder.
  - apply elem_of_scanOrder. lia.
  - done.
  - unfold d. nia.
  - unfold s. nia.
  - intros x' y' Hin _ _ Heq. apply elem_of_scanOrder in Hin. unfold d in Heq.
    assert (y' = y) by nia. subst. f_equal. lia.
  - cbn [data blank]. rewrite length_replicate. unfold d.
    apply Z2Nat.inj_lt; nia.
Qed.

Lemma handleFlipVertical_pixels (img : ImageData) :
  wfImage img ->
  exists out,
    handleFlipVertical img = Some out /\ wfImage out /\
    width out = width img /\ height out = height img /\
    forall x y, 0 <= x < width img -> 0 <= y < height img ->
                getPixel out x y = getPixel img x (height img - 1 - y).
Proof.
  intros Hwf. pose proof Hwf as (Hw & Hh & Hlen).
  unfold handleFlipVertical. rewrite newImageData_wf by done.
  cbn [mbind option_bind]. eexists. split; [reflexivity|].
  set (blank := mkImageData _ _ _).
  set (s := fun x y : Z => y * width img + x).
  set (d := fun x y : Z => (height img - 1 - y) * width img + x).
  set (out := foldl _ _ _).
  pose proof (copyLoop_dims img s d (fun _ _ => true)
                (scanOrder (width img) (height img)) blank) as Hdims.
  change (foldl _ _ _) with out in Hdims. destruct Hdims as (Hdw & Hdh & Hdl).
  cbn [width height data blank] in Hdw, Hdh, Hdl.
  rewrite length_replicate in Hdl.
  split; [|split; [exact Hdw|split; [exact Hdh|]]].
  { unfold wfImage. rewrite Hdw, Hdh, Hdl. done. }
  intros x y Hx Hy. unfold getPixel at 1. rewrite Hdw. unfold pixelIndex at 1.
  replace (y * width img + x) with (d x (height img - 1 - y)) by (unfold d; lia).
  pose proof (copyLoop_written img s d (fun _ _ => true)
                (scanOrder (width img) (height img)) blank x (height img - 1 - y)) as Hwr.
  change (foldl _ _ _) with out in Hwr. unfold RGBA in *. rewrite Hwr; clear Hwr.
  - destruct (getPixel_inside img x (height img - 1 - y) Hwf Hx ltac:(lia)) as [px Hpx].
    unfold getPixel, pixelIndex in *. unfold s. unfold RGBA in *. by rewrite Hpx.
  - apply NoDup_scanOrder.
  - apply elem_of_scanOrder. lia.
  - done.
  - unfold d. nia.
  - unfold s. nia.
  - intros x' y' Hin _ _ Heq. apply elem_of_scanOrder in Hin. unfold d in Heq.
    assert (y' = height img - 1 - y) by nia. subst. f_equal. lia.
  - cbn [data blank]. rewrite length_replicate. unfold d.
    apply Z2Nat.inj_lt; nia.
Qed.

Lemma handleRotateCW_pixels (img : ImageData) :
  wfImage img ->
  exists out,
    handleRotateCW img = Some out /\ wfImage out /\
    width out = height img /\ height out = width img /\
    forall x y, 0 <= x < height img -> 0 <= y < width img ->
                getPixel out x y = getPixel img y (height img - 1 - x).
Proof.
  intros Hwf. pose proof Hwf as (Hw & Hh & Hlen).
  unfold handleRotateCW. rewrite newImageData_wf by done.
  cbn [mbind option_bind]. eexists. split; [reflexivity|].
  set (blank := mkImageData _ _ _).
  set (s := fun x y : Z => y * width img + x).
  set (d := fun x y : Z => x * height img + (height img - 1 - y)).
  set (out := foldl _ _ _).
  pose proof (copyLoop_dims img s d (fun _ _ => true)
                (scanOrder (width img) (height img)) blank) as Hdims.
  change (foldl _ _ _) with out in Hdims. destruct Hdims as (Hdw & Hdh & Hdl).
  cbn [width height data blank] in Hdw, Hdh, Hdl.
  rewrite length_replicate in Hdl.
  split; [|split; [exact Hdw|split; [exact Hdh|]]].
  { unfold wfImage. rewrite Hdw, Hdh, Hdl. done. }
  intros x y Hx Hy. unfold getPixel at 1. rewrite Hdw. unfold pixelIndex at 1.
  replace (y * height img + x) with (d y (height img - 1 - x)) by (unfold d; lia).
  pose proof (copyLoop_written img s d (fun _ _ => true)
                (scanOrder (width img) (height img)) blank y (height img - 1 - x)) as Hwr.
  change (foldl _ _ _) with out in Hwr. unfold RGBA in *. rewrite Hwr; clear Hwr.
  - destruct (getPixel_inside img y (height img - 1 - x) Hwf Hy ltac:(lia)) as [px Hpx].
    unfold getPixel, pixelIndex in *. unfold s. unfold RGBA in *. by rewrite Hpx.
  - apply NoDup_scanOrder.
  - apply elem_of_scanOrder. lia.
  - done.
  - unfold d. nia.
  - unfold s. nia.
  - intros x' y' Hin _ _ Heq. apply elem_of_scanOrder in Hin. unfold d in Heq.
    assert (x' = y) by nia. subst. f_equal. lia.
  - cbn [data blank]. rewrite length_replicate. unfold d.
    apply Z2Nat.inj_lt; nia.
Qed.

Lemma handleRotateCCW_pixels (img : ImageData) :
  wfImage img ->
  exists out,
    handleRotateCCW img = Some out /\ wfImage out /\
    width out = height img /\ height out = width img /\
    forall x y, 0 <= x < height img -> 0 <= y < width img ->
                getPixel out x y = getPixel img (width img - 1 - y) x.
Proof.
  intros Hwf. pose proof Hwf as (Hw & Hh & Hlen).
  unfold handleRotateCCW. rewrite newImageData_wf by done.
  cbn [mbind option_bind]. eexists. split; [reflexivity|].
  set (blank := mkImageData _ _ _).
  set (s := fun x y : Z => y * width img + x).
  set (d := fun x y : Z => (width img - 1 - x) * height img + y).
  set (out := foldl _ _ _).
  pose proof (copyLoop_dims img s d (fun _ _ => true)
                (scanOrder (width img) (height img)) blank) as Hdims.
  change (foldl _ _ _) with out in Hdims. destruct Hdims as (Hdw & Hdh & Hdl).
  cbn [width height data blank] in Hdw, Hdh, Hdl.
  rewrite length_replicate in Hdl.
  split; [|split; [exact Hdw|split; [exact Hdh|]]].
  { unfold wfImage. rewrite Hdw, Hdh, Hdl. done. }
  intros x y Hx Hy. unfold getPixel at 1. rewrite Hdw. unfold pixelIndex at 1.
  replace (y * height img + x) with (d (width img - 1 - y) x) by (unfold d; lia).
  pose proof (copyLoop_written img s d (fun _ _ => true)
                (scanOrder (width img) (height img)) blank (width img - 1 - y) x) as Hwr.
  change (foldl _ _ _) with out in Hwr. unfold RGBA in *. rewrite Hwr; clear Hwr.
  - destruct (getPixel_inside img (width img - 1 - y) x Hwf ltac:(lia) Hx) as [px Hpx].
    unfold getPixel, pixelIndex in *. unfold s. unfold RGBA in *. by rewrite Hpx.
  - apply NoDup_scanOrder.
  - apply elem_of_scanOrder. lia.
  - done.
  - unfold d. nia.
  - unfold s. nia.
  - intros x' y' Hin _ _ Heq. apply elem_of_scanOrder in Hin. unfold d in Heq.
    assert (x' = width img - 1 - y) by nia. subst. f_equal. lia.
  - cbn [data blank]. rewrite length_replicate. unfold d.
    apply Z2Nat.inj_lt; nia.
Qed.

Lemma same_image (a b : ImageData) :
  wfImage a -> wfImage b -> width a = width b -> height a = height b ->
  (forall x y, 0 <= x < width a -> 0 <= y < height a ->
               getPixel a x y = getPixel b x y) ->
  a = b.
Proof.
  intros (Hw & Hh & Hla) (_ & _ & Hlb) Hwe Hhe Hpx.
  apply image_ext; try done. by rewrite Hlb, Hwe, Hhe.
Qed.

Lemma pixelAt_inside (img : ImageData) x y :
  wfImage img -> 0 <= x < width img -> 0 <= y < height img ->
  getPixel img x y = Some (pixelAt img x y).
Proof.
  intros Hwf Hx Hy. unfold pixelAt.
  rewrite (proj2 (isPixelInBounds_true _ _ _ _)) by done.
  by destruct (getPixel_inside img x y Hwf Hx Hy) as [px ->].
Qed.

(** The loop of [handleResize] for given offsets. *)
Lemma resize_pixels (img : ImageData) (newWidth newHeight offsetX offsetY : Z) :
  wfImage img -> 0 < newWidth -> 0 < newHeight ->
  forall out,
    out = foldl (fun acc '(x, y) =>
                   if (0 <=? x + offsetX) && (x + offsetX <? newWidth)
                      && (0 <=? y + offsetY) && (y + offsetY <? newHeight)
                   then copyPixel img (y * width img + x)
                                  ((y + offsetY) * newWidth + (x + offsetX)) acc
                   else acc)
                (mkImageData newWidth newHeight
                   (replicate (Z.to_nat (newWidth * newHeight)) (0, 0, 0, 0)))
                (scanOrder (width img) (height img)) ->
    wfImage out /\ width out = newWidth /\ height out = newHeight /\
    forall x y, 0 <= x < newWidth -> 0 <= y < newHeight ->
                getPixel out x y = Some (pixelAt img (x - offsetX) (y - offsetY)).
Proof.
  intros Hwf Hnw Hnh out Hout. pose proof Hwf as (Hw & Hh & Hlen).
  set (blank := mkImageData _ _ _) in Hout.
  set (s := fun x y : Z => y * width img + x).
  set (d := fun x y : Z => (y + offsetY) * newWidth + (x + offsetX)).
  set (c := fun x y : Z => (0 <=? x + offsetX) && (x + offsetX <? newWidth)
                           && (0 <=? y + offsetY) && (y + offsetY <? newHeight)).
  assert (Hc : forall x y, c x y = true <->
                           0 <= x + offsetX < newWidth /\ 0 <= y + offsetY < newHeight).
  { intros x y. unfold c. rewrite !andb_true_iff, !Z.leb_le, !Z.ltb_lt. lia. }
  change (out = foldl (fun acc '(x, y) =>
                         if c x y then copyPixel img (s x y) (d x y) acc else acc)
                      blank (scanOrder (width img) (height img))) in Hout.
  clearbody c.
  pose proof (copyLoop_dims img s d c (scanOrder (width img) (height img)) blank) as Hdims.
  rewrite <- Hout in Hdims. destruct Hdims as (Hdw & Hdh & Hdl).
  cbn [width height data blank] in Hdw, Hdh, Hdl. rewrite length_replicate in Hdl.
  split; [|split; [exact Hdw|split; [exact Hdh|]]].
  { unfold wfImage. rewrite Hdw, Hdh, Hdl. done. }
  intros x y Hx Hy. unfold getPixel. rewrite Hdw. unfold pixelIndex, pixelAt.
  destruct (isPixelInBounds (width img) (height img) (x - offsetX) (y - offsetY)) eqn:Hin.
  - apply isPixelInBounds_true in Hin as [Hix Hiy].
    replace (y * newWidth + x) with (d (x - offsetX) (y - offsetY)) by (unfold d; lia).
    pose proof (copyLoop_written img s d c (scanOrder (width img) (height img)) blank
                  (x - offsetX) (y - offsetY)) as Hwr.
    rewrite <- Hout in Hwr. unfold RGBA in *. rewrite Hwr; clear Hwr.
    + unfold getPixel, pixelIndex, s. done.
    + apply NoDup_scanOrder.
    + apply elem_of_scanOrder. lia.
    + apply Hc. lia.
    + unfold d. nia.
    + unfold s. nia.
    + intros x' y' Hin' Hc' _ Heq. apply Hc in Hc'. unfold d in Heq.
      assert (y' + offsetY = y - offsetY + offsetY) by nia. f_equal; lia.
    + cbn [data blank]. rewrite length_replicate. unfold d.
      apply Z2Nat.inj_lt; nia.
  - rewrite Hout, copyLoop_untouched.
    + cbn [data blank]. apply lookup_replicate_2. apply Z2Nat.inj_lt; nia.
    + intros x' y' Hin' Hc' Hd' Heq. apply Hc in Hc'.
      apply elem_of_scanOrder in Hin'. unfold d in Heq, Hd'.
      apply Z2Nat.inj in Heq; [|done|nia].
      assert (y' + offsetY = y) by nia.
      assert (isPixelInBounds (width img) (height img) (x - offsetX) (y - offsetY) = true)
        as Htrue by (apply isPixelInBounds_true; lia).
      congruence.
Qed.

Lemma handleResize_loop (img : ImageData) (newWidth newHeight : Z) (anchor : ResizeAnchor) :
  wfImage img -> 0 < newWidth -> 0 < newHeight ->
  exists out,
    handleResize img newWidth newHeight anchor = Some out /\
    wfImage out /\ width out = newWidth /\ height out = newHeight /\
    forall x y, 0 <= x < newWidth -> 0 <= y < newHeight ->
                getPixel out x y
                = Some (pixelAt img (x - resizeOffsetX anchor newWidth (width img))
                                    (y - resizeOffsetY anchor newHeight (height img))).
Proof.
  intros Hwf Hnw Hnh. unfold handleResize. rewrite newImageData_wf by done.
  cbn [mbind option_bind]. eexists. split; [reflexivity|].
  by apply (resize_pixels img newWidth newHeight
              (resizeOffsetX anchor newWidth (width img))
              (resizeOffsetY anchor newHeight (height img))).
Qed.

(** *** Flips *)

(** Flipping horizontally mirrors every row: the result has the size of the
    image, its pixel [(x, y)] is the pixel [(width - 1 - x, y)] of the
    image, and flipping the result again gives the image back. *)
Theorem handleFlipHorizontal_mirror (img : ImageData) :
  wfImage img ->
  exists out,
    handleFlipHorizontal img = Some out /\
    width out = width img /\ height out = height img /\
    (forall x y, 0 <= x < width img -> 0 <= y < height img ->
                 getPixel out x y = getPixel img (width img - 1 - x) y) /\
    handleFlipHorizontal out = Some img.
Proof.
  intros Hwf.
  destruct (handleFlipHorizontal_pixels img Hwf) as (out & Hout & Hwfo & Hw & Hh & Hpx).
  exists out. repeat (split; [done|]).
  destruct (handleFlipHorizontal_pixels out Hwfo) as (back & Hback & Hwfb & Hw' & Hh' & Hpx').
  rewrite Hback. f_equal. apply same_image; try done; [congruence|congruence|].
  intros x y Hx Hy. rewrite Hw', Hw in Hx. rewrite Hh', Hh in Hy.
  rewrite Hpx' by (rewrite ?Hw, ?Hh; lia). rewrite Hw, Hpx by lia.
  f_equal. lia.
Qed.

Lemma handleFlipHorizontal_mirror_witness :
  exists out,
    handleFlipHorizontal (mkImageData 2 1 [(255, 0, 0, 255); (0, 0, 255, 255)]) = Some out /\
    getPixel out 0 0 = Some (0, 0, 255, 255).
Proof.
  destruct (handleFlipHorizontal_mirror
              (mkImageData 2 1 [(255, 0, 0, 255); (0, 0, 255, 255)]))
    as (out & Hout & _ & _ & Hpx & _).
  - unfold wfImage. simpl. repeat split; lia.
  - exists out. split; [exact Hout|]. apply (Hpx 0 0); simpl; lia.
Defined.

(** Flipping vertically mirrors every column: pixel [(x, y)] of the result
    is the pixel [(x, height - 1 - y)] of the image, and flipping the result
    again gives the image back. *)
Theorem handleFlipVertical_mirror (img : ImageData) :
  wfImage img ->
  exists out,
    handleFlipVertical img = Some out /\
    width out = width img /\ height out = height img /\
    (forall x y, 0 <= x < width img -> 0 <= y < height img ->
                 getPixel out x y = getPixel img x (height img - 1 - y)) /\
    handleFlipVertical out = Some img.
Proof.
  intros Hwf.
  destruct (handleFlipVertical_pixels img Hwf) as (out & Hout & Hwfo & Hw & Hh & Hpx).
  exists out. repeat (split; [done|]).
  destruct (handleFlipVertical_pixels out Hwfo) as (back & Hback & Hwfb & Hw' & Hh' & Hpx').
  rewrite Hback. f_equal. apply same_image; try done; [congruence|congruence|].
  intros x y Hx Hy. rewrite Hw', Hw in Hx. rewrite Hh', Hh in Hy.
  rewrite Hpx' by (rewrite ?Hw, ?Hh; lia). rewrite Hh, Hpx by lia.
  f_equal. lia.
Qed.

Lemma handleFlipVertical_mirror_witness :
  exists out,
    handleFlipVertical (mkImageData 1 2 [(255, 0, 0, 255); (0, 0, 255, 255)]) = Some out /\
    getPixel out 0 0 = Some (0, 0, 255, 255).
Proof.
  destruct (handleFlipVertical_mirror
              (mkImageData 1 2 [(255, 0, 0, 255); (0, 0, 255, 255)]))
    as (out & Hout & _ & _ & Hpx & _).
  - unfold wfImage. simpl. repeat split; lia.
  - exists out. split; [exact Hout|]. apply (Hpx 0 0); simpl; lia.
Defined.

(** *** Rotations *)

(** Rotating by a quarter turn swaps width and height.  Clockwise, pixel
    [(x, y)] of the result is the pixel [(y, height - 1 - x)] of the image;
    counter-clockwise it is the pixel [(width - 1 - y, x)].  Each rotation
    undoes the other. *)
Theorem rotate_inverse (img : ImageData) :
  wfImage img ->
  exists cw ccw,
    handleRotateCW img = Some cw /\ handleRotateCCW img = Some ccw /\
    width cw = height img /\ height cw = width img /\
    width ccw = height img /\ height ccw = width img /\
    (forall x y, 0 <= x < height img -> 0 <= y < width img ->
                 getPixel cw x y = getPixel img y (height img - 1 - x) /\
                 getPixel ccw x y = getPixel img (width img - 1 - y) x) /\
    handleRotateCCW cw = Some img /\ handleRotateCW ccw = Some img.
Proof.
  intros Hwf.
  destruct (handleRotateCW_pixels img Hwf) as (cw & Hcw & Hwf1 & Hw1 & Hh1 & Hpx1).
  destruct (handleRotateCCW_pixels img Hwf) as (ccw & Hccw & Hwf2 & Hw2 & Hh2 & Hpx2).
  exists cw, ccw. repeat (split; [done|]).
  split; [intros x y Hx Hy; split; [by apply Hpx1|by apply Hpx2]|].
  destruct (handleRotateCCW_pixels cw Hwf1) as (b1 & Hb1 & Hwfb1 & Hwb1 & Hhb1 & Hpxb1).
  destruct (handleRotateCW_pixels ccw Hwf2) as (b2 & Hb2 & Hwfb2 & Hwb2 & Hhb2 & Hpxb2).
  rewrite Hb1, Hb2. split; f_equal.
  - apply same_image; try done; [congruence|congruence|].
    intros x y Hx Hy. rewrite Hwb1, Hh1 in Hx. rewrite Hhb1, Hw1 in Hy.
    rewrite Hpxb1 by (rewrite ?Hw1, ?Hh1; lia). rewrite Hw1, Hpx1 by lia.
    f_equal. lia.
  - apply same_image; try done; [congruence|congruence|].
    intros x y Hx Hy. rewrite Hwb2, Hh2 in Hx. rewrite Hhb2, Hw2 in Hy.
    rewrite Hpxb2 by (rewrite ?Hw2, ?Hh2; lia). rewrite Hh2, Hpx2 by lia.
    f_equal. lia.
Qed.

Lemma rotate_inverse_witness :
  exists cw,
    handleRotateCW (mkImageData 2 1 [(255, 0, 0, 255); (0, 0, 255, 255)]) = Some cw /\
    width cw = 1 /\ height cw = 2 /\
    handleRotateCCW cw = Some (mkImageData 2 1 [(255, 0, 0, 255); (0, 0, 255, 255)]).
Proof.
  destruct (rotate_inverse (mkImageData 2 1 [(255, 0, 0, 255); (0, 0, 255, 255)]))
    as (cw & ccw & Hcw & _ & Hw & Hh & _ & _ & _ & Hback & _).
  - unfold wfImage. simpl. repeat split; lia.
  - exists cw. repeat split; done.
Defined.

(** Two quarter turns in the same direction are a half turn, which is also
    the two flips in either order; four quarter turns are the identity. *)
Theorem rotate_twice (img : ImageData) :
  wfImage img ->
  exists half,
    (handleRotateCW img ≫= handleRotateCW) = Some half /\
    (handleRotateCCW img ≫= handleRotateCCW) = Some half /\
    (handleFlipHorizontal img ≫= handleFlipVertical) = Some half /\
    (handleFlipVertical img ≫= handleFlipHorizontal) = Some half /\
    (forall x y, 0 <= x < width img -> 0 <= y < height img ->
                 getPixel half x y = getPixel img (width img - 1 - x) (height img - 1 - y)) /\
    (handleRotateCW half ≫= handleRotateCW) = Some img.
Proof.
  intros Hwf.
  destruct (handleRotateCW_pixels img Hwf) as (r1 & Hr1 & Hwfr1 & Hwr1 & Hhr1 & Hpr1).
  destruct (handleRotateCW_pixels r1 Hwfr1) as (r2 & Hr2 & Hwfr2 & Hwr2 & Hhr2 & Hpr2).
  destruct (handleRotateCCW_pixels img Hwf) as (l1 & Hl1 & Hwfl1 & Hwl1 & Hhl1 & Hpl1).
  destruct (handleRotateCCW_pixels l1 Hwfl1) as (l2 & Hl2 & Hwfl2 & Hwl2 & Hhl2 & Hpl2).
  destruct (handleFlipHorizontal_pixels img Hwf) as (f1 & Hf1 & Hwff1 & Hwf1 & Hhf1 & Hpf1).
  destruct (handleFlipVertical_pixels f1 Hwff1) as (f2 & Hf2 & Hwff2 & Hwf2 & Hhf2 & Hpf2).
  destruct (handleFlipVertical_pixels img Hwf) as (g1 & Hg1 & Hwfg1 & Hwg1 & Hhg1 & Hpg1).
  destruct (handleFlipHorizontal_pixels g1 Hwfg1) as (g2 & Hg2 & Hwfg2 & Hwg2 & Hhg2 & Hpg2).
  destruct (handleRotateCW_pixels r2 Hwfr2) as (r3 & Hr3 & Hwfr3 & Hwr3 & Hhr3 & Hpr3).
  destruct (handleRotateCW_pixels r3 Hwfr3) as (r4 & Hr4 & Hwfr4 & Hwr4 & Hhr4 & Hpr4).
  assert (Hhalf : forall x y, 0 <= x < width img -> 0 <= y < height img ->
            getPixel r2 x y = getPixel img (width img - 1 - x) (height img - 1 - y)).
  { intros x y Hx Hy. rewrite Hpr2 by (rewrite ?Hwr1, ?Hhr1; lia).
    rewrite Hhr1, Hpr1 by lia. done. }
  exists r2. rewrite Hr1, Hl1, Hf1, Hg1. cbn [mbind option_bind].
  rewrite Hr2, Hl2, Hf2, Hg2, Hr3. cbn [mbind option_bind]. rewrite Hr4.
  split; [done|]. split; [|split; [|split; [|split; [exact Hhalf|]]]]; f_equal.
  - apply same_image; try done; [congruence|congruence|].
    intros x y Hx Hy. rewrite Hwl2, Hhl1 in Hx. rewrite Hhl2, Hwl1 in Hy.
    rewrite Hhalf by lia. rewrite Hpl2 by (rewrite ?Hwl1, ?Hhl1; lia).
    rewrite Hwl1, Hpl1 by lia. done.
  - apply same_image; try done; [congruence|congruence|].
    intros x y Hx Hy. rewrite Hwf2, Hwf1 in Hx. rewrite Hhf2, Hhf1 in Hy.
    rewrite Hhalf by lia. rewrite Hpf2 by (rewrite ?Hwf1, ?Hhf1; lia).
    rewrite Hhf1, Hpf1 by lia. done.
  - apply same_image; try done; [congruence|congruence|].
    intros x y Hx Hy. rewrite Hwg2, Hwg1 in Hx. rewrite Hhg2, Hhg1 in Hy.
    rewrite Hhalf by lia. rewrite Hpg2 by (rewrite ?Hwg1, ?Hhg1; lia).
    rewrite Hwg1, Hpg1 by lia. done.
  - apply same_image; try done; [congruence|congruence|].
    intros x y Hx Hy. rewrite Hwr4, Hhr3, Hwr2, Hhr1 in Hx.
    rewrite Hhr4, Hwr3, Hhr2, Hwr1 in Hy.
    rewrite Hpr4 by (rewrite ?Hwr3, ?Hhr3, ?Hwr2, ?Hhr2, ?Hwr1, ?Hhr1; lia).
    rewrite Hhr3, Hwr2, Hhr1.
    rewrite Hpr3 by (rewrite ?Hwr2, ?Hhr2, ?Hwr1, ?Hhr1; lia).
    rewrite Hhr2, Hwr1. rewrite Hhalf by lia. f_equal; lia.
Qed.

Lemma rotate_twice_witness :
  exists half,
    (handleFlipHorizontal (mkImageData 2 1 [(255, 0, 0, 255); (0, 0, 255, 255)])
       ≫= handleFlipVertical) = Some half /\
    getPixel half 0 0 = Some (0, 0, 255, 255).
Proof.
  destruct (rotate_twice (mkImageData 2 1 [(255, 0, 0, 255); (0, 0, 255, 255)]))
    as (half & _ & _ & Hflip & _ & Hpx & _).
  - unfold wfImage. simpl. repeat split; lia.
  - exists half. split; [exact Hflip|]. apply (Hpx 0 0); simpl; lia.
Defined.

(** *** Resizing *)

Lemma resizeOffsetX_back anchor newWidth w :
  w <= newWidth ->
  (anchorCenter anchor = true -> (newWidth - w) mod 2 = 0) ->
  resizeOffsetX anchor w newWidth = - resizeOffsetX anchor newWidth w /\
  0 <= resizeOffsetX anchor newWidth w <= newWidth - w.
Proof.
  intros Hle Heven. unfold resizeOffsetX. destruct (anchorCenter anchor).
  - specialize (Heven eq_refl). Z.div_mod_to_equations. lia.
  - destruct (anchorRight anchor); lia.
Qed.

Lemma resizeOffsetY_back anchor newHeight h :
  h <= newHeight ->
  (anchorMiddle anchor = true -> (newHeight - h) mod 2 = 0) ->
  resizeOffsetY anchor h newHeight = - resizeOffsetY anchor newHeight h /\
  0 <= resizeOffsetY anchor newHeight h <= newHeight - h.
Proof.
  intros Hle Heven. unfold resizeOffsetY. destruct (anchorMiddle anchor).
  - specialize (Heven eq_refl). Z.div_mod_to_equations. lia.
  - destruct (anchorBottom anchor); lia.
Qed.

(** Resizing to [newWidth] x [newHeight] places the image at the offset the
    anchor selects (0, half the difference rounded down, or the whole
    difference, in each axis): pixel [(x, y)] of the result is the pixel
    [(x - offsetX, y - offsetY)] of the image where the image has one and
    transparent black elsewhere.  Resizing to the size the image has gives
    the image back, whatever the anchor. *)
Theorem handleResize_placement (img : ImageData) (newWidth newHeight : Z)
    (anchor : ResizeAnchor) :
  wfImage img -> 0 < newWidth -> 0 < newHeight ->
  (exists out,
     handleResize img newWidth newHeight anchor = Some out /\
     width out = newWidth /\ height out = newHeight /\
     forall x y, 0 <= x < newWidth -> 0 <= y < newHeight ->
       getPixel out x y
       = Some (pixelAt img (x - resizeOffsetX anchor newWidth (width img))
                           (y - resizeOffsetY anchor newHeight (height img)))) /\
  handleResize img (width img) (height img) anchor = Some img.
Proof.
  intros Hwf Hnw Hnh. split.
  - destruct (handleResize_loop img newWidth newHeight anchor Hwf Hnw Hnh)
      as (out & Hout & _ & Hw & Hh & Hpx).
    by exists out.
  - pose proof Hwf as (Hw & Hh & _).
    destruct (handleResize_loop img (width img) (height img) anchor Hwf Hw Hh)
      as (out & Hout & Hwfo & Hwo & Hho & Hpx).
    rewrite Hout. f_equal. apply same_image; try done.
    intros x y Hx Hy. rewrite Hwo in Hx. rewrite Hho in Hy. rewrite Hpx by done.
    destruct (resizeOffsetX_back anchor (width img) (width img)) as [_ Hox];
      [lia|intros _; by rewrite Z.sub_diag|].
    destruct (resizeOffsetY_back anchor (height img) (height img)) as [_ Hoy];
      [lia|intros _; by rewrite Z.sub_diag|].
    replace (resizeOffsetX anchor (width img) (width img)) with 0 by lia.
    replace (resizeOffsetY anchor (height img) (height img)) with 0 by lia.
    rewrite !Z.sub_0_r. symmetry. by apply pixelAt_inside.
Qed.

Lemma handleResize_placement_witness :
  exists out,
    handleResize (mkImageData 1 1 [(255, 0, 0, 255)]) 3 1 top_right = Some out /\
    getPixel out 2 0 = Some (255, 0, 0, 255) /\
    getPixel out 0 0 = Some (0, 0, 0, 0).
Proof.
  destruct (handleResize_placement (mkImageData 1 1 [(255, 0, 0, 255)]) 3 1 top_right)
    as [(out & Hout & _ & _ & Hpx) _].
  - unfold wfImage. simpl. repeat split; lia.
  - lia.
  - lia.
  - exists out. split; [exact Hout|]. split.
    + apply (Hpx 2 0); lia.
    + apply (Hpx 0 0); lia.
Defined.

(** Enlarging the canvas and shrinking it back to the old size with the same
    anchor restores the image, provided that a centred axis grows by an even
    number of pixels. *)
Theorem handleResize_round_trip (img : ImageData) (newWidth newHeight : Z)
    (anchor : ResizeAnchor) :
  wfImage img -> width img <= newWidth -> height img <= newHeight ->
  (anchorCenter anchor = true -> (newWidth - width img) mod 2 = 0) ->
  (anchorMiddle anchor = true -> (newHeight - height img) mod 2 = 0) ->
  exists big,
    handleResize img newWidth newHeight anchor = Some big /\
    handleResize big (width img) (height img) anchor = Some img.
Proof.
  intros Hwf Hwle Hhle Hevenx Heveny. pose proof Hwf as (Hw & Hh & _).
  destruct (handleResize_loop img newWidth newHeight anchor Hwf ltac:(lia) ltac:(lia))
    as (big & Hbig & Hwfb & Hwb & Hhb & Hpxb).
  destruct (handleResize_loop big (width img) (height img) anchor Hwfb Hw Hh)
    as (back & Hback & Hwfk & Hwk & Hhk & Hpxk).
  exists big. split; [done|]. rewrite Hback. f_equal.
  apply same_image; try done.
  intros x y Hx Hy. rewrite Hwk in Hx. rewrite Hhk in Hy. rewrite Hpxk by done.
  rewrite Hwb, Hhb.
  destruct (resizeOffsetX_back anchor newWidth (width img) Hwle Hevenx) as [-> Hox].
  destruct (resizeOffsetY_back anchor newHeight (height img) Hhle Heveny) as [-> Hoy].
  set (ox := resizeOffsetX anchor newWidth (width img)) in *.
  set (oy := resizeOffsetY anchor newHeight (height img)) in *.
  rewrite (pixelAt_inside img x y) by done. f_equal.
  unfold pixelAt at 1. rewrite Hwb, Hhb.
  rewrite (proj2 (isPixelInBounds_true _ _ _ _)) by lia.
  rewrite Hpxb by lia. cbn [from_option id]. f_equal; lia.
Qed.

Lemma handleResize_round_trip_witness :
  exists big,
    handleResize (mkImageData 1 1 [(255, 0, 0, 255)]) 3 3 middle_center = Some big /\
    handleResize big 1 1 middle_center = Some (mkImageData 1 1 [(255, 0, 0, 255)]).
Proof.
  apply (handleResize_round_trip (mkImageData 1 1 [(255, 0, 0, 255)]) 3 3 middle_center).
  - unfold wfImage. simpl. repeat split; lia.
  - simpl. lia.
  - simpl. lia.
  - reflexivity.
  - reflexivity.
Defined.

(** With a centred axis that grows by an odd number of pixels the way back
    is shifted by one pixel: a one-pixel image enlarged to width 2 and
    shrunk back to width 1 comes back transparent. *)
Example handleResize_center_odd_loses :
  (handleResize (mkImageData 1 1 [(255, 0, 0, 255)]) 2 1 top_center
     ≫= fun big => handleResize big 1 1 top_center)
  = Some (mkImageData 1 1 [(0, 0, 0, 0)]).
Proof. reflexivity. Qed.

(** * More on the palette reducer *)

(** ** Nearest colour: ties *)

Lemma nearStep_above color p l st :
  (st.1 = None \/ exists d, st.1 = Some d /\ colorDistance color p < d) ->
  (forall q, q ∈ l -> colorDistance color p < colorDistance color q) ->
  (foldl (nearStep color) st l).1 = None \/
  exists d, (foldl (nearStep color) st l).1 = Some d /\ colorDistance color p < d.
Proof.
  revert st. induction l as [|q l IH]; intros st Hst Hl; [done|].
  cbn [foldl]. apply IH; [|intros q' Hq'; apply Hl; by right].
  unfold nearStep. destruct (belowInf _ _); [|done].
  right. eexists. split; [done|]. apply Hl. left.
Qed.

Lemma nearStep_take color p st :
  (st.1 = None \/ exists d, st.1 = Some d /\ colorDistance color p < d) ->
  nearStep color st p = (Some (colorDistance color p), Some p).
Proof.
  intros Hst. unfold nearStep, belowInf, extLt.
  destruct Hst as [-> | (d & -> & Hd)]; [done|].
  destruct (Z.ltb_spec (colorDistance color p) d); [done|lia].
Qed.

Lemma nearStep_keep color p l :
  (forall q, q ∈ l -> colorDistance color p <= colorDistance color q) ->
  foldl (nearStep color) (Some (colorDistance color p), Some p) l
  = (Some (colorDistance color p), Some p).
Proof.
  induction l as [|q l IH]; intros Hl; [done|]. cbn [foldl].
  unfold nearStep at 2, belowInf, extLt. cbn [fst].
  destruct (Z.ltb_spec (colorDistance color q) (colorDistance color p)) as [Hlt|_].
  - specialize (Hl q ltac:(left)). lia.
  - apply IH. intros q' Hq'. apply Hl. by right.
Qed.

(** Among the palette entries at the least distance the search returns the
    one that comes first: an entry that is strictly nearer than every entry
    before it and at least as near as every entry after it is the result.
    On an empty palette there is no result. *)
Theorem findNearestColor_first (color : RGBA) (l1 l2 : list RGBA) (p : RGBA) :
  (forall q, q ∈ l1 -> colorDistance color p < colorDistance color q) ->
  (forall q, q ∈ l2 -> colorDistance color p <= colorDistance color q) ->
  findNearestColor color (l1 ++ p :: l2) = Some p /\
  findNearestColor color [] = None.
Proof.
  intros H1 H2. split; [|done]. unfold findNearestColor.
  rewrite foldl_app. cbn [foldl].
  rewrite (nearStep_take color p); [by rewrite nearStep_keep|].
  apply nearStep_above; [by left|done].
Qed.

Lemma findNearestColor_first_witness :
  findNearestColor (10, 0, 0, 255) [(90, 0, 0, 255); (20, 0, 0, 255); (0, 0, 0, 255)]
  = Some (20, 0, 0, 255).
Proof.
  apply (findNearestColor_first (10, 0, 0, 255) [(90, 0, 0, 255)] [(0, 0, 0, 255)]
           (20, 0, 0, 255)).
  - intros q Hq. apply list_elem_of_singleton in Hq as ->. vm_compute. reflexivity.
  - intros q Hq. apply list_elem_of_singleton in Hq as ->. vm_compute. discriminate.
Defined.

(** ** The frequency map is a histogram *)

Lemma sum_map_add {A : Type} (f g : A -> Z) (l : list A) :
  foldr Z.add 0 (map (fun x => f x + g x) l)
  = foldr Z.add 0 (map f l) + foldr Z.add 0 (map g l).
Proof. induction l as [|x l IH]; simpl; lia. Qed.

Lemma sum_indicator (c : RGBA) (ks : list RGBA) :
  NoDup ks ->
  foldr Z.add 0 (map (fun k => if decide (c = k) then 1 else 0) ks)
  = if decide (c ∈ ks) then 1 else 0.
Proof.
  induction 1 as [|k ks Hk Hnd IH]; [done|]. simpl. rewrite IH.
  destruct (decide (c = k)) as [->|Hne].
  - rewrite decide_False by done. rewrite decide_True by left. done.
  - destruct (decide (c ∈ ks)) as [Hin|Hnin].
    + rewrite decide_True by (by right). done.
    + rewrite decide_False; [done|]. intros Hc.
      apply elem_of_cons in Hc as [?|?]; done.
Qed.

Lemma sum_occurrences (l : list RGBA) :
  foldr Z.add 0 (map (fun c => occurrences c l) (distinctFirstSeen l))
  = Z.of_nat (length l).
Proof.
  induction l as [|c l IH] using rev_ind; [done|].
  rewrite distinctFirstSeen_snoc, length_app. simpl.
  destruct (decide (c ∈ l)) as [Hin|Hnin].
  - rewrite (map_ext _ (fun k => occurrences k l + if decide (c = k) then 1 else 0))
      by (intros k; apply occurrences_snoc).
    rewrite sum_map_add, IH, sum_indicator by apply NoDup_distinctFirstSeen.
    rewrite decide_True by (by apply elem_of_distinctFirstSeen). lia.
  - rewrite map_app, foldr_app. simpl.
    rewrite occurrences_snoc, decide_True, occurrences_notin by done.
    rewrite (map_ext_in _ (fun k => occurrences k l)).
    + assert (Hshift : forall (zs : list Z) a, foldr Z.add a zs = foldr Z.add 0 zs + a).
      { induction zs as [|z zs IHz]; intros a; simpl; [lia|]. rewrite IHz. lia. }
      rewrite Hshift, IH. lia.
    + intros k Hk. apply list_elem_of_In in Hk.
      apply (proj1 (elem_of_distinctFirstSeen _ _)) in Hk.
      rewrite occurrences_snoc, decide_False by (intros ->; done). lia.
Qed.

Lemma occurrences_pos c (l : list RGBA) : c ∈ l -> 1 <= occurrences c l.
Proof.
  intros Hin. unfold occurrences.
  assert (Hc : c ∈ filter (fun c' => c' = c) l) by (by apply list_elem_of_filter).
  destruct (filter _ l); [by apply elem_of_nil in Hc|]. simpl. lia.
Qed.

(** The map that [extractColorsWithFrequency] builds has one entry for each
    distinct opaque colour of the image, in the order in which the colours
    first occur; the entry holds the number of pixels of that colour, so the
    counts add up to the number of opaque pixels.  [countUniqueColors] is
    the number of entries: it is zero only for an image without an opaque
    pixel and never exceeds the number of opaque pixels. *)
Theorem extractColorsWithFrequency_histogram (img : ImageData) :
  let colors := extractAllColors img in
  let freq := extractColorsWithFrequency img in
  freq.*1 = distinctFirstSeen colors /\
  NoDup (freq.*1) /\
  (forall c n, (c, n) ∈ freq <-> c ∈ colors /\ n = occurrences c colors) /\
  (forall c n, (c, n) ∈ freq -> 1 <= n) /\
  foldr Z.add 0 (freq.*2) = Z.of_nat (length colors) /\
  countUniqueColors img = length freq /\
  (countUniqueColors img <= length colors)%nat /\
  (countUniqueColors img = 0%nat <-> colors = []).
Proof.
  intros colors freq. unfold freq, countUniqueColors.
  rewrite extractColorsWithFrequency_tally. fold colors. unfold tally.
  assert (Hkeys : (map (fun c => (c, occurrences c colors)) (distinctFirstSeen colors)).*1
                  = distinctFirstSeen colors).
  { rewrite <- list_fmap_compose. apply list_fmap_id. }
  assert (Hmem : forall c n,
            (c, n) ∈ map (fun c => (c, occurrences c colors)) (distinctFirstSeen colors)
            <-> c ∈ colors /\ n = occurrences c colors).
  { intros c n. rewrite list_elem_of_fmap. split.
    - intros (k & [= -> ->] & Hk).
      by apply (proj1 (elem_of_distinctFirstSeen _ _)) in Hk.
    - intros [Hc ->]. exists c. split; [done|]. by apply elem_of_distinctFirstSeen. }
  rewrite Hkeys. split; [done|]. split; [apply NoDup_distinctFirstSeen|].
  split; [exact Hmem|]. split.
  { intros c n Hin. apply Hmem in Hin as [Hc ->]. by apply occurrences_pos. }
  split.
  { rewrite <- list_fmap_compose. apply sum_occurrences. }
  rewrite length_map. split; [done|]. split; [apply length_distinctFirstSeen|].
  split.
  - intros Hz. destruct colors; [done|]. simpl in Hz. lia.
  - by intros ->.
Qed.

(** ** The most frequent colours *)

Lemma StronglySorted_app_cross {A : Type} (R : A -> A -> Prop) (l1 l2 : list A) :
  StronglySorted R (l1 ++ l2) -> forall a b, a ∈ l1 -> b ∈ l2 -> R a b.
Proof.
  induction l1 as [|x l1 IH]; intros Hs a b Ha Hb.
  - by apply elem_of_nil in Ha.
  - simpl in Hs. apply StronglySorted_inv in Hs as [Hs Hx].
    apply elem_of_cons in Ha as [->|Ha].
    + eapply Forall_forall in Hx; [exact Hx|]. apply elem_of_app. by right.
    + by apply IH.
Qed.

(** The frequency palette for a count [colorCount >= 0] is the start of the
    distinct opaque colours sorted by falling pixel count: it has
    [min colorCount (number of distinct colours)] entries, no entry twice,
    and no colour left out occurs more often than a colour taken. *)
Theorem frequencyBased_top (img : ImageData) (colorCount : Z) :
  0 <= colorCount ->
  let colors := extractAllColors img in
  let palette := frequencyBased (extractColorsWithFrequency img) colorCount in
  Z.of_nat (length palette) = Z.min colorCount (Z.of_nat (countUniqueColors img)) /\
  NoDup palette /\
  (forall c, c ∈ palette -> c ∈ colors) /\
  forall c c', c ∈ palette -> c' ∈ colors -> c' ∉ palette ->
               occurrences c' colors <= occurrences c colors.
Proof.
  intros Hcount colors palette. unfold palette.
  rewrite frequencyBased_sorted, countUniqueColors_distinct. fold colors.
  set (cmp := fun c1 c2 : RGBA => occurrences c2 colors - occurrences c1 colors).
  set (sorted := sortBy cmp (distinctFirstSeen colors)).
  assert (Hslen : length sorted = length (distinctFirstSeen colors))
    by apply sortBy_length.
  assert (Hsperm : sorted ≡ₚ distinctFirstSeen colors) by apply sortBy_perm.
  assert (Hsorted : StronglySorted
            (fun a b => - occurrences a colors <= - occurrences b colors) sorted).
  { apply (sortBy_sorted cmp (fun c => - occurrences c colors)).
    intros a b. unfold cmp. lia. }
  unfold sliceTo. destruct (Z.leb_spec 0 colorCount); [|lia].
  set (n := Z.to_nat colorCount).
  split; [rewrite length_take, Hslen; lia|]. split.
  { apply (sublist_NoDup _ sorted); [|apply sublist_take].
    rewrite Hsperm. apply NoDup_distinctFirstSeen. }
  split.
  { intros c Hc. apply elem_of_distinctFirstSeen. rewrite <- Hsperm.
    eapply elem_of_sublist; [exact Hc|apply sublist_take]. }
  intros c c' Hc Hc' Hnot.
  assert (Hdrop : c' ∈ drop n sorted).
  { assert (Hin : c' ∈ take n sorted ++ drop n sorted).
    { rewrite take_drop, Hsperm. by apply elem_of_distinctFirstSeen. }
    apply elem_of_app in Hin as [?|?]; done. }
  rewrite <- (take_drop n sorted) in Hsorted.
  pose proof (StronglySorted_app_cross _ _ _ Hsorted c c' Hc Hdrop) as Hle.
  simpl in Hle. lia.
Qed.

Lemma frequencyBased_top_witness :
  let img := mkImageData 3 1 [(255, 0, 0, 255); (0, 0, 255, 255); (0, 0, 255, 255)] in
  Z.of_nat (length (frequencyBased (extractColorsWithFrequency img) 1)) = 1 /\
  NoDup (frequencyBased (extractColorsWithFrequency img) 1).
Proof.
  intros img.
  destruct (frequencyBased_top img 1) as (Hlen & Hnd & _).
  - lia.
  - split; [exact Hlen|exact Hnd].
Defined.

(** ** What remapping and dithering write *)

Lemma remapPixel_spec palette c :
  palette <> [] ->
  exists c',
    remapPixel palette c = Some c' /\
    (chanA c = 0 -> c' = (0, 0, 0, 0)) /\
    (chanA c <> 0 ->
     exists p, p ∈ palette /\
       (forall q, q ∈ palette -> colorDistance c p <= colorDistance c q) /\
       c' = storePixel (chanR p) (chanG p) (chanB p) (chanA c)).
Proof.
  intros Hne. unfold remapPixel.
  destruct (Z.eqb_spec (chanA c) 0) as [Ha|Ha].
  - exists (0, 0, 0, 0). by repeat split.
  - destruct (findNearestColor_min c palette Hne) as (p & -> & Hin & Hmin).
    eexists. split; [reflexivity|]. split; [done|]. intros _. by exists p.
Qed.

Lemma remapColors_pixels (img : ImageData) (palette : list RGBA) :
  palette <> [] ->
  exists out,
    remapColors img palette = Some out /\
    width out = width img /\ height out = height img /\
    length (data out) = length (pixelsOf img) /\
    forall i c, pixelsOf img !! i = Some c ->
      exists c', data out !! i = Some c' /\ remapPixel palette c = Some c'.
Proof.
  intros Hne. unfold remapColors.
  rewrite (mapM_total _ (fun c => default (0, 0, 0, 0) (remapPixel palette c))).
  - eexists. split; [reflexivity|]. cbn [width height data].
    rewrite length_map. repeat split; try done.
    intros i c Hc. rewrite list_lookup_fmap, Hc. cbn [fmap option_fmap option_map].
    destruct (remapPixel_spec palette c Hne) as (c' & Hc' & _).
    exists c'. by rewrite Hc'.
  - apply Forall_forall. intros c _.
    destruct (remapPixel_spec palette c Hne) as (c' & -> & _). done.
Qed.

(** With a non-empty palette a remap returns an image of the same size in
    which a transparent pixel is transparent black and every other pixel
    has the colour channels of a palette entry of least distance to it and
    its own alpha.  With an empty palette it fails exactly when the image
    has a pixel that is not transparent. *)
Theorem remapColors_output (img : ImageData) (palette : list RGBA) :
  (palette <> [] ->
   exists out,
     remapColors img palette = Some out /\
     width out = width img /\ height out = height img /\
     length (data out) = length (pixelsOf img) /\
     forall i c, pixelsOf img !! i = Some c ->
       (chanA c = 0 -> data out !! i = Some (0, 0, 0, 0)) /\
       (chanA c <> 0 ->
        exists p, p ∈ palette /\
          (forall q, q ∈ palette -> colorDistance c p <= colorDistance c q) /\
          data out !! i
          = Some (clamp8 (chanR p), clamp8 (chanG p), clamp8 (chanB p), clamp8 (chanA c)))) /\
  (remapColors img [] = None <-> extractAllColors img <> []).
Proof.
  split.
  - intros Hne.
    destruct (remapColors_pixels img palette Hne) as (out & Hout & Hw & Hh & Hlen & Hpx).
    exists out. repeat (split; [done|]). intros i c Hc.
    destruct (Hpx i c Hc) as (c' & Hi & Hc').
    destruct (remapPixel_spec palette c Hne) as (c'' & Hc'' & Hzero & Hnear).
    assert (c'' = c') as -> by congruence. split.
    + intros Ha. specialize (Hzero Ha). subst c'. exact Hi.
    + intros Ha. destruct (Hnear Ha) as (p & Hin & Hmin & ->). by exists p.
  - unfold remapColors, extractAllColors.
    destruct (mapM (remapPixel []) (pixelsOf img)) as [dat|] eqn:Hrun.
    + split; [done|]. intros Hcol. exfalso. apply Hcol.
      apply filter_none. intros c Hin Hop.
      apply mapM_Some_1 in Hrun.
      apply list_elem_of_lookup in Hin as [i Hi].
      destruct (Forall2_lookup_l _ _ _ _ _ Hrun Hi) as (c' & _ & Hc').
      unfold remapPixel, opaque in *. destruct (chanA c =? 0); done.
    + split; [|done]. intros _ Hnil.
      apply mapM_None_1, Exists_exists in Hrun as (c & Hin & Hc).
      assert (Hcin : c ∈ filter (fun c => opaque c = true) (pixelsOf img)).
      { apply list_elem_of_filter. split; [|done].
        unfold remapPixel, opaque in *. destruct (chanA c =? 0); done. }
      rewrite Hnil in Hcin. by apply elem_of_nil in Hcin.
Qed.

Lemma remapColors_output_witness :
  exists out,
    remapColors (mkImageData 2 1 [(250, 10, 0, 255); (9, 9, 9, 0)])
                [(0, 0, 0, 255); (255, 0, 0, 255)] = Some out /\
    data out !! 1%nat = Some (0, 0, 0, 0).
Proof.
  destruct (remapColors_output (mkImageData 2 1 [(250, 10, 0, 255); (9, 9, 9, 0)])
              [(0, 0, 0, 255); (255, 0, 0, 255)]) as [Hsome _].
  destruct Hsome as (out & Hout & _ & _ & _ & Hpx); [discriminate|].
  exists out. split; [exact Hout|].
  apply (Hpx 1%nat (9, 9, 9, 0)); reflexivity.
Defined.

(** *** Dithering *)

Lemma addTo_alpha k e (p : Work) : (addTo k e p).2 = p.2.
Proof. destruct e as [[eR eG] eB], p as [[[r g] b] a]. done. Qed.

Lemma addError_alphas k e i (pixels : list Work) :
  (addError k e i pixels).*2 = pixels.*2.
Proof.
  unfold addError. apply list_eq. intros j. rewrite !list_lookup_fmap.
  destruct (decide (i = j)) as [->|Hne].
  - rewrite list_lookup_alter_eq, <- option_fmap_compose.
    apply option_fmap_ext. intros p. apply addTo_alpha.
  - by rewrite list_lookup_alter_ne.
Qed.

Lemma diffuse_alphas w h x y e (pixels : list Work) :
  (diffuse w h x y e pixels).*2 = pixels.*2.
Proof.
  unfold diffuse. cbv zeta.
  repeat match goal with
         | |- context [if ?b then _ else _] => destruct b
         end;
    by rewrite ?addError_alphas.
Qed.

(** The dithering loop over distinct positions inside the image: it never
    fails on a non-empty palette, keeps the alpha of every working pixel,
    writes each position of the list once and no other position. *)
Lemma ditherRun_steps palette w h (alphas : list Z) order :
  palette <> [] -> 0 < w ->
  length alphas = Z.to_nat (w * h) ->
  NoDup order -> (forall p, p ∈ order -> inside w h p) ->
  forall pixels result,
    pixels.*2 = alphas -> length result = Z.to_nat (w * h) ->
    exists pixels' result',
      foldl (ditherStep palette w h) (Some (pixels, result)) order
      = Some (pixels', result') /\
      pixels'.*2 = alphas /\ length result' = Z.to_nat (w * h) /\
      (forall i, (forall p, p ∈ order -> Z.to_nat (p.2 * w + p.1) <> i) ->
                 result' !! i = result !! i) /\
      (forall p, p ∈ order ->
         exists a, alphas !! Z.to_nat (p.2 * w + p.1) = Some a /\
           (a = 0 -> result' !! Z.to_nat (p.2 * w + p.1) = Some (0, 0, 0, 0)) /\
           (a <> 0 ->
            exists q, q ∈ palette /\
              result' !! Z.to_nat (p.2 * w + p.1)
              = Some (storePixel (chanR q) (chanG q) (chanB q) a))).
Proof.
  intros Hne Hw Hlen. induction order as [|[x y] rest IH];
    intros Hnd Hin pixels result Hal Hres.
  { exists pixels, result. repeat split; try done.
    intros p Hp. by apply elem_of_nil in Hp. }
  apply NoDup_cons in Hnd as [Hnotin Hnd].
  assert (Hxy : inside w h (x, y)) by (apply Hin; left).
  destruct Hxy as [Hx Hy]. cbn [fst snd] in Hx, Hy.
  set (idx := Z.to_nat (y * w + x)).
  assert (Hidx : (idx < Z.to_nat (w * h))%nat) by (apply Z2Nat.inj_lt; nia).
  assert (Hother : forall p, p ∈ rest -> Z.to_nat (p.2 * w + p.1) <> idx).
  { intros [x' y'] Hp Heq. cbn [fst snd] in Heq.
    destruct (Hin (x', y')) as [Hx' Hy']; [by right|]. cbn [fst snd] in Hx', Hy'.
    apply index_inj in Heq as [-> ->]; [done|lia|lia|lia|lia]. }
  destruct (lookup_lt_is_Some_2 pixels idx) as [[[[r g] b] a] Hold].
  { rewrite <- (length_fmap snd), Hal, Hlen. exact Hidx. }
  assert (Ha : alphas !! idx = Some a).
  { rewrite <- Hal, list_lookup_fmap, Hold. done. }
  assert (Hstep : exists pixels1 v,
            ditherStep palette w h (Some (pixels, result)) (x, y)
            = Some (pixels1, <[idx := v]> result) /\
            pixels1.*2 = alphas /\
            (a = 0 -> v = (0, 0, 0, 0)) /\
            (a <> 0 -> exists q, q ∈ palette /\
                        v = storePixel (chanR q) (chanG q) (chanB q) a)).
  { unfold ditherStep. fold idx. unfold Work in *. rewrite Hold.
    destruct (Z.eqb_spec a 0) as [Hz|Hnz].
    - exists pixels, (0, 0, 0, 0). by repeat split.
    - destruct (ditherNearest_elem (r, g, b, a) palette Hne) as (q & -> & Hq).
      eexists _, _. split; [reflexivity|]. split; [by rewrite diffuse_alphas|].
      split; [done|]. intros _. by exists q. }
  destruct Hstep as (pixels1 & v & Hstep & Hal1 & Hv0 & Hv1).
  cbn [foldl]. rewrite Hstep.
  destruct (IH Hnd (fun p Hp => Hin p (list_elem_of_further _ _ _ Hp))
              pixels1 (<[idx := v]> result) Hal1)
    as (pixels' & result' & Hrun & Hal' & Hres' & Hkeep & Hdone).
  { by rewrite length_insert. }
  exists pixels', result'. split; [exact Hrun|]. split; [exact Hal'|].
  split; [exact Hres'|]. split.
  - intros i Hi. rewrite Hkeep by (intros p Hp; apply Hi; by right).
    apply list_lookup_insert_ne. apply (Hi (x, y)). left.
  - intros p Hp. apply elem_of_cons in Hp as [->|Hp]; [|by apply Hdone].
    cbn [fst snd]. fold idx. exists a. split; [exact Ha|].
    assert (Hv : result' !! idx = Some v).
    { etrans; [apply (Hkeep idx Hother)|]. apply list_lookup_insert_eq.
      unfold RGBA in *. lia. }
    split.
    + intros Hz. rewrite (Hv0 Hz) in Hv. exact Hv.
    + intros Hnz. destruct (Hv1 Hnz) as (q & Hq & ->). by exists q.
Qed.

(** The whole dithering pass, position by position. *)
Lemma applyFloydSteinberg_run (img : ImageData) (palette : list RGBA) :
  wfImage img -> palette <> [] ->
  exists result,
    applyFloydSteinberg img palette
    = Some (mkImageData (width img) (height img) result) /\
    length result = Z.to_nat (width img * height img) /\
    forall x y c, 0 <= x < width img -> 0 <= y < height img ->
      getPixel img x y = Some c ->
      (chanA c = 0 -> result !! pixelIndex (width img) x y = Some (0, 0, 0, 0)) /\
      (chanA c <> 0 ->
       exists q, q ∈ palette /\
         result !! pixelIndex (width img) x y
         = Some (storePixel (chanR q) (chanG q) (chanB q) (chanA c))).
Proof.
  intros Hwf Hne. pose proof Hwf as (Hw & Hh & Hlen).
  assert (Hpix : pixelsOf img = data img).
  { unfold pixelsOf. apply take_ge. lia. }
  assert (Halpha : forall l : list RGBA, (map toWork l).*2 = map chanA l).
  { intros l. rewrite <- list_fmap_compose. apply list_fmap_ext.
    intros _ [[[r g] b] a] _. done. }
  destruct (ditherRun_steps palette (width img) (height img) (map chanA (data img))
              (scanOrder (width img) (height img)) Hne Hw)
    with (pixels := map toWork (pixelsOf img))
         (result := replicate (Z.to_nat (width img * height img)) ((0, 0, 0, 0) : RGBA))
    as (pixels' & result' & Hrun & _ & Hres' & _ & Hdone).
  { by rewrite length_map. }
  { apply NoDup_scanOrder. }
  { intros [x y] Hp. by apply elem_of_scanOrder in Hp. }
  { by rewrite Hpix. }
  { by rewrite length_replicate. }
  unfold applyFloydSteinberg, ditherRun. unfold RGBA, Work in *. rewrite Hrun.
  exists result'. split; [reflexivity|]. split; [done|].
  intros x y c Hx Hy Hc. unfold getPixel, pixelIndex in *.
  destruct (Hdone (x, y)) as (a & Ha & Hzero & Hnear).
  { apply elem_of_scanOrder. lia. }
  cbn [fst snd] in Ha, Hzero, Hnear.
  assert (a = chanA c) as ->.
  { rewrite list_lookup_fmap in Ha. unfold RGBA in *. rewrite Hc in Ha.
    by injection Ha. }
  split; [exact Hzero|exact Hnear].
Qed.

(** On a well-formed image and a non-empty palette Floyd-Steinberg dithering
    returns an image of the same size: a transparent pixel becomes
    transparent black, every other pixel gets the colour channels of some
    palette entry and keeps its alpha. *)
Theorem applyFloydSteinberg_output (img : ImageData) (palette : list RGBA) :
  wfImage img -> palette <> [] ->
  exists out,
    applyFloydSteinberg img palette = Some out /\
    wfImage out /\ width out = width img /\ height out = height img /\
    forall x y c, 0 <= x < width img -> 0 <= y < height img ->
      getPixel img x y = Some c ->
      (chanA c = 0 -> getPixel out x y = Some (0, 0, 0, 0)) /\
      (chanA c <> 0 ->
       exists q, q ∈ palette /\
         getPixel out x y
         = Some (clamp8 (chanR q), clamp8 (chanG q), clamp8 (chanB q), clamp8 (chanA c))).
Proof.
  intros Hwf Hne. pose proof Hwf as (Hw & Hh & Hlen).
  destruct (applyFloydSteinberg_run img palette Hwf Hne) as (result & Hrun & Hres & Hpx).
  eexists. split; [exact Hrun|]. split; [by split|].
  split; [done|]. split; [done|]. exact Hpx.
Qed.

Lemma applyFloydSteinberg_output_witness :
  exists out,
    applyFloydSteinberg (mkImageData 2 1 [(100, 100, 100, 255); (9, 9, 9, 0)])
                        [(0, 0, 0, 255); (255, 255, 255, 255)] = Some out /\
    getPixel out 1 0 = Some (0, 0, 0, 0).
Proof.
  destruct (applyFloydSteinberg_output
              (mkImageData 2 1 [(100, 100, 100, 255); (9, 9, 9, 0)])
              [(0, 0, 0, 255); (255, 255, 255, 255)])
    as (out & Hout & _ & _ & _ & Hpx).
  - unfold wfImage. simpl. repeat split; lia.
  - discriminate.
  - exists out. split; [exact Hout|].
    apply (Hpx 1 0 (9, 9, 9, 0)); simpl; (lia || reflexivity).
Defined.

(** *** The entry point *)

Lemma extractPalette_bounds pick img colorCount algorithm :
  extractAllColors img <> [] -> 1 <= colorCount ->
  (pick < length (extractAllColors img))%nat ->
  exists palette,
    extractPalette pick img colorCount algorithm = Some palette /\
    1 <= Z.of_nat (length palette) <= colorCount.
Proof.
  set (colors := extractAllColors img). intros Hne Hcount Hpick.
  pose proof (distinctFirstSeen_nonempty colors Hne) as Hd1.
  pose proof (length_distinctFirstSeen colors) as Hd2.
  destruct algorithm; unfold extractPalette; fold colors.
  - destruct (Z.le_gt_cases (Z.of_nat (length colors)) colorCount) as [Hle|Hgt].
    + rewrite medianCut_dedupe by done. eexists. split; [reflexivity|lia].
    + destruct (medianCut_boxes colors colorCount Hne Hgt) as (palette & Hrun & Hlen).
      exists palette. split; [exact Hrun|lia].
  - unfold kMeans.
    destruct (Z.le_gt_cases (Z.of_nat (length colors)) colorCount) as [Hle|Hgt].
    + rewrite (kMeansRun_dedupe pick colors colorCount 20 Hle).
      eexists. split; [reflexivity|]. simpl. lia.
    + destruct (kMeansRun_seeded pick colors colorCount 20 Hpick Hgt)
        as (res & iters & Hrun & _ & Hlen).
      rewrite Hrun. exists res. split; [reflexivity|]. rewrite (Hlen Hcount). lia.
  - rewrite frequencyBased_sorted. fold colors.
    eexists. split; [reflexivity|].
    unfold sliceTo. destruct (Z.leb_spec 0 colorCount); [|lia].
    rewrite length_take, sortBy_length. lia.
Qed.

Lemma extractPalette_transparent pick img colorCount algorithm :
  extractAllColors img = [] ->
  extractPalette pick img colorCount algorithm = Some [].
Proof.
  intros Hnil. destruct algorithm; unfold extractPalette.
  - by rewrite Hnil.
  - by rewrite Hnil.
  - rewrite frequencyBased_sorted, Hnil. unfold sliceTo. simpl.
    destruct (0 <=? colorCount); [|done]. by destruct (Z.to_nat colorCount).
Qed.

(** Reducing the palette of an image without an opaque pixel returns the
    image as it is.  Otherwise, for a requested count of at least 1, the
    reduction returns an image of the same size whose pixels are drawn from
    the extracted palette of at most [colorCount] colours: a transparent
    pixel becomes transparent black, every other pixel gets the colour
    channels of a palette entry and keeps its alpha, with and without
    dithering and for each of the three algorithms. *)
Theorem reduceImagePalette_output (pick : nat) (img : ImageData) (colorCount : Z)
    (algorithm : Algorithm) (dithering : bool) :
  (extractAllColors img = [] ->
   reduceImagePalette pick img colorCount algorithm dithering = Some img) /\
  (wfImage img -> 1 <= colorCount -> (pick < length (extractAllColors img))%nat ->
   exists out palette,
     reduceImagePalette pick img colorCount algorithm dithering = Some out /\
     extractPalette pick img colorCount algorithm = Some palette /\
     1 <= Z.of_nat (length palette) <= colorCount /\
     width out = width img /\ height out = height img /\
     length (data out) = length (data img) /\
     forall x y c, 0 <= x < width img -> 0 <= y < height img ->
       getPixel img x y = Some c ->
       (chanA c = 0 -> getPixel out x y = Some (0, 0, 0, 0)) /\
       (chanA c <> 0 ->
        exists q, q ∈ palette /\
          getPixel out x y
          = Some (clamp8 (chanR q), clamp8 (chanG q), clamp8 (chanB q), clamp8 (chanA c)))).
Proof.
  split.
  - intros Hnil. unfold reduceImagePalette.
    by rewrite (extractPalette_transparent pick img colorCount algorithm Hnil).
  - intros Hwf Hcount Hpick. pose proof Hwf as (Hw & Hh & Hlen).
    assert (Hcol : extractAllColors img <> []).
    { intros Hnil. rewrite Hnil in Hpick. simpl in Hpick. lia. }
    destruct (extractPalette_bounds pick img colorCount algorithm Hcol Hcount Hpick)
      as (palette & Hpal & Hplen).
    assert (Hne : palette <> []) by (intros ->; simpl in Hplen; lia).
    assert (Hpix : pixelsOf img = data img).
    { unfold pixelsOf. apply take_ge. lia. }
    unfold reduceImagePalette. rewrite Hpal.
    destruct palette as [|p0 palette']; [done|].
    set (palette := p0 :: palette') in *.
    destruct dithering.
    + destruct (applyFloydSteinberg_run img palette Hwf Hne) as (result & Hrun & Hres & Hpx).
      eexists _, palette. split; [exact Hrun|]. split; [done|]. split; [done|].
      cbn [width height data]. split; [done|]. split; [done|].
      split; [by rewrite Hres, Hlen|]. exact Hpx.
    + destruct (remapColors_pixels img palette Hne) as (out & Hout & Hwo & Hho & Hlo & Hpx).
      exists out, palette. split; [exact Hout|]. split; [done|]. split; [done|].
      split; [done|]. split; [done|]. split; [by rewrite Hlo, Hpix|].
      intros x y c Hx Hy Hc. unfold getPixel in *. rewrite Hwo.
      rewrite <- Hpix in Hc. destruct (Hpx _ c Hc) as (c' & Hi & Hc').
      destruct (remapPixel_spec palette c Hne) as (c'' & Hc'' & Hzero & Hnear).
      assert (c'' = c') as -> by congruence. split.
      * intros Ha. specialize (Hzero Ha). subst c'. exact Hi.
      * intros Ha. destruct (Hnear Ha) as (p & Hin & _ & ->). by exists p.
Qed.

Lemma reduceImagePalette_output_witness :
  let img := mkImageData 2 2 [(255, 0, 0, 255); (0, 0, 255, 255);
                              (0, 255, 0, 0); (255, 0, 0, 255)] in
  exists out palette,
    reduceImagePalette 1 img 2 Frequency true = Some out /\
    extractPalette 1 img 2 Frequency = Some palette /\
    Z.of_nat (length palette) <= 2 /\
    getPixel out 0 1 = Some (0, 0, 0, 0).
Proof.
  intros img.
  destruct (reduceImagePalette_output 1 img 2 Frequency true) as [_ Hsome].
  destruct Hsome as (out & palette & Hout & Hpal & Hlen & _ & _ & _ & Hpx).
  - unfold wfImage. simpl. repeat split; lia.
  - lia.
  - vm_compute. lia.
  - exists out, palette. split; [exact Hout|]. split; [exact Hpal|].
    split; [lia|]. apply (Hpx 0 1 (0, 255, 0, 0)); simpl; (lia || reflexivity).
Defined.

(** * The undo history *)

Lemma sliceTo_length_le {A : Type} (n : Z) (l : list A) :
  0 <= n -> Z.of_nat (length (sliceTo n l)) = Z.min n (Z.of_nat (length l)).
Proof.
  intros Hn. unfold sliceTo. destruct (Z.leb_spec 0 n); [|lia].
  rewrite length_take. lia.
Qed.

Lemma pushToHistory_inv dat st :
  historyInv st -> historyInv (pushToHistory dat st).
Proof.
  intros (Hlen & Hidx & Hemp). unfold pushToHistory, historyInv, MAX_HISTORY in *.
  destruct (isUndoRedoRef st); [done|]. cbn [history historyIndex].
  set (kept := sliceTo (historyIndex st + 1) (history st)).
  assert (Hkept : Z.of_nat (length kept) = historyIndex st + 1).
  { unfold kept. rewrite sliceTo_length_le by lia. lia. }
  rewrite length_app. cbn [length].
  destruct (Z.ltb_spec 50 (Z.of_nat (length kept + 1))) as [Hover|Hfit].
  - destruct kept as [|d kept']; [simpl in *; lia|]. cbn [app tail].
    rewrite length_app. cbn [length] in *. split; [lia|]. split; [lia|]. right. lia.
  - rewrite length_app. cbn [length]. split; [lia|]. split; [lia|]. right. lia.
Qed.

Lemma handleUndo_inv st :
  historyInv st -> exists st', handleUndo st = Some st' /\ historyInv st'.
Proof.
  intros (Hlen & Hidx & Hemp). unfold handleUndo, historyAt.
  destruct (Z.ltb_spec 0 (historyIndex st)) as [Hpos|Hnot].
  - destruct (Z.leb_spec 0 (historyIndex st - 1)); [|lia].
    destruct (lookup_lt_is_Some_2 (history st) (Z.to_nat (historyIndex st - 1)))
      as [d ->]; [lia|].
    eexists. split; [reflexivity|]. unfold historyInv. cbn [history historyIndex].
    split; [done|]. split; [lia|]. right. lia.
  - exists st. by split.
Qed.

Lemma handleRedo_inv st :
  historyInv st -> exists st', handleRedo st = Some st' /\ historyInv st'.
Proof.
  intros (Hlen & Hidx & Hemp). unfold handleRedo, historyAt.
  destruct (Z.ltb_spec (historyIndex st) (Z.of_nat (length (history st)) - 1))
    as [Hmore|Hnot].
  - destruct (Z.leb_spec 0 (historyIndex st + 1)); [|lia].
    destruct (lookup_lt_is_Some_2 (history st) (Z.to_nat (historyIndex st + 1)))
      as [d ->]; [lia|].
    eexists. split; [reflexivity|]. unfold historyInv. cbn [history historyIndex].
    split; [done|]. split; [lia|]. right. lia.
  - exists st. by split.
Qed.

Lemma pushToHistory_members dat st d :
  d ∈ history (pushToHistory dat st) -> d = dat \/ d ∈ history st.
Proof.
  unfold pushToHistory. destruct (isUndoRedoRef st); [by right|].
  cbn [history]. intros Hd.
  assert (Hin : d ∈ sliceTo (historyIndex st + 1) (history st) ++ [dat]).
  { destruct (_ <? _); [|done].
    destruct (sliceTo _ _ ++ [dat]) as [|d0 l]; [done|]. by right. }
  apply elem_of_app in Hin as [Hin|Hin].
  - right. unfold sliceTo in Hin.
    destruct (0 <=? _); eapply elem_of_sublist; eauto using sublist_take.
  - left. by apply list_elem_of_singleton in Hin.
Qed.

Lemma runActions_snoc actions a :
  runActions (actions ++ [a]) = act (runActions actions) a.
Proof. unfold runActions. by rewrite foldl_app. Qed.

Lemma edits_snoc actions a :
  edits (actions ++ [a]) =
  edits actions ++ match a with Edit d => [d] | _ => [] end.
Proof. unfold edits. rewrite omap_app. by destruct a. Qed.

Lemma loads_snoc actions a :
  loads (actions ++ [a]) =
  loads actions ++ match a with Init d => [d] | _ => [] end.
Proof. unfold loads. rewrite omap_app. by destruct a. Qed.

(** Whatever sequence of loads, edits, undos and redos happens to the
    editor, no handler fails; the history never holds more than 50 images;
    the index points at an entry of the history (or is -1 while the history
    is empty); every image in the history is one that an edit delivered; and
    the displayed image is the last one loaded while nothing else has
    happened since, and otherwise a loaded image or one that an edit
    delivered.  A load shows the loaded image and leaves the history, the
    index and the pending flag as they were, so the image as loaded enters
    the history only if an edit delivers it; the first edit after a load
    onto the empty history leaves the history holding that edit alone at
    index 0, where undo changes nothing and so cannot return to the loaded
    image. *)
Theorem history_bounded (actions : list Action) :
  exists st,
    runActions actions = Some st /\
    Z.of_nat (length (history st)) <= 50 /\
    -1 <= historyIndex st < Z.of_nat (length (history st)) /\
    (history st = [] \/ 0 <= historyIndex st) /\
    (forall d, d ∈ history st -> d ∈ edits actions) /\
    (forall d, imageData st = Some d -> d ∈ loads actions \/ d ∈ edits actions) /\
    (forall loaded,
        runActions (actions ++ [Init loaded])
        = Some (mkAppState (Some loaded) (history st) (historyIndex st)
                           (isUndoRedoRef st))) /\
    (forall loaded d,
        history st = [] -> isUndoRedoRef st = false ->
        let edited := mkAppState (Some d) [d] 0 false in
        runActions (actions ++ [Init loaded; Edit d]) = Some edited /\
        runActions (actions ++ [Init loaded; Edit d; Undo]) = Some edited).
Proof.
  assert (Hmain : exists st,
    runActions actions = Some st /\
    Z.of_nat (length (history st)) <= 50 /\
    -1 <= historyIndex st < Z.of_nat (length (history st)) /\
    (history st = [] \/ 0 <= historyIndex st) /\
    (forall d, d ∈ history st -> d ∈ edits actions) /\
    (forall d, imageData st = Some d -> d ∈ loads actions \/ d ∈ edits actions)).
  { induction actions as [|a actions IH] using rev_ind.
    { exists initialState. split; [done|]. simpl.
      split; [lia|]. split; [lia|]. split; [by left|]. split.
      - intros d Hd. by apply elem_of_nil in Hd.
      - intros d Hd. discriminate. }
    destruct IH as (st & Hrun & Hlen & Hidx & Hemp & Hmem & Himg).
    assert (Hinv : historyInv st) by done.
    rewrite runActions_snoc, Hrun, edits_snoc, loads_snoc. cbn [act].
    destruct a as [d|d| |].
    - eexists. split; [reflexivity|]. unfold handleInit. cbn [history historyIndex imageData].
      rewrite app_nil_r.
      repeat (split; [done|]).
      intros d' [= <-]. left. apply elem_of_app. right. left.
    - eexists. split; [reflexivity|].
      pose proof (pushToHistory_inv d
                    (mkAppState (Some d) (history st) (historyIndex st) (isUndoRedoRef st)))
        as Hpush.
      destruct Hpush as (Hl & Hi & He); [done|]. unfold handlePixelChange.
      split; [exact Hl|]. split; [exact Hi|]. split; [exact He|]. split.
      + intros d' Hd'. apply pushToHistory_members in Hd' as [->|Hd'].
        * apply elem_of_app. right. left.
        * apply elem_of_app. left. by apply Hmem.
      + intros d' Hd'. right. apply elem_of_app. right.
        unfold pushToHistory in Hd'. cbn [isUndoRedoRef imageData] in Hd'.
        destruct (isUndoRedoRef st); cbn [imageData] in Hd'; injection Hd' as <-; left.
    - destruct (handleUndo_inv st Hinv) as (st' & Hst' & Hl & Hi & He).
      exists st'. split; [exact Hst'|]. rewrite !app_nil_r.
      repeat (split; [done|]).
      unfold handleUndo, historyAt in Hst'.
      destruct (0 <? historyIndex st); [|injection Hst' as <-; by split].
      destruct (0 <=? historyIndex st - 1); [|done].
      destruct (history st !! Z.to_nat (historyIndex st - 1)) as [p|] eqn:Hp; [|done].
      injection Hst' as <-. cbn [history imageData]. split; [done|].
      intros d [= <-]. right. apply Hmem. by eapply list_elem_of_lookup_2.
    - destruct (handleRedo_inv st Hinv) as (st' & Hst' & Hl & Hi & He).
      exists st'. split; [exact Hst'|]. rewrite !app_nil_r.
      repeat (split; [done|]).
      unfold handleRedo, historyAt in Hst'.
      destruct (historyIndex st <? _); [|injection Hst' as <-; by split].
      destruct (0 <=? historyIndex st + 1); [|done].
      destruct (history st !! Z.to_nat (historyIndex st + 1)) as [p|] eqn:Hp; [|done].
      injection Hst' as <-. cbn [history imageData]. split; [done|].
      intros d [= <-]. right. apply Hmem. by eapply list_elem_of_lookup_2. }
  destruct Hmain as (st & Hrun & Hlen & Hidx & Hemp & Hmem & Himg).
  exists st. repeat (split; [done|]). split.
  - intros loaded. by rewrite runActions_snoc, Hrun.
  - intros loaded d Hnil Hflag edited.
    assert (Hi : historyIndex st = -1) by (rewrite Hnil in Hidx; simpl in Hidx; lia).
    assert (Hedit : runActions (actions ++ [Init loaded; Edit d]) = Some edited).
    { unfold runActions in *. rewrite foldl_app, Hrun. cbn [foldl act].
      unfold handleInit, handlePixelChange, pushToHistory.
      cbn [isUndoRedoRef history historyIndex imageData].
      by rewrite Hflag, Hnil, Hi. }
    split; [exact Hedit|].
    replace (actions ++ [Init loaded; Edit d; Undo])
      with ((actions ++ [Init loaded; Edit d]) ++ [Undo]) by by rewrite <- app_assoc.
    by rewrite runActions_snoc, Hedit.
Qed.

(** In a state where undo is possible ([historyIndex > 0]) and no undo or
    redo is pending: undo shows the previous entry, and redo after it shows
    the entry undo left, with the history and the index as before.  But the
    edit that follows an undo is not recorded: it clears the pending flag
    and leaves the history and the index as the undo left them, so a redo
    after it replaces the new image with the undone one. *)
Theorem undo_then_edit_not_recorded (st : AppState) (cur prev d : ImageData) :
  historyInv st -> isUndoRedoRef st = false ->
  0 < historyIndex st ->
  historyAt st (historyIndex st) = Some cur ->
  historyAt st (historyIndex st - 1) = Some prev ->
  let undone := mkAppState (Some prev) (history st) (historyIndex st - 1) true in
  handleUndo st = Some undone /\
  handleRedo undone
  = Some (mkAppState (Some cur) (history st) (historyIndex st) true) /\
  handlePixelChange d undone
  = mkAppState (Some d) (history st) (historyIndex st - 1) false /\
  handleRedo (handlePixelChange d undone)
  = Some (mkAppState (Some cur) (history st) (historyIndex st) true).
Proof.
  intros (Hlen & Hidx & Hemp) Hflag Hpos Hcur Hprev undone.
  assert (Hundo : handleUndo st = Some undone).
  { unfold handleUndo. destruct (Z.ltb_spec 0 (historyIndex st)); [|lia].
    by rewrite Hprev. }
  assert (Hredo : forall img flag,
            handleRedo (mkAppState img (history st) (historyIndex st - 1) flag)
            = Some (mkAppState (Some cur) (history st) (historyIndex st) true)).
  { intros img flag. unfold handleRedo. cbn [history historyIndex].
    destruct (Z.ltb_spec (historyIndex st - 1) (Z.of_nat (length (history st)) - 1));
      [|lia].
    unfold historyAt in *. cbn [history].
    replace (historyIndex st - 1 + 1) with (historyIndex st) by lia.
    by rewrite Hcur. }
  split; [exact Hundo|]. split; [apply Hredo|].
  assert (Hedit : handlePixelChange d undone
                  = mkAppState (Some d) (history st) (historyIndex st - 1) false)
    by done.
  split; [exact Hedit|]. rewrite Hedit. apply Hredo.
Qed.

Lemma undo_then_edit_not_recorded_witness :
  let a := mkImageData 1 1 [(1, 1, 1, 255)] in
  let b := mkImageData 1 1 [(2, 2, 2, 255)] in
  let c := mkImageData 1 1 [(3, 3, 3, 255)] in
  runActions [Edit a; Edit b; Undo; Edit c; Redo]
  = Some (mkAppState (Some b) [a; b] 1 true).
Proof.
  intros a b c.
  destruct (undo_then_edit_not_recorded (mkAppState (Some b) [a; b] 1 false) b a c)
    as (_ & _ & _ & Hredo).
  - unfold historyInv, MAX_HISTORY. simpl. repeat split; lia.
  - reflexivity.
  - simpl. lia.
  - reflexivity.
  - reflexivity.
  - exact Hredo.
Defined.

(** * Colour lists of the colour picker *)

Lemma NoDup_filter_ne (c : string) (l : list string) :
  NoDup l -> NoDup (c :: filter (fun c' => c' <> c) l).
Proof.
  intros Hnd. constructor; [|by apply NoDup_filter].
  rewrite list_elem_of_filter. tauto.
Qed.

(** The recent colours after any sequence of selections: at most 8, none
    twice, the latest selection first; selecting a colour again moves it to
    the front.  The custom palette never holds a colour twice, whatever
    colours are added and removed, and removing a colour takes it out. *)
Theorem color_lists_distinct (selections : list string) (newColor : string)
    (customPalette : list string) :
  let recent := foldl (fun prev c => handleColorSelect c prev) [] selections in
  NoDup recent /\ (length recent <= 8)%nat /\
  head (handleColorSelect newColor recent) = Some newColor /\
  (NoDup customPalette ->
   NoDup (handleAddToCustomPalette newColor customPalette) /\
   NoDup (handleRemoveFromCustomPalette newColor customPalette) /\
   newColor ∈ handleAddToCustomPalette newColor customPalette /\
   newColor ∉ handleRemoveFromCustomPalette newColor customPalette).
Proof.
  intros recent.
  assert (Hstep : forall c prev, NoDup prev ->
            NoDup (handleColorSelect c prev) /\ (length (handleColorSelect c prev) <= 8)%nat).
  { intros c prev Hnd. unfold handleColorSelect, sliceTo.
    change (0 <=? 8) with true. cbv iota. split.
    - eapply sublist_NoDup; [|apply sublist_take]. by apply NoDup_filter_ne.
    - rewrite length_take. change (Z.to_nat 8) with 8%nat. lia. }
  assert (Hrecent : NoDup recent /\ (length recent <= 8)%nat).
  { unfold recent. induction selections as [|c l IH] using rev_ind.
    - split; [constructor|simpl; lia].
    - rewrite foldl_app. cbn [foldl]. apply Hstep, IH. }
  destruct Hrecent as [Hnd Hlen]. split; [exact Hnd|]. split; [exact Hlen|].
  split; [done|]. intros Hcp.
  unfold handleAddToCustomPalette, handleRemoveFromCustomPalette.
  split; [|split; [by apply NoDup_filter|split]].
  - destruct (decide (newColor ∈ customPalette)); [done|].
    apply NoDup_app. split; [done|]. split; [|apply NoDup_singleton].
    intros x Hx Hx'. apply list_elem_of_singleton in Hx'. by subst.
  - destruct (decide (newColor ∈ customPalette)); [done|].
    apply elem_of_app. right. left.
  - rewrite list_elem_of_filter. tauto.
Qed.

Lemma color_lists_distinct_witness :
  NoDup (handleAddToCustomPalette "#ff0000" ["#000000"; "#ff0000"]%string).
Proof.
  destruct (color_lists_distinct [] "#ff0000" ["#000000"; "#ff0000"]%string)
    as (_ & _ & _ & Hcustom).
  apply Hcustom. apply NoDup_cons. split; [|apply NoDup_singleton].
  intros Hin. apply list_elem_of_singleton in Hin. discriminate.
Defined.

(** A session of edits only: the history is the last 50 images delivered,
    oldest first, the index points at the newest, and that is the image
    shown.  So after one edit undo is not possible, and after more than 50
    edits the oldest are gone. *)
Theorem history_keeps_last_50 (ds : list ImageData) :
  runActions (Edit <$> ds)
  = Some (mkAppState (last ds) (drop (length ds - 50) ds)
                     (Z.min (Z.of_nat (length ds)) 50 - 1) false) /\
  (length ds = 1%nat -> (runActions (Edit <$> ds) ≫= handleUndo) = runActions (Edit <$> ds)).
Proof.
  assert (Hrun : runActions (Edit <$> ds)
                 = Some (mkAppState (last ds) (drop (length ds - 50) ds)
                           (Z.min (Z.of_nat (length ds)) 50 - 1) false)).
  { induction ds as [|d ds IH] using rev_ind; [done|].
    rewrite fmap_app. change (Edit <$> [d]) with [Edit d].
    rewrite runActions_snoc, IH. cbn [act].
    unfold handlePixelChange, pushToHistory, MAX_HISTORY.
    cbn [isUndoRedoRef history historyIndex imageData].
    rewrite last_snoc, length_app. cbn [length].
    assert (Hlen : length (drop (length ds - 50) ds) = Nat.min (length ds) 50).
    { rewrite length_drop. lia. }
    rewrite sliceTo_all by lia. rewrite length_app, Hlen. cbn [length].
    do 2 f_equal; [|lia].
    destruct (Z.ltb_spec 50 (Z.of_nat (Nat.min (length ds) 50 + 1))) as [Hover|Hfit].
    - assert (Hge : (50 <= length ds)%nat) by lia.
      replace (length ds + 1 - 50)%nat with (S (length ds - 50)) by lia.
      rewrite drop_app_le by lia.
      replace (S (length ds - 50)) with (length ds - 50 + 1)%nat by lia.
      rewrite <- drop_drop.
      destruct (drop (length ds - 50) ds) as [|d0 kept]; [simpl in Hlen; lia|done].
    - replace (length ds + 1 - 50)%nat with 0%nat by lia.
      replace (length ds - 50)%nat with 0%nat by lia. done. }
  split; [exact Hrun|].
  intros Hone. rewrite Hrun, Hone. done.
Qed.

Lemma history_keeps_last_50_witness :
  let a := mkImageData 1 1 [(1, 1, 1, 255)] in
  (runActions [Edit a] ≫= handleUndo) = runActions [Edit a].
Proof.
  intros a. by apply (history_keeps_last_50 [a]).
Defined.

(** * Palette colours stay in range *)

Lemma sumChan_from ch (l : list RGBA) a :
  foldl (fun acc c => acc + chan ch c) a l = a + sumChan ch l.
Proof.
  unfold sumChan. revert a. induction l as [|c l IH]; intros a; simpl; [lia|].
  rewrite IH, (IH (0 + chan ch c)). lia.
Qed.

Lemma sumChan_cons ch c (l : list RGBA) :
  sumChan ch (c :: l) = chan ch c + sumChan ch l.
Proof. unfold sumChan at 1. simpl. by rewrite sumChan_from. Qed.

Lemma sumChan_between ch lo hi (l : list RGBA) :
  (forall c, c ∈ l -> lo <= chan ch c <= hi) ->
  lo * Z.of_nat (length l) <= sumChan ch l <= hi * Z.of_nat (length l).
Proof.
  induction l as [|c l IH]; intros Hl; [unfold sumChan; simpl; lia|].
  rewrite sumChan_cons. cbn [length].
  specialize (Hl c ltac:(left)) as Hc.
  specialize (IH (fun c' Hc' => Hl c' (list_elem_of_further _ _ _ Hc'))). lia.
Qed.

Lemma roundDiv_between lo hi r n :
  0 < n -> lo * n <= r <= hi * n -> lo <= roundDiv r n <= hi.
Proof.
  intros Hn Hr. unfold roundDiv. split.
  - apply Z.div_le_lower_bound; lia.
  - apply Z.lt_succ_r, Z.div_lt_upper_bound; lia.
Qed.

(** A channel of the mean lies between the bounds of that channel. *)
Lemma meanColor_between ch lo hi (l : list RGBA) :
  l <> [] -> (forall c, c ∈ l -> lo <= chan ch c <= hi) ->
  lo <= chan ch (meanColor l) <= hi.
Proof.
  intros Hne Hl.
  assert (Hn : 0 < Z.of_nat (length l)) by (destruct l; [done|simpl; lia]).
  assert (Hch : chan ch (meanColor l)
                = roundDiv (sumChan (Nat.min ch 3) l) (Z.of_nat (length l))).
  { unfold meanColor. by destruct ch as [|[|[|[|ch]]]]. }
  rewrite Hch. apply roundDiv_between; [done|].
  apply sumChan_between. intros c Hc.
  replace (chan (Nat.min ch 3) c) with (chan ch c); [by apply Hl|].
  by destruct ch as [|[|[|[|ch]]]].
Qed.

Lemma byteColor_chan c : byteColor c <-> forall ch, isByte (chan ch c).
Proof.
  destruct c as [[[r g] b] a]. unfold byteColor. simpl. split.
  - intros (Hr & Hg & Hb & Ha) [|[|[|ch]]]; done.
  - intros H. repeat split; [apply (H 0%nat)|apply (H 0%nat)|apply (H 1%nat)|
      apply (H 1%nat)|apply (H 2%nat)|apply (H 2%nat)|apply (H 3%nat)|apply (H 3%nat)].
Qed.

Lemma meanColor_byte (l : list RGBA) :
  l <> [] -> Forall byteColor l -> byteColor (meanColor l).
Proof.
  intros Hne Hall. apply byteColor_chan. intros ch.
  apply meanColor_between; [done|]. intros c Hc.
  eapply Forall_forall in Hall; [|exact Hc]. by apply byteColor_chan.
Qed.

(** ** Median cut: the boxes partition the colours *)

Lemma splitLoop_perm fuel targetCount (boxes res : list (list RGBA)) :
  splitLoop fuel targetCount boxes = Some res -> concat res ≡ₚ concat boxes.
Proof.
  revert boxes. induction fuel as [|fuel IH]; intros boxes Hrun; [done|].
  cbn [splitLoop] in Hrun.
  destruct (Z.of_nat (length boxes) <? targetCount); [|by injection Hrun as <-].
  pose proof (findSplit_splittable boxes) as Hsplit.
  destruct (findSplit boxes) as [[maxRange maxBoxIndex] splitChannel].
  destruct (Z.leb_spec maxRange 0) as [Hle|Hpos]; [by injection Hrun as <-|].
  destruct (Hsplit Hpos) as (box & Hbox & Hlen). simpl in Hbox.
  cbv zeta in Hrun. rewrite Hbox in Hrun. cbn [default from_option id] in Hrun.
  apply IH in Hrun. rewrite Hrun.
  rewrite <- (take_drop_middle boxes maxBoxIndex box Hbox) at 3.
  rewrite !concat_app. cbn [concat]. rewrite app_nil_r.
  apply Permutation_app_head, Permutation_app_tail.
  rewrite take_drop. apply sortBy_perm.
Qed.

Lemma omap_boxColor_means (boxes : list (list RGBA)) :
  Forall (fun box => box <> []) boxes ->
  omap boxColor boxes = map meanColor boxes.
Proof.
  induction 1 as [|box boxes Hbox Hall IH]; [done|].
  destruct box as [|c box]; [done|].
  change (omap boxColor ((c :: box) :: boxes))
    with (meanColor (c :: box) :: omap boxColor boxes).
  by rewrite IH.
Qed.

(** When there are more opaque pixels than requested colours, median cut
    returns one colour for each box of a partition of the pixel colours:
    the boxes are non-empty, together they hold every pixel colour as often
    as the image does, there are at most [max targetCount 1] of them, and
    the palette entry of a box is the rounded mean of its colours, so each
    channel of it lies between the bounds of that channel in the box. *)
Theorem medianCut_partition (colors : list RGBA) (targetCount : Z) :
  colors <> [] -> targetCount < Z.of_nat (length colors) ->
  exists boxes,
    medianCut colors targetCount = Some (map meanColor boxes) /\
    Forall (fun box => box <> []) boxes /\
    concat boxes ≡ₚ colors /\
    1 <= Z.of_nat (length boxes) <= Z.max targetCount 1 /\
    forall box ch lo hi,
      box ∈ boxes -> (forall c, c ∈ box -> lo <= chan ch c <= hi) ->
      lo <= chan ch (meanColor box) <= hi.
Proof.
  intros Hne Hlt. unfold medianCut.
  destruct colors as [|c0 l]; [done|].
  destruct (Z.leb_spec (Z.of_nat (length (c0 :: l))) targetCount); [lia|].
  change (length (c0 :: l) =? 0)%nat with false. cbv iota.
  destruct (splitLoop_boxes (S (Z.to_nat targetCount)) targetCount [c0 :: l])
    as (res & Hrun & Hres & Hl1 & Hl2).
  { by repeat constructor. }
  { simpl. lia. }
  rewrite Hrun. exists res. rewrite omap_boxColor_means by done.
  split; [done|]. split; [done|]. split.
  { apply splitLoop_perm in Hrun. rewrite Hrun. simpl. by rewrite app_nil_r. }
  split; [simpl in *; lia|].
  intros box ch lo hi Hbox Hbounds. apply meanColor_between; [|done].
  eapply Forall_forall in Hres; [exact Hres|done].
Qed.

Lemma medianCut_partition_witness :
  exists boxes,
    medianCut [(255, 0, 0, 255); (255, 0, 0, 255); (255, 0, 0, 255); (0, 0, 255, 255)] 2
    = Some (map meanColor boxes) /\
    concat boxes ≡ₚ [(255, 0, 0, 255); (255, 0, 0, 255); (255, 0, 0, 255); (0, 0, 255, 255)].
Proof.
  destruct (medianCut_partition
              [(255, 0, 0, 255); (255, 0, 0, 255); (255, 0, 0, 255); (0, 0, 255, 255)] 2)
    as (boxes & Hrun & _ & Hperm & _).
  - discriminate.
  - simpl. lia.
  - exists boxes. split; [exact Hrun|exact Hperm].
Defined.

(** ** Every palette of a byte image is a palette of byte colours *)

Lemma farthest_in colors centroids c0 :
  farthest colors centroids c0 = c0 \/ farthest colors centroids c0 ∈ colors.
Proof.
  unfold farthest. generalize (Some (-1)). intros m0.
  assert (Hgen : forall m c, c = c0 \/ c ∈ colors ->
            forall l, (forall x, x ∈ l -> x ∈ colors) ->
            (foldl (fun st color =>
                      let m := minDistTo color centroids in
                      if extLt st.1 m then (m, color) else st) (m, c) l).2 = c0 \/
            (foldl (fun st color =>
                      let m := minDistTo color centroids in
                      if extLt st.1 m then (m, color) else st) (m, c) l).2 ∈ colors).
  { intros m c Hc l. revert m c Hc. induction l as [|x l IH]; intros m c Hc Hl.
    - exact Hc.
    - cbn [foldl]. cbv zeta. cbn [fst].
      destruct (extLt m (minDistTo x centroids)).
      + apply IH; [right; apply Hl; left|intros y Hy; apply Hl; by right].
      + apply IH; [done|intros y Hy; apply Hl; by right]. }
  apply Hgen; [by left|done].
Qed.

Lemma seedLoop_in (P : RGBA -> Prop) fuel targetCount colors c0 centroids res :
  P c0 -> Forall P colors -> Forall P centroids ->
  seedLoop fuel targetCount colors c0 centroids = Some res -> Forall P res.
Proof.
  intros Hc0 Hcol. revert centroids.
  induction fuel as [|fuel IH]; intros centroids Hcen Hrun; [done|].
  cbn [seedLoop] in Hrun.
  destruct (Z.of_nat (length centroids) <? targetCount); [|by injection Hrun as <-].
  apply IH in Hrun; [done|]. apply Forall_app. split; [done|].
  apply Forall_singleton.
  destruct (farthest_in colors centroids c0) as [->|Hin]; [done|].
  eapply Forall_forall in Hcol; eauto.
Qed.

Lemma Forall_filter_keep {A : Type} (P Q : A -> Prop) `{!forall x, Decision (Q x)}
    (l : list A) :
  Forall P l -> Forall P (filter Q l).
Proof.
  intros Hall. apply Forall_forall. intros x Hx.
  apply list_elem_of_filter in Hx as [_ Hx]. eapply Forall_forall in Hall; eauto.
Qed.

Lemma updateCentroid_byte colors centroids i c :
  Forall byteColor colors -> byteColor c ->
  byteColor (updateCentroid colors centroids i c).1.
Proof.
  intros Hcol Hc. unfold updateCentroid.
  destruct (cluster colors centroids i) as [|x cl] eqn:Hcl; [done|].
  destruct (rgbDiffers _ c); [|done]. cbn [fst].
  apply meanColor_byte; [done|]. rewrite <- Hcl. unfold cluster.
  by apply Forall_filter_keep.
Qed.

Lemma refine_byte maxIterations colors centroids :
  Forall byteColor colors -> Forall byteColor centroids ->
  Forall byteColor (refine maxIterations colors centroids).1.
Proof.
  intros Hcol. revert centroids.
  induction maxIterations as [|n IH]; intros centroids Hcen; [done|].
  cbn [refine]. cbv zeta.
  assert (Hupd : Forall byteColor (imap (updateCentroid colors centroids) centroids).*1).
  { apply Forall_forall. intros c Hc.
    apply list_elem_of_fmap in Hc as ([c' flag] & -> & Hc).
    apply elem_of_lookup_imap in Hc as (i & c0 & Heq & Hi).
    change c' with ((c', flag).1). rewrite Heq.
    apply updateCentroid_byte; [done|].
    eapply Forall_forall in Hcen; [exact Hcen|]. by eapply list_elem_of_lookup_2. }
  destruct (existsb snd _); [|done].
  specialize (IH _ Hupd). by destruct (refine n colors _).
Qed.

Lemma Forall_distinctFirstSeen (P : RGBA -> Prop) (l : list RGBA) :
  Forall P l -> Forall P (distinctFirstSeen l).
Proof.
  intros Hall. apply Forall_forall. intros c Hc.
  apply (proj1 (elem_of_distinctFirstSeen _ _)) in Hc.
  eapply Forall_forall in Hall; [exact Hall|exact Hc].
Qed.

Lemma kMeansRun_byte pick colors targetCount maxIterations res iters :
  Forall byteColor colors ->
  kMeansRun pick colors targetCount maxIterations = Some (res, iters) ->
  Forall byteColor res.
Proof.
  intros Hcol Hrun. unfold kMeansRun in Hrun.
  destruct colors as [|c0 l]; [by injection Hrun as <- _|].
  destruct (Z.of_nat (length (c0 :: l)) <=? targetCount).
  { injection Hrun as <- _. rewrite dedupe_spec. by apply Forall_distinctFirstSeen. }
  destruct ((c0 :: l) !! pick) as [first|] eqn:Hfirst; [|done].
  destruct (seedLoop _ _ _ _ _) as [seeds|] eqn:Hseed; [|done].
  assert (Hseeds : Forall byteColor seeds).
  { eapply seedLoop_in; [| | |exact Hseed]; [|done|].
    - by apply Forall_cons in Hcol as [? _].
    - apply Forall_singleton. eapply Forall_forall in Hcol; [exact Hcol|].
      by eapply list_elem_of_lookup_2. }
  pose proof (refine_byte maxIterations (c0 :: l) seeds Hcol Hseeds) as Hres.
  destruct (refine maxIterations (c0 :: l) seeds) as [res' iters'].
  by injection Hrun as <- _.
Qed.

(** If every pixel of the image has its four channels in 0..255, so has
    every colour of every palette that [extractPalette] returns, for each of
    the three algorithms: no average leaves the range, and storing a palette
    colour into an image never clamps. *)
Theorem extractPalette_bytes (pick : nat) (img : ImageData) (colorCount : Z)
    (algorithm : Algorithm) (palette : list RGBA) :
  Forall byteColor (data img) ->
  extractPalette pick img colorCount algorithm = Some palette ->
  Forall byteColor palette /\
  forall q, q ∈ palette ->
    storePixel (chanR q) (chanG q) (chanB q) (chanA q) = q.
Proof.
  intros Hdata Hpal.
  assert (Hcol : Forall byteColor (extractAllColors img)).
  { unfold extractAllColors, pixelsOf. by apply Forall_filter_keep, Forall_take. }
  assert (Hbytes : Forall byteColor palette).
  { destruct algorithm; unfold extractPalette in Hpal.
    - unfold medianCut in Hpal.
      destruct (length (extractAllColors img) =? 0)%nat; [by injection Hpal as <-|].
      destruct (Z.leb_spec (Z.of_nat (length (extractAllColors img))) colorCount).
      { injection Hpal as <-. rewrite dedupe_spec. by apply Forall_distinctFirstSeen. }
      destruct (splitLoop _ _ _) as [boxes|] eqn:Hrun; [|done]. injection Hpal as <-.
      pose proof (splitLoop_perm _ _ _ _ Hrun) as Hperm. simpl in Hperm.
      rewrite app_nil_r in Hperm.
      apply Forall_forall. intros q Hq. apply list_elem_of_omap in Hq as (box & Hbox & Hq).
      unfold boxColor in Hq. destruct box as [|c box]; [done|]. injection Hq as <-.
      apply meanColor_byte; [done|]. apply Forall_forall. intros x Hx.
      eapply Forall_forall in Hcol; [exact Hcol|]. rewrite <- Hperm.
      apply list_elem_of_In, in_concat. exists (c :: box).
      split; by apply list_elem_of_In.
    - unfold kMeans in Hpal.
      destruct (kMeansRun pick (extractAllColors img) colorCount 20)
        as [[res iters]|] eqn:Hrun; [|done].
      injection Hpal as <-. by eapply kMeansRun_byte.
    - injection Hpal as <-. rewrite frequencyBased_sorted.
      apply Forall_forall. intros q Hq.
      eapply Forall_forall in Hcol; [exact Hcol|].
      apply elem_of_distinctFirstSeen. rewrite <- (sortBy_perm
        (fun c1 c2 => occurrences c2 (extractAllColors img)
                      - occurrences c1 (extractAllColors img))).
      unfold sliceTo in Hq.
      destruct (0 <=? colorCount); eapply elem_of_sublist; eauto using sublist_take. }
  split; [exact Hbytes|]. intros q Hq.
  eapply Forall_forall in Hbytes; [|exact Hq].
  destruct q as [[[r g] b] a]. destruct Hbytes as (Hr & Hg & Hb & Ha).
  unfold storePixel. simpl in *. by rewrite !clamp8_byte.
Qed.

Lemma extractPalette_bytes_witness :
  Forall byteColor [(128, 0, 128, 255); (255, 0, 0, 255)].
Proof.
  apply (extractPalette_bytes 0
           (mkImageData 4 1 [(255, 0, 0, 255); (255, 0, 0, 255);
                             (255, 0, 0, 255); (0, 0, 255, 255)]) 2 MedianCut).
  - repeat constructor; simpl; lia.
  - reflexivity.
Defined.

(** * Dithering an image that is already drawn from the palette *)

Lemma numSame_eq x y : numSame x y = true -> x = y.
Proof.
  destruct x as [s|s| |s m e], y as [s'|s'| |s' m' e']; simpl; try done.
  - intros H. apply Bool.eqb_prop in H. by subst.
  - intros H. apply Bool.eqb_prop in H. by subst.
  - rewrite !andb_true_iff. intros [[Hs Hm] He].
    apply Bool.eqb_prop in Hs. apply Pos.eqb_eq in Hm. apply Z.eqb_eq in He.
    by subst.
Qed.

(** A test that holds on 0 .. 255 holds on every byte. *)
Lemma forall_bytes (P : Z -> bool) :
  forallb P (seqZ 0 256) = true -> forall z, isByte z -> P z = true.
Proof.
  intros Hall z Hz. rewrite forallb_forall in Hall. apply Hall.
  apply list_elem_of_In, elem_of_seqZ. unfold isByte in Hz. lia.
Qed.

(** A byte is a double that rounds to itself. *)
Lemma clampRound_byte z : isByte z -> clampRound (ofZ z) = Some z.
Proof.
  intros Hz.
  pose proof (forall_bytes
    (fun z => match clampRound (ofZ z) with Some z' => z' =? z | None => false end)) as H.
  specialize (H ltac:(by vm_compute) z Hz). cbv beta in H.
  destruct (clampRound (ofZ z)); [|done]. apply Z.eqb_eq in H. by subst.
Qed.

(** The error of a byte matched to itself is [+0], ... *)
Lemma numSub_self_byte z : isByte z -> numSub (ofZ z) (ofZ z) = S754_zero false.
Proof.
  intros Hz. apply numSame_eq.
  apply (forall_bytes (fun z => numSame (numSub (ofZ z) (ofZ z)) (S754_zero false)));
    [by vm_compute|done].
Qed.

(** ... and handing on [+0] leaves a byte as it is. *)
Lemma numAdd_zero_byte k z :
  k = 7 \/ k = 3 \/ k = 5 \/ k = 1 -> isByte z ->
  numAdd (ofZ z) (numDiv (numMul (S754_zero false) (ofZ k)) (ofZ 16)) = ofZ z.
Proof.
  intros Hk Hz.
  assert (Hzero : numDiv (numMul (S754_zero false) (ofZ k)) (ofZ 16) = S754_zero false).
  { destruct Hk as [->|[->|[->| ->]]]; by vm_compute. }
  rewrite Hzero. apply numSame_eq.
  apply (forall_bytes (fun z => numSame (numAdd (ofZ z) (S754_zero false)) (ofZ z)));
    [by vm_compute|done].
Qed.

Lemma addTo_exact k (c : RGBA) :
  k = 7 \/ k = 3 \/ k = 5 \/ k = 1 -> byteColor c ->
  addTo k noError (toWork c) = toWork c.
Proof.
  destruct c as [[[r g] b] a]. intros Hk (Hr & Hg & Hb & _). simpl in Hr, Hg, Hb.
  unfold addTo, noError, toWork. by rewrite !numAdd_zero_byte.
Qed.

Lemma addError_exact k i (orig : list RGBA) :
  k = 7 \/ k = 3 \/ k = 5 \/ k = 1 -> Forall byteColor orig ->
  addError k noError i (map toWork orig) = map toWork orig.
Proof.
  intros Hk Hall. unfold addError. apply list_eq. intros j.
  destruct (decide (i = j)) as [->|Hne]; [|by apply list_lookup_alter_ne].
  rewrite list_lookup_alter_eq, list_lookup_fmap.
  destruct (orig !! j) as [c|] eqn:Hc; [|done]. simpl. f_equal.
  apply addTo_exact; [done|].
  eapply Forall_forall in Hall; [exact Hall|]. by eapply list_elem_of_lookup_2.
Qed.

Lemma diffuse_exact w h x y (orig : list RGBA) :
  Forall byteColor orig ->
  diffuse w h x y noError (map toWork orig) = map toWork orig.
Proof.
  intros Hall. unfold diffuse. cbv zeta.
  repeat match goal with
         | |- context [if ?b then _ else _] => destruct b
         end;
    rewrite ?addError_exact; auto.
Qed.

(** One step of the dithering loop on a pixel whose working value is still
    its original colour: the pixel is written back as it was (transparent
    black if it was transparent) and no error leaves it. *)
Lemma ditherStep_exact palette w h (orig : list RGBA) result x y c :
  Forall byteColor orig ->
  orig !! Z.to_nat (y * w + x) = Some c ->
  (chanA c <> 0 -> inPalette palette c) ->
  ditherStep palette w h (Some (map toWork orig, result)) (x, y)
  = Some (map toWork orig, <[Z.to_nat (y * w + x) := dropTransparent c]> result).
Proof.
  intros Hall Hc Hpal. set (idx := Z.to_nat (y * w + x)) in *.
  assert (Hbyte : byteColor c).
  { eapply Forall_forall in Hall; [exact Hall|]. by eapply list_elem_of_lookup_2. }
  unfold ditherStep. fold idx. rewrite list_lookup_fmap, Hc.
  destruct c as [[[R G] B] A].
  destruct Hbyte as (HR & HG & HB & HA). simpl in HR, HG, HB, HA, Hpal.
  unfold dropTransparent. simpl.
  destruct (Z.eqb_spec A 0) as [Hz|Hnz]; [done|].
  rewrite !clampRound_byte by done.
  destruct (Hpal Hnz) as (p0 & Hp0 & HpR & HpG & HpB). simpl in HpR, HpG, HpB.
  destruct (findNearestColor_min (R, G, B, A) palette) as (p & -> & Hp & Hmin).
  { intros ->. by apply elem_of_nil in Hp0. }
  assert (Hzero : colorDistance (R, G, B, A) p <= 0).
  { etrans; [apply (Hmin p0 Hp0)|]. unfold colorDistance. simpl. nia. }
  apply colorDistance_zero in Hzero as (HqR & HqG & HqB). simpl in HqR, HqG, HqB.
  rewrite <- HqR, <- HqG, <- HqB. rewrite !numSub_self_byte by done.
  fold noError. rewrite diffuse_exact by done.
  unfold storePixel. by rewrite !clamp8_byte.
Qed.

Lemma ditherRun_exact palette w h (orig : list RGBA) order :
  0 < w -> length orig = Z.to_nat (w * h) ->
  Forall byteColor orig ->
  (forall c, c ∈ orig -> chanA c <> 0 -> inPalette palette c) ->
  NoDup order -> (forall p, p ∈ order -> inside w h p) ->
  forall result,
    exists result',
      foldl (ditherStep palette w h) (Some (map toWork orig, result)) order
      = Some (map toWork orig, result') /\
      length result' = length result /\
      (forall i, (forall p, p ∈ order -> Z.to_nat (p.2 * w + p.1) <> i) ->
                 result' !! i = result !! i) /\
      (forall p, p ∈ order ->
         (Z.to_nat (p.2 * w + p.1) < length result)%nat ->
         result' !! Z.to_nat (p.2 * w + p.1)
         = dropTransparent <$> orig !! Z.to_nat (p.2 * w + p.1)).
Proof.
  intros Hw Hlen Hbytes Hpal. induction order as [|[x y] rest IH];
    intros Hnd Hin result.
  { exists result. repeat split; try done.
    intros p Hp. by apply elem_of_nil in Hp. }
  apply NoDup_cons in Hnd as [Hnotin Hnd].
  assert (Hxy : inside w h (x, y)) by (apply Hin; left).
  destruct Hxy as [Hx Hy]. cbn [fst snd] in Hx, Hy.
  set (idx := Z.to_nat (y * w + x)).
  assert (Hidx : (idx < Z.to_nat (w * h))%nat) by (apply Z2Nat.inj_lt; nia).
  assert (Hother : forall p, p ∈ rest -> Z.to_nat (p.2 * w + p.1) <> idx).
  { intros [x' y'] Hp Heq. cbn [fst snd] in Heq.
    destruct (Hin (x', y')) as [Hx' Hy']; [by right|]. cbn [fst snd] in Hx', Hy'.
    apply index_inj in Heq as [-> ->]; [done|lia|lia|lia|lia]. }
  destruct (lookup_lt_is_Some_2 orig idx) as [c Hc]; [lia|].
  pose proof (ditherStep_exact palette w h orig result x y c Hbytes Hc) as Hstep.
  cbn [foldl]. rewrite Hstep by (apply Hpal; by eapply list_elem_of_lookup_2).
  fold idx.
  destruct (IH Hnd (fun p Hp => Hin p (list_elem_of_further _ _ _ Hp))
              (<[idx := dropTransparent c]> result))
    as (result' & Hrun & Hres' & Hkeep & Hdone).
  rewrite length_insert in Hres', Hdone.
  exists result'. split; [exact Hrun|]. split; [exact Hres'|]. split.
  - intros i Hi. rewrite Hkeep by (intros p Hp; apply Hi; by right).
    apply list_lookup_insert_ne. apply (Hi (x, y)). left.
  - intros p Hp Hlt. apply elem_of_cons in Hp as [->|Hp]; [|by apply Hdone].
    cbn [fst snd] in *. fold idx in Hlt |- *.
    rewrite (Hkeep idx Hother), Hc. by apply list_lookup_insert_eq.
Qed.

(** Dithering is exact on an image that is already drawn from the palette:
    if the pixels have byte channels and every pixel that is not
    transparent has the colour channels of a palette entry, the result is
    the image itself with its transparent pixels set to transparent black,
    as no pixel has an error to pass on.  Hence dithering with a palette of
    byte colours is idempotent. *)
Theorem applyFloydSteinberg_idempotent (img : ImageData) (palette : list RGBA) :
  wfImage img -> Forall byteColor (data img) ->
  ((forall c, c ∈ data img -> chanA c <> 0 -> inPalette palette c) ->
   applyFloydSteinberg img palette
   = Some (mkImageData (width img) (height img) (map dropTransparent (data img)))) /\
  (palette <> [] -> Forall byteColor palette ->
   exists out,
     applyFloydSteinberg img palette = Some out /\
     applyFloydSteinberg out palette = Some out).
Proof.
  intros Hwf Hbytes.
  assert (Hexact : forall im : ImageData,
            wfImage im -> Forall byteColor (data im) ->
            (forall c, c ∈ data im -> chanA c <> 0 -> inPalette palette c) ->
            applyFloydSteinberg im palette
            = Some (mkImageData (width im) (height im) (map dropTransparent (data im)))).
  { clear img Hwf Hbytes. intros img Hwf Hbytes Hpal.
    pose proof Hwf as (Hw & Hh & Hlen).
    assert (Hpix : pixelsOf img = data img).
    { unfold pixelsOf. apply take_ge. lia. }
    destruct (ditherRun_exact palette (width img) (height img) (data img)
                (scanOrder (width img) (height img)) Hw Hlen Hbytes Hpal
                (NoDup_scanOrder _ _))
      with (result := replicate (Z.to_nat (width img * height img)) ((0, 0, 0, 0) : RGBA))
      as (result' & Hrun & Hres' & _ & Hdone).
    { intros [x y] Hp. by apply elem_of_scanOrder in Hp. }
    rewrite length_replicate in Hres', Hdone.
    unfold applyFloydSteinberg, ditherRun. rewrite Hpix.
    unfold RGBA, Work in *. rewrite Hrun.
    do 2 f_equal. apply list_eq. intros i. rewrite list_lookup_fmap.
    destruct (decide (i < Z.to_nat (width img * height img))%nat) as [Hi|Hi].
    - pose proof (Z.div_mod (Z.of_nat i) (width img) ltac:(lia)) as Hdm.
      pose proof (Z.mod_pos_bound (Z.of_nat i) (width img) Hw) as Hmod.
      assert (0 <= Z.of_nat i / width img) as Hq by (apply Z.div_pos; lia).
      assert (Z.of_nat i / width img < height img) as Hqh
        by (apply Z.div_lt_upper_bound; lia).
      specialize (Hdone (Z.of_nat i mod width img, Z.of_nat i / width img)).
      cbn [fst snd] in Hdone.
      replace (Z.to_nat (Z.of_nat i / width img * width img + Z.of_nat i mod width img))
        with i in Hdone by lia.
      apply Hdone; [|done]. apply elem_of_scanOrder. lia.
    - rewrite !lookup_ge_None_2; [done|lia|].
      etrans; [apply Nat.eq_le_incl, Hres'|]. lia. }
  split; [by apply Hexact|].
  intros Hne Hpb. pose proof Hwf as (Hw & Hh & Hlen).
  destruct (applyFloydSteinberg_run img palette Hwf Hne) as (result & Hrun & Hres & Hpx).
  eexists. split; [exact Hrun|].
  assert (Hshape : forall i c', result !! i = Some c' ->
            c' = (0, 0, 0, 0) \/
            chanA c' <> 0 /\ byteColor c' /\ inPalette palette c').
  { intros i c' Hi.
    assert (Hlt : (i < Z.to_nat (width img * height img))%nat).
    { rewrite <- Hres. by eapply lookup_lt_Some. }
    pose proof (Z.div_mod (Z.of_nat i) (width img) ltac:(lia)) as Hdm.
    pose proof (Z.mod_pos_bound (Z.of_nat i) (width img) Hw) as Hmod.
    assert (0 <= Z.of_nat i / width img) as Hq by (apply Z.div_pos; lia).
    assert (Z.of_nat i / width img < height img) as Hqh
      by (apply Z.div_lt_upper_bound; lia).
    destruct (getPixel_inside img (Z.of_nat i mod width img) (Z.of_nat i / width img)
                Hwf Hmod (conj Hq Hqh)) as [c Hc].
    destruct (Hpx _ _ c Hmod (conj Hq Hqh) Hc) as [Hzero Hnear].
    unfold pixelIndex in Hzero, Hnear.
    replace (Z.to_nat (Z.of_nat i / width img * width img + Z.of_nat i mod width img))
      with i in Hzero, Hnear by lia.
    destruct (Z.eq_dec (chanA c) 0) as [Ha|Ha].
    - left. specialize (Hzero Ha).
      assert (Some c' = Some ((0, 0, 0, 0) : RGBA)) as [= ->]
        by (etrans; [symmetry; exact Hi|exact Hzero]).
      done.
    - right. destruct (Hnear Ha) as (q & Hq' & Hiq).
      assert (Some c' = Some (storePixel (chanR q) (chanG q) (chanB q) (chanA c)))
        as [= ->] by (etrans; [symmetry; exact Hi|exact Hiq]).
      assert (Hcb : byteColor c).
      { eapply Forall_forall in Hbytes; [exact Hbytes|].
        unfold getPixel in Hc. by eapply list_elem_of_lookup_2. }
      assert (Hqb : byteColor q) by (eapply Forall_forall in Hpb; eauto).
      destruct Hqb as (HqR & HqG & HqB & _), Hcb as (_ & _ & _ & HcA).
      unfold storePixel. rewrite !clamp8_byte by done. simpl.
      split; [done|]. split; [unfold byteColor, isByte in *; simpl; lia|].
      exists q. by repeat split. }
  rewrite Hexact.
  - cbn [width height data]. do 2 f_equal.
    apply list_eq. intros i. rewrite list_lookup_fmap.
    destruct (result !! i) as [c'|] eqn:Hi; [|done]. simpl. f_equal.
    destruct (Hshape i c' Hi) as [->|(Ha & _)]; [done|].
    unfold dropTransparent. by destruct (Z.eqb_spec (chanA c') 0).
  - by split.
  - cbn [data]. apply Forall_forall. intros c' Hc'.
    apply list_elem_of_lookup in Hc' as [i Hi].
    destruct (Hshape i c' Hi) as [->|(_ & Hb & _)]; [|done].
    repeat split; simpl; lia.
  - cbn [data]. intros c' Hc' Ha.
    apply list_elem_of_lookup in Hc' as [i Hi].
    destruct (Hshape i c' Hi) as [->|(_ & _ & Hp)]; [done|done].
Qed.

Lemma applyFloydSteinberg_idempotent_witness :
  let img := mkImageData 2 1 [(100, 100, 100, 255); (200, 200, 200, 255)] in
  let palette := [(0, 0, 0, 255); (255, 255, 255, 255)] in
  exists out,
    applyFloydSteinberg img palette = Some out /\
    applyFloydSteinberg out palette = Some out.
Proof.
  intros img palette.
  destruct (applyFloydSteinberg_idempotent img palette) as [_ Hidem].
  - unfold wfImage. simpl. repeat split; lia.
  - repeat constructor; simpl; lia.
  - apply Hidem; [discriminate|]. repeat constructor; simpl; lia.
Defined.

(** * The ellipse tool *)

Lemma Qltb_lt a b : Qltb a b = true <-> (a < b)%Q.
Proof.
  unfold Qltb. rewrite negb_true_iff. split.
  - intros H. apply Qnot_le_lt. intros Hle. apply Qle_bool_iff in Hle. congruence.
  - intros H. destruct (Qle_bool b a) eqn:E; [|done].
    apply Qle_bool_iff in E. by apply Qle_not_lt in E.
Qed.

Lemma Qltb_ge a b : Qltb a b = false <-> (b <= a)%Q.
Proof.
  unfold Qltb. rewrite negb_false_iff. apply Qle_bool_iff.
Qed.

Section EllipseFacts.
Context {St : Type} (visit : Z -> Z -> St -> St).
Variables (cx cy : Z) (rx ry : Q).

Lemma plot_trace x y acc :
  plotEllipsePoints tracePoint cx cy x y acc = acc ++ ellipseQuad cx cy (x, y).
Proof.
  unfold plotEllipsePoints, tracePoint, ellipseQuad. simpl.
  by rewrite <- !app_assoc.
Qed.

Lemma plot_fold x y s :
  plotEllipsePoints visit cx cy x y s
  = foldl (fun s p => visit p.1 p.2 s) s (ellipseQuad cx cy (x, y)).
Proof. done. Qed.

(** Region 1 with any visitor: the same walk, the visitor folded over the
    traced stamps, which come in quadruples. *)
Lemma ellipseRegion1_fold fuel x y px py p1 s :
  exists steps : option (Z * Q * Q * Q * list (Z * Z)),
    ellipseRegion1 tracePoint cx cy rx ry fuel x y px py p1 []
    = (fun '(x', y', px', py', st) => (x', y', px', py', st ≫= ellipseQuad cx cy))
        <$> steps /\
    (forall acc,
       ellipseRegion1 tracePoint cx cy rx ry fuel x y px py p1 acc
       = (fun '(x', y', px', py', st) =>
            (x', y', px', py', acc ++ (st ≫= ellipseQuad cx cy))) <$> steps) /\
    ellipseRegion1 visit cx cy rx ry fuel x y px py p1 s
    = (fun '(x', y', px', py', st) =>
         (x', y', px', py',
          foldl (fun s p => visit p.1 p.2 s) s (st ≫= ellipseQuad cx cy))) <$> steps.
Proof.
  revert x y px py p1 s. induction fuel as [|fuel IH]; intros x y px py p1 s.
  { exists None. by repeat split. }
  cbn [ellipseRegion1]. destruct (Qltb px py).
  2: { exists (Some (x, y, px, py, [])). repeat split; try done.
       intros acc. simpl. by rewrite app_nil_r. }
  cbv zeta.
  set (x' := x + 1). set (px' := (px + 2 * ry * ry)%Q).
  set (nxt := if Qltb p1 0 then _ else _).
  destruct nxt as [[y' py'] p1'].
  destruct (IH x' y' px' py' p1' (plotEllipsePoints visit cx cy x' (mathRound y') s))
    as (steps & Hnil & Hacc & Hvis).
  exists ((fun '(a, b, c, d, st) => (a, b, c, d, (x', mathRound y') :: st)) <$> steps).
  assert (Hgen : forall acc,
            ellipseRegion1 tracePoint cx cy rx ry fuel x' y' px' py' p1'
              (plotEllipsePoints tracePoint cx cy x' (mathRound y') acc)
            = (fun '(a, b, c, d, st) =>
                 (a, b, c, d, acc ++ (st ≫= ellipseQuad cx cy)))
                <$> ((fun '(a, b, c, d, st) => (a, b, c, d, (x', mathRound y') :: st))
                       <$> steps)).
  { intros acc. rewrite Hacc, plot_trace.
    destruct steps as [[[[[a b] c] d] st]|]; [|done]. simpl.
    by rewrite <- app_assoc. }
  split; [|split].
  - rewrite (Hgen []). by destruct steps as [[[[[a b] c] d] st]|].
  - exact Hgen.
  - rewrite Hvis. destruct steps as [[[[[a b] c] d] st]|]; [|done]. simpl.
    by rewrite plot_fold.
Qed.

Lemma ellipseRegion2_fold fuel x y px py p2 s :
  exists steps : option (list (Z * Z)),
    (forall acc,
       ellipseRegion2 tracePoint cx cy rx ry fuel x y px py p2 acc
       = (fun st => acc ++ (st ≫= ellipseQuad cx cy)) <$> steps) /\
    ellipseRegion2 visit cx cy rx ry fuel x y px py p2 s
    = (fun st => foldl (fun s p => visit p.1 p.2 s) s (st ≫= ellipseQuad cx cy))
        <$> steps.
Proof.
  revert x y px py p2 s. induction fuel as [|fuel IH]; intros x y px py p2 s.
  { exists None. by split. }
  cbn [ellipseRegion2]. destruct (Qltb 0 y).
  2: { exists (Some []). split; [|done]. intros acc. simpl. by rewrite app_nil_r. }
  cbv zeta.
  set (y' := (y - 1)%Q). set (py' := (py - 2 * rx * rx)%Q).
  set (nxt := if Qltb 0 p2 then _ else _).
  destruct nxt as [[x' px'] p2'].
  destruct (IH x' y' px' py' p2' (plotEllipsePoints visit cx cy x' (mathRound y') s))
    as (steps & Hacc & Hvis).
  exists (cons (x', mathRound y') <$> steps). split.
  - intros acc. rewrite Hacc, plot_trace. destruct steps as [st|]; [|done]. simpl.
    by rewrite <- app_assoc.
  - rewrite Hvis. destruct steps as [st|]; [|done]. simpl. by rewrite plot_fold.
Qed.

(** Region 1 ends: [px] grows by [2 * ry * ry] in every pass and [py] never
    grows.  At the exit [y] has not grown. *)
Lemma ellipseRegion1_total fuel (n : Z) x y px py p1 (s : St) :
  (0 < ry * ry)%Q -> (0 <= rx * rx)%Q ->
  (py - px <= 2 * ry * ry * inject_Z n)%Q -> (Z.to_nat n < fuel)%nat ->
  exists x' y' px' py' s',
    ellipseRegion1 visit cx cy rx ry fuel x y px py p1 s = Some (x', y', px', py', s') /\
    (y' <= y)%Q.
Proof.
  intros Hry Hrx. revert n x y px py p1 s.
  induction fuel as [|fuel IH]; intros n x y px py p1 s Hgap Hfuel; [lia|].
  cbn [ellipseRegion1]. destruct (Qltb px py) eqn:Hlt.
  2: { eexists _, _, _, _, _. split; [reflexivity|]. apply Qle_refl. }
  apply Qltb_lt in Hlt. cbv zeta.
  assert (Hn : 1 <= n).
  { destruct (Z.le_gt_cases 1 n) as [|Hn0]; [done|]. exfalso.
    assert (Hneg : (inject_Z n <= 0)%Q).
    { change 0%Q with (inject_Z 0). rewrite <- Zle_Qle. lia. }
    assert (Hprod : (2 * ry * ry * inject_Z n <= 0)%Q).
    { assert (Heq1 : ((2 * ry * ry * inject_Z n) == (- ((2 * (ry * ry)) * - inject_Z n)))%Q) by ring.
      rewrite Heq1. clear Heq1.
      apply (Qopp_le_compat 0). apply Qmult_le_0_compat; lra. }
    lra. }
  assert (Hstep : (inject_Z (n - 1) == inject_Z n - 1)%Q).
  { unfold Zminus. rewrite inject_Z_plus, inject_Z_opp. reflexivity. }
  destruct (Qltb p1 0).
  - destruct (IH (n - 1) (x + 1) y (px + 2 * ry * ry)%Q py
                (p1 + ry * ry + (px + 2 * ry * ry))%Q
                (plotEllipsePoints visit cx cy (x + 1) (mathRound y) s))
      as (x' & y' & px' & py' & s' & Hrun & Hy); [|lia|].
    + rewrite Hstep.
      assert (Heq2 : ((2 * ry * ry * (inject_Z n - 1)) == (2 * ry * ry * inject_Z n - 2 * ry * ry))%Q) by ring.
      rewrite Heq2. clear Heq2.
      lra.
    + eexists _, _, _, _, _. split; [exact Hrun|exact Hy].
  - destruct (IH (n - 1) (x + 1) (y - 1)%Q (px + 2 * ry * ry)%Q (py - 2 * rx * rx)%Q
                (p1 + ry * ry + (px + 2 * ry * ry) - (py - 2 * rx * rx))%Q
                (plotEllipsePoints visit cx cy (x + 1) (mathRound (y - 1)) s))
      as (x' & y' & px' & py' & s' & Hrun & Hy); [|lia|].
    + rewrite Hstep.
      assert (Heq3 : ((2 * ry * ry * (inject_Z n - 1)) == (2 * ry * ry * inject_Z n - 2 * ry * ry))%Q) by ring.
      rewrite Heq3. clear Heq3.
      assert (Heq4 : ((2 * rx * rx) == (2 * (rx * rx)))%Q) by ring.
      rewrite Heq4. clear Heq4.
      lra.
    + eexists _, _, _, _, _. split; [exact Hrun|]. lra.
Qed.

(** Region 2 ends: [y] falls by 1 in every pass. *)
Lemma ellipseRegion2_total fuel (n : Z) x y px py p2 (s : St) :
  (y <= inject_Z n)%Q -> (Z.to_nat n < fuel)%nat ->
  exists s', ellipseRegion2 visit cx cy rx ry fuel x y px py p2 s = Some s'.
Proof.
  revert n x y px py p2 s.
  induction fuel as [|fuel IH]; intros n x y px py p2 s Hy Hfuel; [lia|].
  cbn [ellipseRegion2]. destruct (Qltb 0 y) eqn:Hlt; [|by eexists].
  apply Qltb_lt in Hlt. cbv zeta.
  assert (Hn : 1 <= n).
  { destruct (Z.le_gt_cases 1 n) as [|Hn0]; [done|]. exfalso.
    assert (Hneg : (inject_Z n <= 0)%Q).
    { change 0%Q with (inject_Z 0). rewrite <- Zle_Qle. lia. }
    lra. }
  assert (Hstep : (inject_Z (n - 1) == inject_Z n - 1)%Q).
  { unfold Zminus. rewrite inject_Z_plus, inject_Z_opp. reflexivity. }
  destruct (Qltb 0 p2); apply (IH (n - 1)); try lia; rewrite Hstep; lra.
Qed.

End EllipseFacts.

Lemma radius_small (d : Z) : Qltb (inject_Z d / 2) 1 = true <-> d < 2.
Proof.
  rewrite Qltb_lt. unfold Qlt, Qdiv, Qmult, Qinv, inject_Z. simpl. lia.
Qed.

Lemma radius_round (d : Z) : mathRound (inject_Z d / 2) = (d + 1) / 2.
Proof.
  unfold mathRound, Qfloor, Qplus, Qdiv, Qmult, Qinv, inject_Z. simpl.
  Z.div_mod_to_equations. lia.
Qed.

Lemma ellipse_degenerate x0 y0 x1 y1 :
  Qltb (inject_Z (Z.abs (x1 - x0)) / 2) 1 || Qltb (inject_Z (Z.abs (y1 - y0)) / 2) 1 = true
  <-> Z.abs (x1 - x0) < 2 \/ Z.abs (y1 - y0) < 2.
Proof. by rewrite orb_true_iff, !radius_small. Qed.

(** Any visitor sees exactly the traced stamps, in order. *)
Lemma runEllipse_fold {St : Type} (visit : Z -> Z -> St -> St) x0 y0 x1 y1 s :
  runEllipse visit x0 y0 x1 y1 s
  = (fun pts => foldl (fun s p => visit p.1 p.2 s) s pts) <$> ellipsePoints x0 y0 x1 y1.
Proof.
  unfold ellipsePoints, runEllipse. cbv zeta.
  set (cx := (x0 + x1) / 2). set (cy := (y0 + y1) / 2).
  set (rx := (inject_Z (Z.abs (x1 - x0)) / 2)%Q).
  set (ry := (inject_Z (Z.abs (y1 - y0)) / 2)%Q).
  destruct (Qltb rx 1 || Qltb ry 1); [done|].
  set (fuel1 := S _). set (fuel2 := S _). set (p1 := (ry * ry - _ + _)%Q).
  destruct (ellipseRegion1_fold visit cx cy rx ry fuel1 0 ry 0 (2 * rx * rx * ry)%Q p1
              (plotEllipsePoints visit cx cy 0 (mathRound ry) s))
    as (steps & _ & Hacc & Hvis).
  rewrite Hvis, Hacc. clear Hvis Hacc.
  destruct steps as [[[[[x y] px] py] st]|]; [|done].
  cbn [fmap option_fmap option_map].
  set (p2 := (_ - rx * rx * ry * ry)%Q).
  destruct (ellipseRegion2_fold visit cx cy rx ry fuel2 x y px py p2
              (foldl (fun s p => visit p.1 p.2 s)
                     (plotEllipsePoints visit cx cy 0 (mathRound ry) s)
                     (st ≫= ellipseQuad cx cy)))
    as (steps2 & Hacc2 & Hvis2).
  rewrite Hvis2, Hacc2. destruct steps2 as [st2|]; [|done].
  cbn [fmap option_fmap option_map]. f_equal.
  rewrite plot_trace, !foldl_app. by rewrite plot_fold.
Qed.

Lemma ellipsePoints_quads x0 y0 x1 y1 :
  2 <= Z.abs (x1 - x0) -> 2 <= Z.abs (y1 - y0) ->
  exists steps,
    ellipsePoints x0 y0 x1 y1
    = Some (((0, (Z.abs (y1 - y0) + 1) / 2) :: steps)
              ≫= ellipseQuad ((x0 + x1) / 2) ((y0 + y1) / 2)).
Proof.
  intros Hdx Hdy. unfold ellipsePoints, runEllipse. cbv zeta.
  set (cx := (x0 + x1) / 2). set (cy := (y0 + y1) / 2).
  set (dx := Z.abs (x1 - x0)) in *. set (dy := Z.abs (y1 - y0)) in *.
  set (rx := (inject_Z dx / 2)%Q). set (ry := (inject_Z dy / 2)%Q).
  destruct (Qltb rx 1 || Qltb ry 1) eqn:Hdeg.
  { apply ellipse_degenerate in Hdeg. fold dx dy in Hdeg. lia. }
  assert (Hry1 : (1 <= ry)%Q).
  { unfold ry, Qle, Qdiv, Qmult, Qinv, inject_Z. simpl. lia. }
  assert (Hrx0 : (0 <= rx)%Q).
  { unfold rx, Qle, Qdiv, Qmult, Qinv, inject_Z. simpl. lia. }
  assert (Hryry : (0 < ry * ry)%Q) by nra.
  assert (Hrxrx : (0 <= rx * rx)%Q) by nra.
  set (p1 := (ry * ry - _ + _)%Q).
  set (s1 := plotEllipsePoints tracePoint cx cy 0 (mathRound ry) []).
  destruct (ellipseRegion1_total tracePoint cx cy rx ry (S (Z.to_nat (dx * dx))) (dx * dx)
              0 ry 0 (2 * rx * rx * ry)%Q p1 s1 Hryry Hrxrx)
    as (x & y & px & py & s2 & Hrun & Hy); [|lia|].
  { rewrite inject_Z_mult.
    assert (Hd : (inject_Z dx == 2 * rx)%Q) by (unfold rx; field).
    rewrite Hd. nra. }
  destruct (ellipseRegion1_fold tracePoint cx cy rx ry (S (Z.to_nat (dx * dx)))
              0 ry 0 (2 * rx * rx * ry)%Q p1 s1) as (steps & _ & Hacc & _).
  rewrite Hrun. rewrite Hacc in Hrun.
  destruct steps as [[[[[x' y'] px'] py'] st]|]; [|done].
  injection Hrun as -> -> -> -> <-.
  set (p2 := (_ - rx * rx * ry * ry)%Q).
  destruct (ellipseRegion2_total tracePoint cx cy rx ry (S (Z.to_nat dy)) dy
              x y px py p2 (s1 ++ (st ≫= ellipseQuad cx cy)))
    as (pts & Hrun2); [|lia|].
  { assert (Hd : (inject_Z dy == 2 * ry)%Q) by (unfold ry; field). rewrite Hd. lra. }
  destruct (ellipseRegion2_fold tracePoint cx cy rx ry (S (Z.to_nat dy))
              x y px py p2 []) as (steps2 & Hacc2 & _).
  rewrite Hacc2 in Hrun2. destruct steps2 as [st2|]; [|done].
  exists (st ++ st2). rewrite Hacc2. cbn [fmap option_fmap option_map]. f_equal.
  assert (HR : mathRound ry = (dy + 1) / 2) by exact (radius_round dy).
  rewrite HR. cbn [mbind list_bind]. rewrite bind_app.
  unfold ellipseQuad at 3. cbn [fst snd app]. reflexivity.
Qed.

(** The ellipse tool always returns.  When the drag is less than 2 pixels
    wide or less than 2 pixels high it stamps the brush once, at the centre
    [(floor((x0 + x1) / 2), floor((y0 + y1) / 2))].  Otherwise the stamps
    come in quadruples [(cx + x, cy + y)], [(cx - x, cy + y)],
    [(cx + x, cy - y)], [(cx - x, cy - y)], the first with [x = 0] and
    [y = round(|y1 - y0| / 2)].  In both cases the set of stamped centers is
    its own mirror image in the column [cx] and in the row [cy], and the
    canvas receives the stamps in order. *)
Theorem ellipse_outline (x0 y0 x1 y1 : Z) :
  let cx := (x0 + x1) / 2 in
  let cy := (y0 + y1) / 2 in
  let dx := Z.abs (x1 - x0) in
  let dy := Z.abs (y1 - y0) in
  exists pts,
    ellipsePoints x0 y0 x1 y1 = Some pts /\
    (dx < 2 \/ dy < 2 -> pts = [(cx, cy)]) /\
    (2 <= dx -> 2 <= dy ->
     exists steps, pts = ((0, (dy + 1) / 2) :: steps) ≫= ellipseQuad cx cy) /\
    (forall x y, (x, y) ∈ pts -> (2 * cx - x, y) ∈ pts /\ (x, 2 * cy - y) ∈ pts) /\
    forall b cv,
      drawEllipseOutline b x0 y0 x1 y1 cv
      = Some (foldl (fun cv p => drawBrush b p.1 p.2 false cv) cv pts).
Proof.
  intros cx cy dx dy.
  assert (Hquad : forall steps x y,
            (x, y) ∈ steps ≫= ellipseQuad cx cy ->
            (2 * cx - x, y) ∈ steps ≫= ellipseQuad cx cy /\
            (x, 2 * cy - y) ∈ steps ≫= ellipseQuad cx cy).
  { intros steps x y Hin. apply list_elem_of_bind in Hin as ([a b] & Hin & Hab).
    unfold ellipseQuad in Hin. cbn [fst snd] in Hin.
    assert (Hmem : forall p, p ∈ ellipseQuad cx cy (a, b) ->
                             p ∈ steps ≫= ellipseQuad cx cy).
    { intros p Hp. apply list_elem_of_bind. by exists (a, b). }
    unfold ellipseQuad in Hmem. cbn [fst snd] in Hmem.
    repeat (apply elem_of_cons in Hin as [[= -> ->]|Hin]);
      try (by apply elem_of_nil in Hin);
      split; apply Hmem.
    - replace (2 * cx - (cx + a)) with (cx - a) by lia. right. left.
    - replace (2 * cy - (cy + b)) with (cy - b) by lia. right. right. left.
    - replace (2 * cx - (cx - a)) with (cx + a) by lia. left.
    - replace (2 * cy - (cy + b)) with (cy - b) by lia. do 3 right. left.
    - replace (2 * cx - (cx + a)) with (cx - a) by lia. do 3 right. left.
    - replace (2 * cy - (cy - b)) with (cy + b) by lia. left.
    - replace (2 * cx - (cx - a)) with (cx + a) by lia. right. right. left.
    - replace (2 * cy - (cy - b)) with (cy + b) by lia. right. left. }
  assert (Hdraw : forall pts, ellipsePoints x0 y0 x1 y1 = Some pts ->
            forall b cv,
              drawEllipseOutline b x0 y0 x1 y1 cv
              = Some (foldl (fun cv p => drawBrush b p.1 p.2 false cv) cv pts)).
  { intros pts Hpts b cv. unfold drawEllipseOutline.
    by rewrite runEllipse_fold, Hpts. }
  destruct (Z.lt_ge_cases dx 2) as [Hsmall|Hdx];
    [|destruct (Z.lt_ge_cases dy 2) as [Hsmall|Hdy]].
  3: { destruct (ellipsePoints_quads x0 y0 x1 y1 Hdx Hdy) as (steps & Hpts).
       fold cx cy dx dy in Hpts. eexists. split; [exact Hpts|].
       split; [lia|]. split; [by exists steps|]. split; [apply Hquad|by apply Hdraw]. }
  all: assert (Hpts : ellipsePoints x0 y0 x1 y1 = Some [(cx, cy)])
      by (unfold ellipsePoints, runEllipse; cbv zeta;
          rewrite (proj2 (ellipse_degenerate x0 y0 x1 y1)); [done|fold dx dy; lia]).
  all: exists [(cx, cy)]; split; [exact Hpts|]; split; [done|]; split; [lia|];
    split; [|by apply Hdraw].
  all: intros x y Hin; apply list_elem_of_singleton in Hin; injection Hin as -> ->.
  all: split; apply list_elem_of_singleton; f_equal; lia.
Qed.
